(** * pyDeepInsight: the image transformer, embedded and verified

    A shallow embedding of [pyDeepInsight/image_transformer.py]: the
    coordinate scaler, the three discretizers, the single-representation
    transformer ([ImageTransformer]) and the prediction reduction of
    [MRepImageTransformer].

    Conventions of the embedding:
    - Python and numpy integers are [Z]; array positions are [nat] once an
      index has been bounds-checked the way numpy does it ([np_index]).
    - numpy [float64] values are exact rationals [Qc] extended with the
      infinities and NaN ([float]); rounding and signed zeros are not
      modelled.
    - A raised exception is a value of [exn]; a function that can raise
      returns [result]. A method that mutates [self] before it raises
      returns the mutated object together with the [result].
    - External collaborators (projector, hull/rectangle alignment,
      clustering, assignment solvers, fresh memory returned by [np.empty])
      are the fields of the record [externals], a parameter of every
      definition that calls them. *)

From Stdlib Require Import ZArith QArith Qcanon Qround Lia List Ascii String.
From stdpp Require Import base decidable option numbers list list_numbers strings pretty gmap sorting.

Local Open Scope Z_scope.

(** ** Exceptions and results *)

Inductive exn : Type :=
  | IndexError (index : Z) (axis : nat) (size : nat)
  | TooManyIndices
  | BooleanIndexError (axis : nat) (size : nat) (mask_size : nat)
  | ValueError (msg : string)
  | KeyError (key : string)
  | TypeError (msg : string).

Inductive result (A : Type) : Type :=
  | Ok (a : A)
  | Raise (e : exn).
Arguments Ok {A} a.
Arguments Raise {A} e.

Definition bind {A B : Type} (m : result A) (f : A → result B) : result B :=
  match m with
  | Ok a => f a
  | Raise e => Raise e
  end.

Notation "'let*' x := m 'in' k" := (bind m (λ x, k))
  (at level 10, x name, m at level 100, k at level 200).

Definition is_Ok {A} (r : result A) : Prop := ∃ a, r = Ok a.
Definition is_Raise {A} (r : result A) : Prop := ∃ e, r = Raise e.

(** Python's [repr] of a [str]; a character of a string stands for a code
    point below 256. The string is put between single quotes, or between
    double quotes when it holds a single quote and no double quote; the
    quote in use and the backslash are escaped by a backslash, tab, newline
    and carriage return are written [\t], [\n] and [\r], and the other
    characters that are not printable as [\x] and two hexadecimal digits. *)
Definition hex_digit (n : nat) : ascii :=
  default (ascii_of_nat 48) (String.get n "0123456789abcdef").

Definition repr_char (quote c : ascii) : string :=
  let n := nat_of_ascii c in
  let backslash := ascii_of_nat 92 in
  if decide (c = quote ∨ c = backslash) then String backslash (String c "")
  else if decide (n = 9%nat) then String backslash "t"
  else if decide (n = 10%nat) then String backslash "n"
  else if decide (n = 13%nat) then String backslash "r"
  else if decide (n < 32 ∨ n = 127 ∨ 128 ≤ n ≤ 160 ∨ n = 173)%nat then
    String backslash
      (String (ascii_of_nat 120)
         (String (hex_digit (n / 16)) (String (hex_digit (n mod 16)) "")))
  else String c "".

Fixpoint string_has (c : ascii) (s : string) : bool :=
  match s with
  | EmptyString => false
  | String c' s' => bool_decide (c' = c) || string_has c s'
  end.

Fixpoint repr_body (quote : ascii) (s : string) : string :=
  match s with
  | EmptyString => EmptyString
  | String c s' => repr_char quote c +:+ repr_body quote s'
  end.

Definition py_repr (s : string) : string :=
  let quote :=
    if string_has (ascii_of_nat 39) s && negb (string_has (ascii_of_nat 34) s)
    then ascii_of_nat 34 else ascii_of_nat 39 in
  String quote (repr_body quote s +:+ String quote "").

(** The text an exception shows, [str(e)]: for the exceptions the package
    raises the text the source gives them, for a [KeyError] the [repr] of
    the key, for numpy's error on an integer index out of range its text.
    The texts numpy gives its errors for too many indices and for a boolean
    index of the wrong length vary between its versions and are not
    modelled. *)
Definition exn_message (e : exn) : option string :=
  match e with
  | IndexError k ax n =>
      Some ("index " +:+ pretty k +:+ " is out of bounds for axis " +:+ pretty ax
            +:+ " with size " +:+ pretty n)
  | TooManyIndices => None
  | BooleanIndexError _ _ _ => None
  | ValueError msg => Some msg
  | KeyError key => Some (py_repr key)
  | TypeError msg => Some msg
  end.

(** [foldM f l s]: a [for] loop over [l] threading the loop state [s]; the
    first exception leaves the loop. *)
Fixpoint foldM {A S : Type} (f : S → A → result S) (l : list A) (s : S)
  : result S :=
  match l with
  | [] => Ok s
  | a :: l' => let* s' := f s a in foldM f l' s'
  end.

(** [mapM f l]: a comprehension whose body can raise. *)
Fixpoint mapM {A B : Type} (f : A → result B) (l : list A) : result (list B) :=
  match l with
  | [] => Ok []
  | a :: l' => let* b := f a in let* bs := mapM f l' in Ok (b :: bs)
  end.

(** [range(lo, hi)]. *)
Definition py_range (lo hi : Z) : list Z := seqZ lo (hi - lo).

(** numpy's resolution of an integer index on an axis of length [size]:
    negative indices count from the end, anything else out of range
    raises. *)
Definition np_index (size : nat) (axis : nat) (k : Z) : result nat :=
  if decide (0 ≤ k < Z.of_nat size) then Ok (Z.to_nat k)
  else if decide (- Z.of_nat size ≤ k < 0) then Ok (Z.to_nat (Z.of_nat size + k))
  else Raise (IndexError k axis size).

(** [a[k] = v] on the first axis. *)
Definition setitem {A : Type} (a : list A) (k : Z) (v : A) : result (list A) :=
  let* i := np_index (length a) 0 k in Ok (<[i := v]> a).

(** [a[k]] on the first axis. *)
Definition getitem {A : Type} (a : list A) (k : Z) : result A :=
  let* i := np_index (length a) 0 k in
  match a !! i with
  | Some v => Ok v
  | None => Raise (IndexError k 0 (length a))
  end.

(** numpy integer [%] and [//]: floored, and a zero divisor yields 0 (with a
    warning) instead of raising. *)
Definition np_mod (a b : Z) : Z := if decide (b = 0) then 0 else a `mod` b.
Definition np_floordiv (a b : Z) : Z := if decide (b = 0) then 0 else a `div` b.

(** ** Floating-point values *)

Inductive float : Type :=
  | Fin (q : Qc)
  | Inf (neg : bool)
  | NaN.

Global Instance float_eq_dec : EqDecision float.
Proof. solve_decision. Defined.

Definition Qc_neg (q : Qc) : bool := bool_decide (q < 0)%Qc.

Definition fl_opp (a : float) : float :=
  match a with
  | Fin q => Fin (- q)%Qc
  | Inf s => Inf (negb s)
  | NaN => NaN
  end.

Definition fl_add (a b : float) : float :=
  match a, b with
  | NaN, _ | _, NaN => NaN
  | Fin x, Fin y => Fin (x + y)%Qc
  | Inf s, Fin _ | Fin _, Inf s => Inf s
  | Inf s, Inf s' => if decide (s = s') then Inf s else NaN
  end.

Definition fl_sub (a b : float) : float := fl_add a (fl_opp b).

Definition fl_mul (a b : float) : float :=
  match a, b with
  | NaN, _ | _, NaN => NaN
  | Fin x, Fin y => Fin (x * y)%Qc
  | Inf s, Fin y | Fin y, Inf s =>
      if decide (y = 0%Qc) then NaN else Inf (xorb s (Qc_neg y))
  | Inf s, Inf s' => Inf (xorb s s')
  end.

(** Division of two finite values the way numpy divides [float64] arrays:
    no exception, [0/0] is NaN and [x/0] an infinity. *)
Definition fl_div (x y : Qc) : float :=
  if decide (y = 0%Qc) then
    if decide (x = 0%Qc) then NaN else Inf (Qc_neg x)
  else Fin (x / y)%Qc.

Definition is_finite (a : float) : bool :=
  match a with Fin _ => true | _ => false end.

Definition is_nan (a : float) : bool :=
  match a with NaN => true | _ => false end.

Abbreviation fpoint := (float * float)%type.
Abbreviation point := (Qc * Qc)%type.
Abbreviation pixel := (Z * Z)%type.

(** ** Coordinate scaler *)

Definition Qc_min (x y : Qc) : Qc := if decide (x ≤ y)%Qc then x else y.
Definition Qc_max (x y : Qc) : Qc := if decide (x ≤ y)%Qc then y else x.

(** [coords.min(axis=0)] and [coords.max(axis=0)]: a reduction over an empty
    array has no identity and raises. *)
Definition np_min_axis0 (coords : list point) : result point :=
  match coords with
  | [] => Raise (ValueError
      "zero-size array to reduction operation minimum which has no identity")
  | p :: ps => Ok (foldl (λ m q, (Qc_min m.1 q.1, Qc_min m.2 q.2)) p ps)
  end.

Definition np_max_axis0 (coords : list point) : result point :=
  match coords with
  | [] => Raise (ValueError
      "zero-size array to reduction operation maximum which has no identity")
  | p :: ps => Ok (foldl (λ m q, (Qc_max m.1 q.1, Qc_max m.2 q.2)) p ps)
  end.

Definition scale_coordinates (coords : list point) (dim_max : pixel)
  : result (list fpoint) :=
  let* data_min := np_min_axis0 coords in
  let* data_max := np_max_axis0 coords in
  let std := (λ p : point,
                (fl_div (p.1 - data_min.1) (data_max.1 - data_min.1),
                 fl_div (p.2 - data_min.2) (data_max.2 - data_min.2)))
             <$> coords in
  let scaled := (λ s : fpoint,
                   (fl_mul s.1 (Fin (Qc_of_Z dim_max.1)),
                    fl_mul s.2 (Fin (Qc_of_Z dim_max.2))))
                <$> std in
  Ok scaled.

(** ** Pixel centroids and the decoding of an assignment *)

Section centroids.
(** What [np.empty] finds in the memory it returns, by row. *)
Variable uninit : nat → fpoint.

(** [np.empty((n, 2))]. *)
Definition np_empty2 (n : Z) : result (list fpoint) :=
  if decide (n < 0) then Raise (ValueError "negative dimensions are not allowed")
  else Ok (uninit <$> seq 0 (Z.to_nat n)).

(** The loop body is [px_map[i * px_size[0] + j] = [i, j]]. *)
Definition calculate_pixel_centroids (px_size : pixel) : result (list fpoint) :=
  let* px_map := np_empty2 (px_size.1 * px_size.2) in
  let* px_map :=
    foldM (λ px_map i,
        foldM (λ px_map j,
            setitem px_map (i * px_size.1 + j) (Fin (Qc_of_Z i), Fin (Qc_of_Z j)))
          (py_range 0 px_size.2) px_map)
      (py_range 0 px_size.1) px_map in
  let half := Fin (Qc_of_Z 1 / Qc_of_Z 2)%Qc in
  Ok ((λ p : fpoint, (fl_add p.1 half, fl_add p.2 half)) <$> px_map).
End centroids.

(** The pair [[yi, xi]] that [assignment_postprocessing] stores for the
    pixel index [ki]. *)
Definition decode_pixel (px_size : pixel) (ki : Z) : pixel :=
  let xi := np_mod ki px_size.1 in
  let yi := np_floordiv ki px_size.1 in
  (yi, xi).

(** [px_assigned] starts as [np.empty] and every row is written by the
    loop, so the result is the list of the rows written. *)
Definition assignment_postprocessing (position : list point) (px_size : pixel)
    (solution labels : list Z) : result (list pixel) :=
  mapM (λ i,
      let* j := getitem labels i in
      let* ki := getitem solution j in
      Ok (decode_pixel px_size ki))
    (py_range 0 (Z.of_nat (length position))).

(** ** Arrays of values *)

(** A 2-D array of numbers; [n_cols] is kept because an array without rows
    still has a width. *)
Record matrix : Type := Matrix { n_cols : nat; rows : list (list Qc) }.

Definition n_rows (X : matrix) : nat := length (rows X).

Definition matrix_wf (X : matrix) : Prop :=
  Forall (λ r, length r = n_cols X) (rows X).

(** An n-dimensional array, 1 ≤ n ≤ 4: the first dimension is the length of
    the outer list, the others are kept explicitly. *)
Inductive ndarray : Type :=
  | Arr1 (v : list Qc)
  | Arr2 (X : matrix)
  | Arr3 (d1 d2 : nat) (v : list (list (list Qc)))
  | Arr4 (d1 d2 d3 : nat) (v : list (list (list (list Qc)))).

Definition shape (a : ndarray) : list nat :=
  match a with
  | Arr1 v => [length v]
  | Arr2 X => [n_rows X; n_cols X]
  | Arr3 d1 d2 v => [length v; d1; d2]
  | Arr4 d1 d2 d3 v => [length v; d1; d2; d3]
  end.

Definition ndim (a : ndarray) : nat := length (shape a).

(** What [transform] returns: a numpy array or a torch tensor. *)
Inductive image : Type :=
  | Numpy (a : ndarray)
  | Torch (a : ndarray).

(** [X.T] *)
Definition np_T (X : matrix) : matrix :=
  Matrix (n_rows X)
    ((λ j, (λ r : list Qc, default 0%Qc (r !! j)) <$> rows X) <$> seq 0 (n_cols X)).

Definition Qc_sum (l : list Qc) : Qc := foldr Qcplus 0%Qc l.

(** [np.mean] of a 1-D selection: the sum over the count. *)
Definition np_mean (l : list Qc) : Qc :=
  (Qc_sum l / Qc_of_Z (Z.of_nat (length l)))%Qc.

(** ** [np.unique] *)

Section unique.
Context {A : Type} `{EqDecision A} (ltb : A → A → bool).

Fixpoint insert_unique (x : A) (l : list A) : list A :=
  match l with
  | [] => [x]
  | y :: l' =>
      if decide (x = y) then l
      else if ltb x y then x :: l
      else y :: insert_unique x l'
  end.

(** The sorted distinct elements. *)
Definition np_unique (l : list A) : list A := foldr insert_unique [] l.

(** Position of [x] in [l] ([length l] when absent). *)
Fixpoint index_of (x : A) (l : list A) : nat :=
  match l with
  | [] => 0%nat
  | y :: l' => if decide (x = y) then 0%nat else S (index_of x l')
  end.

(** [return_inverse=True]: for every element its position among the
    distinct ones. *)
Definition np_unique_inverse (l : list A) : list nat :=
  (λ x, index_of x (np_unique l)) <$> l.
End unique.

(** Rows of an integer array are ordered lexicographically. *)
Definition pixel_ltb (a b : pixel) : bool :=
  (a.1 <? b.1) || ((a.1 =? b.1) && (a.2 <? b.2)).

(** [np.where(idx == i)[0]]: the positions holding [i], ascending. *)
Definition np_where_eq (idx : list nat) (i : nat) : list nat :=
  filter (λ f, idx !! f = Some i) (seq 0 (length idx)).

(** ** External collaborators *)

Record externals : Type := Externals {
  (** contents of the memory [np.empty] returns *)
  uninit : nat → fpoint;
  (** what [astype(int)] makes of NaN or an infinity (platform-defined) *)
  cast_invalid : Z;
  (** [BisectingKMeans(n_clusters=k).fit(positions)]: labels and centres *)
  bisecting_kmeans : list fpoint → Z → result (list Z * list fpoint);
  (** [scipy.optimize.linear_sum_assignment(cost)[1]] *)
  linear_sum_assignment : list (list float) → result (list Z);
  (** [utils.asymmetric_greedy_search(cost, shuffle=True, minimize=True)[1]],
      from the package's module [utils]; its shuffling is part of the
      function given here *)
  asymmetric_greedy_search : list (list float) → result (list Z);
  (** the projector object and its [fit_transform], which may change it *)
  projector : Type;
  fit_transform : projector → matrix → result (list point) * projector;
  (** the sklearn projectors the deprecated string argument selects *)
  TSNE : projector;
  PCA : projector;
  KernelPCA : projector;
  (** [ConvexHull], [_minimum_bounding_rectangle] and the rotation
      [np.dot(mbr_rot, x_new.T).T] of [fit] *)
  rotate_to_mbr : list point → result (list point);
}.

(** ** Discretizers *)

Section discretizers.
Context (E : externals).

(** [np.floor(x).astype(int)] *)
Definition floor_int (x : float) : Z :=
  match x with
  | Fin q => Qfloor q
  | _ => cast_invalid E
  end.

Definition coordinate_binning (position : list point) (px_size : pixel)
  : result (list pixel) :=
  let* scaled := scale_coordinates position px_size in
  let px_binned := (λ s : fpoint, (floor_int s.1, floor_int s.2)) <$> scaled in
  (* Need to move maximum values into the lower bin *)
  let px_binned := (λ p : pixel,
      (if decide (p.1 = px_size.1) then px_size.1 - 1 else p.1, p.2))
    <$> px_binned in
  let px_binned := (λ p : pixel,
      (p.1, if decide (p.2 = px_size.2) then px_size.2 - 1 else p.2))
    <$> px_binned in
  Ok px_binned.

(** The squared Euclidean distance. [cdist] returns its square root and
    both assignment routines square that again ([dist**2]); the cost
    matrix is represented by the squared distances themselves. *)
Definition sq_dist (a b : fpoint) : float :=
  let dx := fl_sub a.1 b.1 in
  let dy := fl_sub a.2 b.2 in
  fl_add (fl_mul dx dx) (fl_mul dy dy).

Definition cdist2 (xa xb : list fpoint) : list (list float) :=
  (λ a, sq_dist a <$> xb) <$> xa.

Definition clustered_cdist (positions centroids : list fpoint) (k : Z)
  : result (list (list float) * list Z) :=
  let* kmeans := bisecting_kmeans E positions k in
  let cl_labels := kmeans.1 in
  let cl_centers := kmeans.2 in
  Ok (cdist2 cl_centers centroids, cl_labels).

Definition assignment_preprocessing (position : list point) (px_size : pixel)
    (max_assignments : Z) : result (list (list float) * list Z) :=
  let* scaled := scale_coordinates position px_size in
  let* px_centers := calculate_pixel_centroids (uninit E) px_size in
  if decide (Z.of_nat (length scaled) > max_assignments) then
    clustered_cdist scaled px_centers max_assignments
  else
    Ok (cdist2 scaled px_centers, py_range 0 (Z.of_nat (length scaled))).

Definition coordinate_optimal_assignment (position : list point)
    (px_size : pixel) : result (list pixel) :=
  let k := px_size.1 * px_size.2 in
  let* dl := assignment_preprocessing position px_size k in
  let* lsa := linear_sum_assignment E dl.1 in
  assignment_postprocessing position px_size lsa dl.2.

Definition coordinate_heuristic_assignment (position : list point)
    (px_size : pixel) : result (list pixel) :=
  (* AGS requires asymmetric assignment so k must be less than pixels *)
  let k := px_size.1 * px_size.2 - 1 in
  let* dl := assignment_preprocessing position px_size k in
  let* lsa := asymmetric_greedy_search E dl.1 in
  assignment_postprocessing position px_size lsa dl.2.
End discretizers.

(** ** The single-representation transformer *)

Inductive method : Type :=
  | m_coordinate_binning
  | m_coordinate_optimal_assignment
  | m_coordinate_heuristic_assignment.

Global Instance method_eq_dec : EqDecision method.
Proof. solve_decision. Defined.

(** The class attribute; [getattr(cls, method_name)] is resolved in the
    table. *)
Definition DISCRETIZATION_OPTIONS : gmap string method :=
  list_to_map [
    ("bin", m_coordinate_binning);
    ("assignment", m_coordinate_optimal_assignment);
    ("lsa", m_coordinate_optimal_assignment);
    ("ags", m_coordinate_heuristic_assignment)
  ].

(** The [pixels] argument: an int or a tuple of two ints. *)
Inductive pixels_arg : Type :=
  | PxInt (n : Z)
  | PxTuple (height width : Z).

Definition ascii_lower (c : ascii) : ascii :=
  let n := nat_of_ascii c in
  if ((65 <=? n) && (n <=? 90))%nat then ascii_of_nat (n + 32) else c.

(** [str.casefold], on ASCII. *)
Fixpoint casefold (s : string) : string :=
  match s with
  | EmptyString => EmptyString
  | String c s' => String (ascii_lower c) (casefold s')
  end.

Definition dquote : string := String (ascii_of_nat 34) EmptyString.

Abbreviation grid := (list (list Qc)).

(** Python's [repr] of a shape tuple. *)
Definition shape_repr (s : list nat) : string :=
  match s with
  | [] => "()"
  | [n] => "(" +:+ pretty n +:+ ",)"
  | n :: s' => "(" +:+ pretty n +:+ foldr (λ m acc, ", " +:+ pretty m +:+ acc) ")" s'
  end.

Section ImageTransformer.
Context (E : externals).

Record ImageTransformer : Type := mkImageTransformer {
  _fe : projector E;
  _dm : method;
  _pixels : pixel;
  _xrot : list point;      (* [np.empty(0)] is the empty list *)
  _coords : list pixel;    (* [np.empty(0)] is the empty list *)
}.

Definition with_pixels (self : ImageTransformer) (px : pixel) :=
  mkImageTransformer (_fe self) (_dm self) px (_xrot self) (_coords self).
Definition with_coords (self : ImageTransformer) (c : list pixel) :=
  mkImageTransformer (_fe self) (_dm self) (_pixels self) (_xrot self) c.
Definition with_xrot (self : ImageTransformer) (x : list point) :=
  mkImageTransformer (_fe self) (_dm self) (_pixels self) x (_coords self).
Definition with_fe (self : ImageTransformer) (p : projector E) :=
  mkImageTransformer p (_dm self) (_pixels self) (_xrot self) (_coords self).

Definition _parse_pixels (pixels : pixels_arg) : pixel :=
  match pixels with
  | PxInt n => (n, n)
  | PxTuple h w => (h, w)
  end.

(** The [feature_extractor] argument: a string, an object with a
    [fit_transform] method, or anything else. *)
Inductive fe_arg : Type :=
  | FeStr (s : string)
  | FeObj (p : projector E)
  | FeOther.

Definition _parse_feature_extractor (feature_extractor : fe_arg)
  : result (projector E) :=
  match feature_extractor with
  | FeStr s =>
      let fe := casefold s in
      if decide (fe = casefold "tsne") then Ok (TSNE E)
      else if decide (fe = casefold "pca") then Ok (PCA E)
      else if decide (fe = casefold "kpca") then Ok (KernelPCA E)
      else Raise (ValueError ("feature_extractor '" +:+ s +:+ "' not valid"))
  | FeObj p => Ok p
  | FeOther =>
      Raise (TypeError ("Parameter feature_extractor is not a string nor has method "
                        +:+ dquote +:+ "fit_transform" +:+ dquote))
  end.

Definition _parse_discretization (method_key : string) : result method :=
  match DISCRETIZATION_OPTIONS !! method_key with
  | Some m => Ok m
  | None => Raise (KeyError method_key)
  end.

Definition __init__ (feature_extractor : fe_arg) (discretization : string)
    (pixels : pixels_arg) : result ImageTransformer :=
  let* fe := _parse_feature_extractor feature_extractor in
  let* dm := _parse_discretization discretization in
  let px := _parse_pixels pixels in
  Ok (mkImageTransformer fe dm px [] []).

(** Calling the stored class method [self._dm]. *)
Definition call_dm (dm : method) (position : list point) (px_size : pixel)
  : result (list pixel) :=
  match dm with
  | m_coordinate_binning => coordinate_binning E position px_size
  | m_coordinate_optimal_assignment =>
      coordinate_optimal_assignment E position px_size
  | m_coordinate_heuristic_assignment =>
      coordinate_heuristic_assignment E position px_size
  end.

Definition _calculate_coords (self : ImageTransformer)
  : result unit * ImageTransformer :=
  match call_dm (_dm self) (_xrot self) (_pixels self) with
  | Ok px_coords => (Ok (), with_coords self px_coords)
  | Raise e => (Raise e, self)
  end.

Definition fit (self : ImageTransformer) (X : matrix)
  : result unit * ImageTransformer :=
  (* perform dimensionality reduction *)
  let '(r, fe') := fit_transform E (_fe self) (np_T X) in
  let self := with_fe self fe' in
  match r with
  | Raise e => (Raise e, self)
  | Ok x_new =>
      (* convex hull, minimum bounding rectangle, rotation *)
      match rotate_to_mbr E x_new with
      | Raise e => (Raise e, self)
      | Ok xrot =>
          let self := with_xrot self xrot in
          _calculate_coords self
      end
  end.

(** The getter of the property [pixels]. *)
Definition pixels (self : ImageTransformer) : pixel := _pixels self.

(** The setter of the property [pixels]. [hasattr(self, '_coords')] holds
    for every instance, since [__init__] sets the attribute. *)
Definition set_pixels (self : ImageTransformer) (pixels : pixels_arg)
  : result unit * ImageTransformer :=
  let pixels := match pixels with
                | PxInt n => (n, n)
                | PxTuple h w => (h, w)
                end in
  let self := with_pixels self pixels in
  _calculate_coords self.

(** [np.zeros((n,) + pixels)] *)
Definition np_zeros3 (n : nat) (px : pixel) : result (list grid) :=
  if decide (px.1 < 0 ∨ px.2 < 0)
  then Raise (ValueError "negative dimensions are not allowed")
  else Ok (replicate n (replicate (Z.to_nat px.1) (replicate (Z.to_nat px.2) 0%Qc))).

(** [X[:, cols]]: the index array is checked against the width of [X]. *)
Definition take_columns (X : matrix) (cols : list nat) : result (list (list Qc)) :=
  let* _ := mapM (λ f : nat, np_index (n_cols X) 1 (Z.of_nat f)) cols in
  Ok ((λ r : list Qc, (λ f, default 0%Qc (r !! f)) <$> cols) <$> rows X).

(** [img_matrix[:, c[0], c[1]] = vec] *)
Definition set_pixel_all (img_matrix : list grid) (px : pixel) (c : pixel)
    (vec : list Qc) : result (list grid) :=
  let* r := np_index (Z.to_nat px.1) 1 c.1 in
  let* k := np_index (Z.to_nat px.2) 2 c.2 in
  Ok (zip_with (λ (g : grid) v, alter (λ row, <[k := v]> row) r g) img_matrix vec).

Definition _mat_to_rgb (px : pixel) (mat : list grid) : ndarray :=
  Arr4 (Z.to_nat px.1) (Z.to_nat px.2) 3
    ((λ g : grid, (λ row : list Qc, (λ v, [v; v; v]) <$> row) <$> g) <$> mat).

Definition _mat_to_pytorch (px : pixel) (mat : list grid) : ndarray :=
  Arr4 3 (Z.to_nat px.1) (Z.to_nat px.2) ((λ g : grid, [g; g; g]) <$> mat).

(** The body of the loop of [transform], for the [i]-th distinct pixel [c]
    ([ic = (i, c)]). *)
Definition img_matrix_step (px_size : pixel) (X : matrix) (idx : list nat)
    (img_matrix : list grid) (ic : nat * pixel) : result (list grid) :=
  let* sel := take_columns X (np_where_eq idx ic.1) in
  set_pixel_all img_matrix px_size ic.2 (np_mean <$> sel).

(** The first part of [transform]: the image matrix of shape (N, H, W). *)
Definition img_matrix_of (self : ImageTransformer) (X : matrix)
    (empty_value : Qc) : result (list grid) :=
  let unq := np_unique pixel_ltb (_coords self) in
  let idx := np_unique_inverse pixel_ltb (_coords self) in
  let* img_matrix := np_zeros3 (n_rows X) (_pixels self) in
  let img_matrix :=
    if decide (empty_value ≠ 0%Qc)
    then (λ g : grid, (λ row : list Qc, (λ _, empty_value) <$> row) <$> g) <$> img_matrix
    else img_matrix in
  foldM (img_matrix_step (_pixels self) X idx) (imap pair unq) img_matrix.

Definition transform (self : ImageTransformer) (X : matrix)
    (img_format : string) (empty_value : Qc) : result image :=
  let* img_matrix := img_matrix_of self X empty_value in
  if decide (img_format = "rgb") then
    Ok (Numpy (_mat_to_rgb (_pixels self) img_matrix))
  else if decide (img_format = "scalar") then
    Ok (Numpy (Arr3 (Z.to_nat (_pixels self).1) (Z.to_nat (_pixels self).2) img_matrix))
  else if decide (img_format = "pytorch") then
    Ok (Torch (_mat_to_pytorch (_pixels self) img_matrix))
  else Raise (ValueError ("'" +:+ img_format +:+ "' not accepted for img_format")).

(** The index arrays [self._coords[:, 0]] and [self._coords[:, 1]],
    resolved on two axes of lengths [d1] and [d2]. *)
Definition coords_index (self : ImageTransformer) (d1 d2 : nat) (ax1 ax2 : nat)
  : result (list (nat * nat)) :=
  match _coords self with
  | [] => Raise TooManyIndices
  | coords =>
      let* rs := mapM (λ c : pixel, np_index d1 ax1 c.1) coords in
      let* cs := mapM (λ c : pixel, np_index d2 ax2 c.2) coords in
      Ok (zip rs cs)
  end.

Definition at2 {A} (dflt : A) (g : list (list A)) (rc : nat * nat) : A :=
  default dflt (g !! rc.1 ≫= λ row, row !! rc.2).

Definition inverse_transform (self : ImageTransformer) (img : ndarray)
  : result ndarray :=
  let px := _pixels self in
  let bad := Raise (ValueError
    ("Expected dimensions of (B, " +:+ pretty px.1 +:+ ", " +:+ pretty px.2
     +:+ ", C) where B and C are optional, but got " +:+ shape_repr (shape img))) in
  let same (a b : nat) := bool_decide ((Z.of_nat a, Z.of_nat b) = px) in
  match img with
  | Arr2 M =>
      if same (n_rows M) (n_cols M) then
        let* ix := coords_index self (n_rows M) (n_cols M) 0 1 in
        Ok (Arr1 (at2 0%Qc (rows M) <$> ix))
      else bad
  | Arr3 d1 d2 v =>
      if same d1 d2 then
        let* ix := coords_index self d1 d2 1 2 in
        Ok (Arr2 (Matrix (length ix) ((λ g : grid, at2 0%Qc g <$> ix) <$> v)))
      else if same (length v) d1 then
        let* ix := coords_index self (length v) d1 0 1 in
        Ok (Arr2 (Matrix d2 (at2 [] v <$> ix)))
      else bad
  | Arr4 d1 d2 d3 v =>
      if same d1 d2 then
        let* ix := coords_index self d1 d2 1 2 in
        Ok (Arr3 (length ix) d3 ((λ b, at2 [] b <$> ix) <$> v))
      else bad
  | Arr1 _ => bad
  end.
End ImageTransformer.

(** ** [MRepImageTransformer.prediction_reduction] *)

(** [y_hat[index == k]]: a boolean mask must have the length of the array
    it selects from. *)
Definition mask_eq (y_hat : list Qc) (index : list Z) (k : Z) : result (list Qc) :=
  if decide (length index = length y_hat) then
    Ok ((filter (λ yi : Qc * Z, yi.2 = k) (zip y_hat index)).*1)
  else Raise (BooleanIndexError 0 (length y_hat) (length index)).

Definition prediction_reduction (y_hat : list Qc) (index : list Z)
    (reduction : string) : result (list Qc) :=
  let index_set := np_unique Z.ltb index in
  if decide (reduction = "mean") then
    mapM (λ k, let* sel := mask_eq y_hat index k in Ok (np_mean sel)) index_set
  else if decide (reduction = "sum") then
    mapM (λ k, let* sel := mask_eq y_hat index k in Ok (Qc_sum sel)) index_set
  else Raise (ValueError ("reduction method '" +:+ reduction +:+ "' not valid")).

(** ** More methods of the single-representation transformer *)

Section ImageTransformer_more.
Context (E : externals).

(** What [np.add.at(a, (), 1)] makes of [a]: the call that
    [feature_density_matrix] issues for a transformer that was never fitted,
    whose [_coords] is [np.empty(0)], so that [tuple(self._coords.T)] is the
    empty tuple. *)
Variable add_at_no_index : grid → result grid.

(** [np.zeros(pixels)] *)
Definition np_zeros2 (px : pixel) : result grid :=
  if decide (px.1 < 0 ∨ px.2 < 0)
  then Raise (ValueError "negative dimensions are not allowed")
  else Ok (replicate (Z.to_nat px.1) (replicate (Z.to_nat px.2) 0%Qc)).

(** [a[r, k] += 1] *)
Definition add_one_at (a : grid) (rk : nat * nat) : grid :=
  alter (alter (Qcplus 1) rk.2) rk.1 a.

(** [np.add.at(fdmat, tuple(self._coords.T), 1)] checks the two index
    arrays [self._coords[:, 0]] and [self._coords[:, 1]] against the axes
    of [fdmat] and then adds 1 once for every pair, also for a pair that
    occurs more than once. *)
Definition feature_density_matrix (self : ImageTransformer E) : result grid :=
  let* fdmat := np_zeros2 (_pixels E self) in
  match _coords E self with
  | [] => add_at_no_index fdmat
  | _ =>
      let* ix := coords_index E self (Z.to_nat (_pixels E self).1)
                   (Z.to_nat (_pixels E self).2) 0 1 in
      Ok (foldl add_one_at fdmat ix)
  end.

(** [coords] returns a copy of the mapping. *)
Definition coords (self : ImageTransformer E) : list pixel := _coords E self.

(** [ImageTransformer.fit_transform]: [self.fit(X)], then
    [self.transform(X, **kwargs)]. *)
Definition ImageTransformer_fit_transform (self : ImageTransformer E) (X : matrix)
    (img_format : string) (empty_value : Qc) : result image * ImageTransformer E :=
  let '(r, self) := fit E self X in
  match r with
  | Raise e => (Raise e, self)
  | Ok _ => (transform E self X img_format empty_value, self)
  end.
End ImageTransformer_more.

(** ** The multi-representation transformer

    [MRepImageTransformer] keeps a list of single-representation
    transformers. The feature extractors given to it are taken to be
    distinct objects: no projector is shared between two transformers of
    the list. *)

(** Exceptions that the single-representation transformer does not raise:
    those of the interpreter, and numpy's [ValueError] on arrays that cannot
    be joined or reshaped (whose message is not modelled). *)
Inductive py_exn : Type :=
  | Lib (e : exn)
  (** [AttributeError] *)
  | AttributeError (msg : string)
  (** [IndexError: list index out of range] *)
  | ListIndexError
  (** [ValueError: need at least one array to concatenate] *)
  | NoArrays
  (** [ValueError] of [np.concatenate] and [np.stack]: the arrays differ in
      a dimension that has to agree *)
  | ShapeMismatch
  (** [ValueError] of [reshape]: the unknown dimension cannot be inferred *)
  | CannotReshape.

Inductive outcome (A : Type) : Type :=
  | Returns (a : A)
  | Raises (e : py_exn).
Arguments Returns {A} a.
Arguments Raises {A} e.

Definition lift {A} (r : result A) : outcome A :=
  match r with
  | Ok a => Returns a
  | Raise e => Raises (Lib e)
  end.

Definition obind {A B : Type} (m : outcome A) (f : A → outcome B) : outcome B :=
  match m with
  | Returns a => f a
  | Raises e => Raises e
  end.

Notation "'let+' x := m 'in' k" := (obind m (λ x, k))
  (at level 10, x name, m at level 100, k at level 200).

(** *** Arrays along their first axis *)

(** The array behind an image; for a tensor, what its [__array__] gives
    numpy. *)
Definition to_array (im : image) : ndarray :=
  match im with
  | Numpy a | Torch a => a
  end.

(** [a.shape[0]] *)
Definition first_dim (a : ndarray) : nat := hd 0%nat (shape a).

(** The slices [a[s:s+1]] for every position [s] of the first axis. *)
Definition items (a : ndarray) : list ndarray :=
  match a with
  | Arr1 v => (λ x, Arr1 [x]) <$> v
  | Arr2 X => (λ x, Arr2 (Matrix (n_cols X) [x])) <$> rows X
  | Arr3 d1 d2 v => (λ x, Arr3 d1 d2 [x]) <$> v
  | Arr4 d1 d2 d3 v => (λ x, Arr4 d1 d2 d3 [x]) <$> v
  end.

(** [a[0:0]] *)
Definition empty_like (a : ndarray) : ndarray :=
  match a with
  | Arr1 _ => Arr1 []
  | Arr2 X => Arr2 (Matrix (n_cols X) [])
  | Arr3 d1 d2 _ => Arr3 d1 d2 []
  | Arr4 d1 d2 d3 _ => Arr4 d1 d2 d3 []
  end.

(** Joining two arrays that agree in all but the first dimension along the
    first axis. *)
Definition append_rows (a b : ndarray) : ndarray :=
  match a, b with
  | Arr1 v, Arr1 w => Arr1 (v ++ w)
  | Arr2 X, Arr2 Y => Arr2 (Matrix (n_cols X) (rows X ++ rows Y))
  | Arr3 d1 d2 v, Arr3 _ _ w => Arr3 d1 d2 (v ++ w)
  | Arr4 d1 d2 d3 v, Arr4 _ _ _ w => Arr4 d1 d2 d3 (v ++ w)
  | _, _ => a
  end.

(** [np.concatenate(arrays, axis=0)] *)
Definition np_concatenate (arrays : list ndarray) : outcome ndarray :=
  match arrays with
  | [] => Raises NoArrays
  | a :: rest =>
      if decide (Forall (λ b, tail (shape b) = tail (shape a)) rest)
      then Returns (foldl append_rows a rest)
      else Raises ShapeMismatch
  end.

(** [img_shape = arrays[0].shape[1:]] followed by
    [np.stack(arrays, axis=1).reshape(-1, *img_shape)]: the arrays must have
    one shape; the result lists, sample by sample, the slice of every
    array. Without any array the subscript [arrays[0]] fails; with a zero
    among the dimensions of [img_shape] the reshape does. *)
Definition np_stack_reshape (arrays : list ndarray) : outcome ndarray :=
  match arrays with
  | [] => Raises ListIndexError
  | a :: rest =>
      if decide (Forall (λ b, shape b = shape a) rest) then
        if decide (0%nat ∈ tail (shape a)) then Raises CannotReshape
        else Returns (foldl append_rows (empty_like a)
                        (s ← seq 0 (first_dim a); omap (λ b, items b !! s) arrays))
      else Raises ShapeMismatch
  end.

(** [a[p]] for an array [p] of positions on the first axis. *)
Definition take_rows (a : ndarray) (p : list Z) : result ndarray :=
  match a with
  | Arr1 v => let* v' := mapM (getitem v) p in Ok (Arr1 v')
  | Arr2 X => let* r := mapM (getitem (rows X)) p in Ok (Arr2 (Matrix (n_cols X) r))
  | Arr3 d1 d2 v => let* v' := mapM (getitem v) p in Ok (Arr3 d1 d2 v')
  | Arr4 d1 d2 d3 v => let* v' := mapM (getitem v) p in Ok (Arr4 d1 d2 d3 v')
  end.

(** [np.arange(n)], [np.tile(a, reps)] and [np.repeat(a, repeats)] *)
Definition np_arange (n : nat) : list Z := py_range 0 (Z.of_nat n).
Definition np_tile {A} (a : list A) (reps : nat) : list A := concat (replicate reps a).
Definition np_repeat {A} (a : list A) (repeats : nat) : list A := a ≫= replicate repeats.

Module MRepImageTransformer.
Section methods.
Context (E : externals).

(** [np.random.permutation(n)]: the permutation drawn. *)
Variable permutation : nat → list Z.

Record t : Type := mk {
  discretization : string;
  _its : list (ImageTransformer E);
  pixels : pixels_arg;
  _data : option matrix;       (* [None] until [fit] *)
}.

Definition with_its (self : t) (its : list (ImageTransformer E)) : t :=
  mk (discretization self) its (pixels self) (_data self).
Definition with_data (self : t) (X : matrix) : t :=
  mk (discretization self) (_its self) (pixels self) (Some X).

(** An entry of the argument [feature_extractor]: a feature extractor, or
    a pair of a feature extractor and a discretization option. *)
Inductive config : Type :=
  | Extractor (fe : fe_arg E)
  | WithDiscretization (fe : fe_arg E) (discretization : string).

Definition initialize_image_transformer (self : t) (config : config)
  : result (ImageTransformer E) :=
  match config with
  | WithDiscretization fe d => __init__ E fe d (pixels self)
  | Extractor fe => __init__ E fe (discretization self) (pixels self)
  end.

Definition __init__ (feature_extractor : list config) (discretization : string)
    (pixels : pixels_arg) : result t :=
  let self := mk discretization [] pixels None in
  foldM (λ self it_cfg,
      let* it := initialize_image_transformer self it_cfg in
      Ok (with_its self (_its self ++ [it])))
    feature_extractor self.

(** The loop of [fit]: the transformers are fitted in turn, in place; the
    first exception leaves the loop. *)
Fixpoint fit_each (its : list (ImageTransformer E)) (X : matrix)
  : result unit * list (ImageTransformer E) :=
  match its with
  | [] => (Ok (), [])
  | it :: rest =>
      let '(r, it) := fit E it X in
      match r with
      | Raise e => (Raise e, it :: rest)
      | Ok _ => let '(r, rest) := fit_each rest X in (r, it :: rest)
      end
  end.

(** [extend_fit]: every new transformer is created, fitted on the stored
    data and only then appended. Before [fit] the stored data is [None],
    and [X.T] in [ImageTransformer.fit] raises. *)
Fixpoint extend_fit (self : t) (feature_extractor : list config) : outcome unit * t :=
  match feature_extractor with
  | [] => (Returns (), self)
  | it_cfg :: rest =>
      match initialize_image_transformer self it_cfg with
      | Raise e => (Raises (Lib e), self)
      | Ok it =>
          match _data self with
          | None =>
              (Raises (AttributeError "'NoneType' object has no attribute 'T'"), self)
          | Some X =>
              let '(r, it) := fit E it X in
              match r with
              | Raise e => (Raises (Lib e), self)
              | Ok _ => extend_fit (with_its self (_its self ++ [it])) rest
              end
          end
      end
  end.

Definition fit (self : t) (X : matrix) : result unit * t :=
  let self := with_data self X in
  let '(r, its) := fit_each (_its self) X in
  (r, with_its self its).

(** [transform] returns the images, and with [return_index] also the
    sample index of every image. *)
Definition transform (self : t) (X : matrix) (img_format : string)
    (empty_value : Qc) (collate : string) (return_index : bool)
  : outcome (image * option (list Z)) :=
  let+ translist :=
    lift (mapM (λ it, transform E it X img_format empty_value) (_its self)) in
  let arrays := to_array <$> translist in
  let+ collated :=
    if decide (collate = "manifold") then
      (* keep in order of manifolds *)
      let+ img_matrices := np_concatenate arrays in
      Returns (img_matrices, np_tile (np_arange (n_rows X)) (length (_its self)))
    else if decide (collate = "sample") then
      (* reorder by sample *)
      let+ img_matrices := np_stack_reshape arrays in
      Returns (img_matrices, np_repeat (np_arange (n_rows X)) (length (_its self)))
    else if decide (collate = "random") then
      (* randomize order *)
      let+ img_matrices := np_concatenate arrays in
      let x_index := np_tile (np_arange (n_rows X)) (length (_its self)) in
      let p := permutation (length x_index) in
      let+ img_matrices := lift (take_rows img_matrices p) in
      let+ x_index := lift (mapM (getitem x_index) p) in
      Returns (img_matrices, x_index)
    else Raises (Lib (ValueError ("collate method '" +:+ collate +:+ "' not valid"))) in
  let img_matrices :=
    if decide (img_format = "pytorch") then Torch collated.1 else Numpy collated.1 in
  Returns (img_matrices, if return_index then Some collated.2 else None).

Definition fit_transform (self : t) (X : matrix) (img_format : string)
    (empty_value : Qc) (collate : string) (return_index : bool)
  : outcome (image * option (list Z)) * t :=
  let '(r, self) := fit self X in
  match r with
  | Raise e => (Raises (Lib e), self)
  | Ok _ => (transform self X img_format empty_value collate return_index, self)
  end.
End methods.
End MRepImageTransformer.

(** * Notions of the specification *)

(** The centroid of pixel [(i, j)]: [(i + 0.5, j + 0.5)]. *)
Definition centroid (i j : Z) : fpoint :=
  (Fin (Qc_of_Z i + Qc_of_Z 1 / Qc_of_Z 2)%Qc,
   Fin (Qc_of_Z j + Qc_of_Z 1 / Qc_of_Z 2)%Qc).

(** Enumeration and decoding agree on a grid: every pixel has its centroid
    at some linear index, and that index decodes to the pixel. *)
Definition centroid_decoding_consistent (uninit : nat → fpoint) (px_size : pixel)
  : Prop :=
  ∃ cs, calculate_pixel_centroids uninit px_size = Ok cs ∧
    ∀ i j, 0 ≤ i < px_size.1 → 0 ≤ j < px_size.2 →
      ∃ k : nat, cs !! k = Some (centroid i j)
                 ∧ decode_pixel px_size (Z.of_nat k) = (i, j).

(** A pixel coordinate lies within the grid. *)
Definition in_grid (px_size : pixel) (p : pixel) : Prop :=
  0 ≤ p.1 < px_size.1 ∧ 0 ≤ p.2 < px_size.2.

Global Instance in_grid_dec px_size p : Decision (in_grid px_size p).
Proof. unfold in_grid. apply _. Defined.

(** All the values on an axis coincide. *)
Definition zero_range (vals : list Qc) : Prop :=
  ∀ a b, a ∈ vals → b ∈ vals → a = b.

(** Every scaled coordinate is a number. *)
Definition well_defined (scaled : list fpoint) : Prop :=
  Forall (λ s : fpoint, is_finite s.1 = true ∧ is_finite s.2 = true) scaled.

(** The scaler returns well-defined coordinates for a point set. *)
Definition scales_to_well_defined (coords : list point) (dim_max : pixel) : Prop :=
  ∃ scaled, scale_coordinates coords dim_max = Ok scaled ∧ well_defined scaled.

(** The message [msg] names the value [v]. *)
Definition names (v msg : string) : Prop :=
  ∃ pre suf, msg = pre +:+ v +:+ suf.

(** The scores that carry the sample index [k], in their order. *)
Fixpoint scores_with (y_hat : list Qc) (index : list Z) (k : Z) : list Qc :=
  match y_hat, index with
  | y :: y_hat', i :: index' =>
      if decide (i = k) then y :: scores_with y_hat' index' k
      else scores_with y_hat' index' k
  | _, _ => []
  end.

(** The mean of a list of scores. *)
Definition mean_of (scores : list Qc) : Qc :=
  (Qc_sum scores / Qc_of_Z (Z.of_nat (length scores)))%Qc.

(** ** What is assumed of the assignment solvers *)

(** The number of columns of a cost matrix. *)
Definition n_cost_cols (cost : list (list float)) : nat :=
  match cost with
  | [] => 0%nat
  | r :: _ => length r
  end.

(** [sol] gives every row of [cost] a column of its own. *)
Definition valid_assignment (cost : list (list float)) (sol : list Z) : Prop :=
  length sol = length cost
  ∧ NoDup sol
  ∧ Forall (λ c, 0 ≤ c < Z.of_nat (n_cost_cols cost)) sol.

(** The behaviour of [scipy.optimize.linear_sum_assignment] the properties
    below rely on: on a matrix with no more rows than columns the column
    indices returned are a valid assignment; a matrix of finite entries is
    solved; a matrix containing NaN is rejected ("matrix contains invalid
    numeric entries"). Optimality plays no role. *)
Record solver_contract (solve : list (list float) → result (list Z)) : Prop := {
  solver_valid : ∀ cost sol,
    solve cost = Ok sol → (length cost ≤ n_cost_cols cost)%nat →
    valid_assignment cost sol;
  solver_total : ∀ cost,
    Forall (Forall (λ a, is_finite a = true)) cost →
    (length cost ≤ n_cost_cols cost)%nat →
    is_Ok (solve cost);
  solver_rejects_nan : ∀ cost,
    Exists (Exists (λ a, a = NaN)) cost → is_Raise (solve cost);
}.

(** ** A reference environment

    Executable stand-ins for the external collaborators, used to run the
    model on concrete inputs. *)

(** All the ways to give [n] rows distinct columns out of [cols]. *)
Fixpoint injections (n : nat) (cols : list Z) : list (list Z) :=
  match n with
  | O => [[]]
  | S n' =>
      cols ≫= λ c, (λ rest, c :: rest) <$> injections n' (filter (λ c', c' ≠ c) cols)
  end.

Definition invalid_entry (a : float) : bool :=
  match a with
  | NaN | Inf true => true
  | _ => false
  end.

Definition cost_at (cost : list (list float)) (i : nat) (c : Z) : float :=
  default NaN (cost !! i ≫= λ row, row !! Z.to_nat c).

Definition total_cost (cost : list (list float)) (sol : list Z) : float :=
  foldr fl_add (Fin 0%Qc) (imap (cost_at cost) sol).

Definition fl_leb (a b : float) : bool :=
  match a, b with
  | Fin x, Fin y => bool_decide (x ≤ y)%Qc
  | Fin _, Inf false => true
  | Inf false, Inf false => true
  | _, _ => false
  end.

(** An exact solver by exhaustive search: the first assignment of least
    total cost. Matrices with more rows than columns are not handled. *)
Definition exhaustive_lsa (cost : list (list float)) : result (list Z) :=
  if existsb (existsb invalid_entry) cost then
    Raise (ValueError "matrix contains invalid numeric entries")
  else
    match injections (length cost) (seqZ 0 (Z.of_nat (n_cost_cols cost))) with
    | [] => Raise (ValueError "cost matrix is infeasible")
    | s :: ss =>
        Ok (foldl (λ best s',
                     if fl_leb (total_cost cost best) (total_cost cost s')
                     then best else s') s ss)
    end.

(** A projector that returns a fixed set of points and counts how often its
    [fit_transform] is invoked. *)
Record mock_projector : Type := MockProjector {
  mock_points : list point;
  mock_calls : nat;
}.

Definition mock_fit_transform (p : mock_projector) (X : matrix)
  : result (list point) * mock_projector :=
  (Ok (mock_points p), MockProjector (mock_points p) (S (mock_calls p))).

(** A stand-in for the clustering: point [i] goes to cluster [i mod k], the
    first [k] points serve as centres. *)
Definition round_robin_clusters (positions : list fpoint) (k : Z)
  : result (list Z * list fpoint) :=
  if decide (k ≤ 0) then Raise (ValueError "n_clusters must be positive")
  else Ok ((λ i, i `mod` k) <$> py_range 0 (Z.of_nat (length positions)),
           take (Z.to_nat k) positions).

(** A stand-in for the alignment: the hull needs three points, and the
    points are taken to be aligned already. *)
Definition already_aligned (x_new : list point) : result (list point) :=
  if decide (length x_new < 3)%nat
  then Raise (ValueError "QhullError: not enough points to construct initial simplex")
  else Ok x_new.

(** The environment of the examples. The exhaustive solver also stands in
    for the heuristic one: an exact assignment is one of the assignments a
    heuristic may return. *)
Definition reference : externals := {|
  uninit := λ _, (Fin 0%Qc, Fin 0%Qc);
  cast_invalid := -9223372036854775808;
  bisecting_kmeans := round_robin_clusters;
  linear_sum_assignment := exhaustive_lsa;
  asymmetric_greedy_search := exhaustive_lsa;
  projector := mock_projector;
  fit_transform := mock_fit_transform;
  TSNE := MockProjector [] 0;
  PCA := MockProjector [] 0;
  KernelPCA := MockProjector [] 0;
  rotate_to_mbr := already_aligned;
|}.

(** Numbers for the examples. *)
Definition qz (n : Z) : Qc := Qc_of_Z n.

(** ** Example inputs *)

(** Three features, projected to three points that are not collinear. *)
Definition three_points : list point :=
  [(qz 0, qz 0); (qz 1, qz 3); (qz 2, qz 1)].

(** One sample with three feature values. *)
Definition one_sample : matrix := Matrix 3 [[qz 1; qz 2; qz 3]].

(** An unfitted transformer with exact assignment on a grid of one row and
    three columns, around a mock projector that returns [three_points]. *)
Definition lsa_1x3 : ImageTransformer reference :=
  mkImageTransformer reference (MockProjector three_points 0)
    m_coordinate_optimal_assignment (1, 3) [] [].

(** Two points that share their first coordinate. *)
Definition two_points_on_a_line : list point :=
  [(qz 1, qz 2); (qz 1, qz 5)].

(** A single point. *)
Definition single_point : list point := [(qz 3, qz 7)].

(** A transformer with binning on a 2 x 2 grid, before any fit, built by the
    constructor around a mock projector that returns [three_points]. *)
Definition unfitted_bin_2x2 : result (ImageTransformer reference) :=
  __init__ reference (FeObj reference (MockProjector three_points 0)) "bin" (PxInt 2).

(** The same transformer as a value, and after [fit]. *)
Definition bin_2x2 : ImageTransformer reference :=
  mkImageTransformer reference (MockProjector three_points 0)
    m_coordinate_binning (2, 2) [] [].

Definition fitted_bin_2x2 : ImageTransformer reference :=
  (fit reference bin_2x2 one_sample).2.

(** Two samples with three feature values each. *)
Definition two_samples : matrix :=
  Matrix 3 [[qz 1; qz 2; qz 3]; [qz 4; qz 5; qz 6]].

(** The same two samples with a fourth, surplus column. *)
Definition two_samples_wide : matrix :=
  Matrix 4 [[qz 1; qz 2; qz 3; qz 9]; [qz 4; qz 5; qz 6; qz 9]].

(** Two samples with two columns only. *)
Definition two_samples_narrow : matrix :=
  Matrix 2 [[qz 1; qz 2]; [qz 4; qz 5]].

(** ** Notions used to describe the scaler and the image matrix *)

(** One scaled coordinate: [(x - lo) / (hi - lo) * d]. *)
Definition scale1 (lo hi : Qc) (d : Z) (x : Qc) : float :=
  fl_mul (fl_div (x - lo) (hi - lo)) (Fin (Qc_of_Z d)).

(** The state Fit of the specification: the mapping is populated and, as the
    data model requires of a feature→pixel mapping, every pair is a pixel of
    the grid. *)
Definition fitted {E : externals} (t : ImageTransformer E) : Prop :=
  _coords E t ≠ [] ∧ Forall (in_grid (_pixels E t)) (_coords E t).

(** The cell of a grid that a pixel within the grid addresses. *)
Definition cell_of (c : pixel) : nat * nat := (Z.to_nat c.1, Z.to_nat c.2).

(** A grid of [px_size.1] rows of [px_size.2] cells. *)
Definition grid_shape (px_size : pixel) (g : grid) : Prop :=
  length g = Z.to_nat px_size.1
  ∧ Forall (λ row : list Qc, length row = Z.to_nat px_size.2) g.

(** The values of one sample in the columns [cols]. *)
Definition select (cols : list nat) (r : list Qc) : list Qc :=
  (λ f, default 0%Qc (r !! f)) <$> cols.

(** One iteration of the loop of [transform], seen from one sample: the
    cell of the pixel [ic.2] receives the mean of the sample's values over
    the features grouped under [ic.1]. *)
Definition paint (idx : list nat) (r : list Qc) (g : grid) (ic : nat * pixel) : grid :=
  alter (λ row : list Qc,
           <[(cell_of ic.2).2 := np_mean (select (np_where_eq idx ic.1) r)]> row)
        (cell_of ic.2).1 g.

(** [X] without the columns from [n] on. *)
Definition truncate (n : nat) (X : matrix) : matrix :=
  Matrix n (take n <$> rows X).

(** The image every sample starts from: all cells hold [empty_value]. *)
Definition initial_grid (px_size : pixel) (empty_value : Qc) : grid :=
  let zero := replicate (Z.to_nat px_size.1) (replicate (Z.to_nat px_size.2) 0%Qc) in
  if decide (empty_value ≠ 0%Qc)
  then (λ row : list Qc, (λ _, empty_value) <$> row) <$> zero
  else zero.

(** ** Notions used for the further properties *)

(** Moving the value [d] into the bin below. *)
Definition clamp_bin (d a : Z) : Z := if decide (a = d) then d - 1 else a.

(** A point is lowest or highest on an axis of a point set. *)
Definition lowest (vals : list Qc) (x : Qc) : Prop := ∀ y, y ∈ vals → (x ≤ y)%Qc.
Definition highest (vals : list Qc) (x : Qc) : Prop := ∀ y, y ∈ vals → (y ≤ x)%Qc.

(** The bins given to the values of one axis span the bins [0 .. d - 1]:
    every bin is among them, a lowest value is in the first and a highest
    value in the last. *)
Definition bins_span (vals : list Qc) (bins : list Z) (d : Z) : Prop :=
  ∀ (i : nat) (x : Qc) (b : Z), vals !! i = Some x → bins !! i = Some b →
    0 ≤ b ≤ d - 1 ∧ (lowest vals x → b = 0) ∧ (highest vals x → b = d - 1).

(** The features that a mapping sends to the pixel [c], ascending. *)
Definition features_at (cs : list pixel) (c : pixel) : list nat :=
  filter (λ f, cs !! f = Some c) (seq 0 (length cs)).

(** The value [transform] gives a pixel for one sample [r]: the mean over
    the features mapped to the pixel, or [empty_value] without any. *)
Definition pixel_value (cs : list pixel) (empty_value : Qc) (r : list Qc) (c : pixel)
  : Qc :=
  match features_at cs c with
  | [] => empty_value
  | fs => np_mean (select fs r)
  end.

(** The mean of a sample's values over the features that share the pixel
    [c]. *)
Definition group_mean (cs : list pixel) (r : list Qc) (c : pixel) : Qc :=
  np_mean (select (features_at cs c) r).

(** The number of occurrences of [x] in [l]. *)
Definition count_of {A} `{EqDecision A} (x : A) (l : list A) : nat :=
  length (filter (λ y, y = x) l).

(** The sum of all the cells of a grid. *)
Definition grid_total (g : grid) : Qc := Qc_sum (concat g).

(** What is assumed of an assignment solver where only its validity
    matters: on a cost matrix with no more rows than columns the columns
    returned are a valid assignment. *)
Definition valid_solver (solve : list (list float) → result (list Z)) : Prop :=
  ∀ cost sol, solve cost = Ok sol → (length cost ≤ n_cost_cols cost)%nat →
    valid_assignment cost sol.

(** What is assumed of the clustering: asked for [k] clusters, it returns at
    most [k] centres. *)
Definition bounded_clusterer
    (cluster : list fpoint → Z → result (list Z * list fpoint)) : Prop :=
  ∀ positions k labels centers,
    cluster positions k = Ok (labels, centers) → Z.of_nat (length centers) ≤ k.

(** Four features, for a grid of four pixels. *)
Definition four_points : list point :=
  [(qz 0, qz 0); (qz 1, qz 3); (qz 2, qz 1); (qz 3, qz 2)].

(** The images of the sample [s], one from every transformer's output. *)
Definition representations (translist : list image) (s : nat) : list ndarray :=
  omap (λ im, items (to_array im) !! s) translist.

(** What is assumed of [np.random.permutation]: called with [n], it returns
    the numbers below [n] in some order. *)
Definition draws_permutations (permutation : nat → list Z) : Prop :=
  ∀ n, permutation n ≡ₚ np_arange n.

(** A multi-representation transformer with binning on a 2 x 2 grid and two
    mock projectors, before and after [fit]. *)
Definition mrep_2x2 : result (MRepImageTransformer.t reference) :=
  MRepImageTransformer.__init__ reference
    [MRepImageTransformer.Extractor reference
       (FeObj reference (MockProjector three_points 0));
     MRepImageTransformer.WithDiscretization reference
       (FeObj reference (MockProjector three_points 0)) "lsa"]
    "bin" (PxInt 2).

Definition fitted_mrep_2x2 : MRepImageTransformer.t reference :=
  match mrep_2x2 with
  | Ok self => (MRepImageTransformer.fit reference self two_samples).2
  | Raise _ => MRepImageTransformer.mk reference "bin" [] (PxInt 2) None
  end.

(** A stand-in for [np.random.permutation]: the positions in descending
    order. *)
Definition reversed_order (n : nat) : list Z := reverse (np_arange n).

(** An entry of [feature_extractor] that brings a discretization of its
    own, from which a transformer can be built on the grid [px]. *)
Definition brings_discretization {E : externals} (px : pixels_arg)
    (cfg : MRepImageTransformer.config E) : Prop :=
  match cfg with
  | MRepImageTransformer.WithDiscretization _ fe key => is_Ok (__init__ E fe key px)
  | MRepImageTransformer.Extractor _ _ => False
  end.

(** A transformer as the constructor leaves it: on the grid [px], without
    cached positions and without a mapping. *)
Definition unfitted_on {E : externals} (px : pixels_arg) (it : ImageTransformer E)
  : Prop :=
  _pixels E it = _parse_pixels px ∧ _xrot E it = [] ∧ _coords E it = [].

(** [it'] is what fitting a transformer built from the entry [cfg] on the
    stored data of [self] leaves. *)
Definition fitted_from {E : externals} (self : MRepImageTransformer.t E)
    (cfg : MRepImageTransformer.config E) (it' : ImageTransformer E) : Prop :=
  ∃ it X, MRepImageTransformer.initialize_image_transformer E self cfg = Ok it
          ∧ MRepImageTransformer._data E self = Some X
          ∧ fit E it X = (Ok (), it').

(** The fitted example, extended by a transformer with the heuristic
    assignment. *)
Definition extended_mrep_2x2 : outcome unit * MRepImageTransformer.t reference :=
  MRepImageTransformer.extend_fit reference fitted_mrep_2x2
    [MRepImageTransformer.WithDiscretization reference
       (FeObj reference (MockProjector three_points 0)) "ags"].

(** How far the loop of [MRepImageTransformer.fit] got: the first [k]
    transformers of [its] were fitted on [X] and are now those of [its'];
    with the result [Ok] these are all; with an exception [e] it was raised
    by the fit of the transformer at position [k], and the transformers
    behind it are as they were. *)
Definition fitted_up_to {E : externals} (X : matrix) (r : result unit)
    (its its' : list (ImageTransformer E)) (k : nat) : Prop :=
  Forall2 (λ it it', fit E it X = (Ok (), it')) (take k its) (take k its')
  ∧ match r with
    | Ok _ => k = length its
    | Raise e =>
        ∃ it it', its !! k = Some it ∧ its' !! k = Some it'
                  ∧ fit E it X = (Raise e, it')
                  ∧ drop (S k) its' = drop (S k) its
    end.

(** An unfitted transformer with exact assignment on a 2 x 2 grid, around a
    mock projector that returns [three_points]. *)
Definition lsa_2x2 : ImageTransformer reference :=
  mkImageTransformer reference (MockProjector three_points 0)
    m_coordinate_optimal_assignment (2, 2) [] [].

(** ** Notions used to describe messages *)

(** A character that [repr] leaves as it is between single quotes: a
    printable ASCII character other than the single quote and the
    backslash. *)
Definition plain_char (c : ascii) : Prop :=
  (32 ≤ nat_of_ascii c < 127)%nat
  ∧ nat_of_ascii c ≠ 39%nat ∧ nat_of_ascii c ≠ 92%nat.

Fixpoint plain (s : string) : Prop :=
  match s with
  | EmptyString => True
  | String c s' => plain_char c ∧ plain s'
  end.

(** [v] occurs in [s], as a computation. *)
Fixpoint is_prefix (v s : string) : bool :=
  match v, s with
  | EmptyString, _ => true
  | String a v', String b s' => bool_decide (a = b) && is_prefix v' s'
  | String _ _, EmptyString => false
  end.

Fixpoint occurs (v s : string) : bool :=
  is_prefix v s
  || match s with
     | EmptyString => false
     | String _ s' => occurs v s'
     end.

(** * Properties *)

(** ** The result monad and loops *)

Lemma bind_Ok_inv {A B} (m : result A) (f : A → result B) (b : B) :
  bind m f = Ok b → ∃ a, m = Ok a ∧ f a = Ok b.
Proof. destruct m as [a|e]; simpl; [eauto | discriminate]. Qed.

Lemma result_cases {A} (r : result A) : is_Ok r ∨ is_Raise r.
Proof. destruct r; [left | right]; eexists; reflexivity. Qed.

Lemma is_Ok_not_Raise {A} (r : result A) : is_Ok r → is_Raise r → False.
Proof. intros [a ->] [e ?]; discriminate. Qed.

Lemma foldM_app {A S} (f : S → A → result S) (l1 l2 : list A) (s : S) :
  foldM f (l1 ++ l2) s = bind (foldM f l1 s) (foldM f l2).
Proof.
  revert s; induction l1 as [|a l1 IH]; intros s; simpl; [done|].
  destruct (f s a); simpl; [apply IH | done].
Qed.

(** A loop that returns normally ran each of its steps normally. *)
Lemma foldM_Ok_Forall {A S} (f : S → A → result S) (P : A → Prop) (I : S → Prop) :
  (∀ s a s', I s → f s a = Ok s' → P a ∧ I s') →
  ∀ l s s', I s → foldM f l s = Ok s' → Forall P l ∧ I s'.
Proof.
  intros Hstep l; induction l as [|a l IH]; intros s s' Hs Hrun; simpl in Hrun.
  - injection Hrun as <-. by split.
  - apply bind_Ok_inv in Hrun as (s1 & Hf & Hrun).
    destruct (Hstep _ _ _ Hs Hf) as [Ha Hs1].
    destruct (IH _ _ Hs1 Hrun) as [Hl Hs'].
    split; [by constructor | done].
Qed.

Lemma mapM_Ok_length {A B} (f : A → result B) (l : list A) (bs : list B) :
  mapM f l = Ok bs → length bs = length l.
Proof.
  revert bs; induction l as [|a l IH]; intros bs H; simpl in H.
  - by injection H as <-.
  - apply bind_Ok_inv in H as (b & _ & H).
    apply bind_Ok_inv in H as (bs' & Hbs & H).
    injection H as <-. simpl. by rewrite (IH _ Hbs).
Qed.

Lemma mapM_Ok_lookup {A B} (f : A → result B) (l : list A) (bs : list B) i a :
  mapM f l = Ok bs → l !! i = Some a → ∃ b, bs !! i = Some b ∧ f a = Ok b.
Proof.
  revert bs i; induction l as [|x l IH]; intros bs i H Hi; [done|].
  simpl in H. apply bind_Ok_inv in H as (b & Hb & H).
  apply bind_Ok_inv in H as (bs' & Hbs & H). injection H as <-.
  destruct i as [|i]; simpl in *.
  - injection Hi as ->. eauto.
  - eauto.
Qed.

Lemma mapM_total {A B} (f : A → result B) (g : A → B) (l : list A) :
  Forall (λ a, f a = Ok (g a)) l → mapM f l = Ok (g <$> l).
Proof.
  induction 1 as [|a l Ha _ IH]; simpl; [done|]. by rewrite Ha, IH.
Qed.

(** ** Indexing *)

Lemma np_index_in_range size axis k :
  0 ≤ k < Z.of_nat size → np_index size axis k = Ok (Z.to_nat k).
Proof. intros H. unfold np_index. by rewrite decide_True. Qed.

Lemma np_index_Ok_inv size axis k i :
  np_index size axis k = Ok i → - Z.of_nat size ≤ k < Z.of_nat size ∧ (i < size)%nat.
Proof.
  unfold np_index. repeat case_decide; intros Heq; try discriminate;
    injection Heq as <-; lia.
Qed.

Lemma setitem_in_range {A} (a : list A) k v :
  0 ≤ k < Z.of_nat (length a) → setitem a k v = Ok (<[Z.to_nat k := v]> a).
Proof. intros H. unfold setitem. by rewrite np_index_in_range. Qed.

Lemma setitem_Ok_inv {A} (a a' : list A) k v :
  setitem a k v = Ok a' → k < Z.of_nat (length a) ∧ length a' = length a.
Proof.
  unfold setitem. intros H. apply bind_Ok_inv in H as (i & Hi & H).
  injection H as <-. apply np_index_Ok_inv in Hi. rewrite length_insert. lia.
Qed.

Lemma getitem_in_range {A} (a : list A) k v :
  0 ≤ k → a !! Z.to_nat k = Some v → getitem a k = Ok v.
Proof.
  intros Hk Hv. unfold getitem.
  rewrite np_index_in_range by (apply lookup_lt_Some in Hv; lia).
  simpl. by rewrite Hv.
Qed.

(** ** Pixel centroids (claim C1) *)

Section centroid_loops.
Context {A : Type}.

(** One pass of the inner loop: the cells [a + s .. a + s + len - 1] are
    written, the others are left alone. *)
Lemma foldM_setitem_row (v : Z → A) (a : Z) (len : nat) :
  ∀ (s : Z) (m : list A),
    0 ≤ a + s → a + s + Z.of_nat len ≤ Z.of_nat (length m) →
    ∃ m', foldM (λ m j, setitem m (a + j) (v j)) (seqZ s (Z.of_nat len)) m = Ok m'
      ∧ length m' = length m
      ∧ (∀ j, s ≤ j < s + Z.of_nat len → m' !! Z.to_nat (a + j) = Some (v j))
      ∧ (∀ k : nat, Z.of_nat k < a + s ∨ a + s + Z.of_nat len ≤ Z.of_nat k →
                    m' !! k = m !! k).
Proof.
  induction len as [|len IH]; intros s m Hlo Hhi.
  - exists m. rewrite seqZ_nil by lia. split_and!; [done|done|lia|done].
  - rewrite seqZ_cons by lia. simpl.
    rewrite setitem_in_range by lia. simpl.
    replace (Z.pred (Z.of_nat (S len))) with (Z.of_nat len) by lia.
    destruct (IH (Z.succ s) (<[Z.to_nat (a + s) := v s]> m)) as (m' & Hrun & Hlen & Hin & Hout).
    { lia. } { rewrite length_insert. lia. }
    exists m'. rewrite length_insert in Hlen. split_and!; [done|done| |].
    + intros j Hj. destruct (decide (j = s)) as [->|Hne].
      * rewrite Hout by lia. apply list_lookup_insert_eq. lia.
      * apply Hin. lia.
    + intros k Hk. rewrite Hout by lia. apply list_lookup_insert_ne. lia.
Qed.

(** The two nested loops on a grid whose rows are [n] cells apart and [n]
    cells wide. *)
Lemma foldM_setitem_square (v : Z → Z → A) (n : Z) (cnt : nat) :
  0 ≤ n →
  ∀ (i0 : Z) (m : list A),
    0 ≤ i0 → (i0 + Z.of_nat cnt) * n ≤ Z.of_nat (length m) →
    ∃ m', foldM (λ m i, foldM (λ m j, setitem m (i * n + j) (v i j))
                          (py_range 0 n) m)
            (seqZ i0 (Z.of_nat cnt)) m = Ok m'
      ∧ length m' = length m
      ∧ (∀ i j, i0 ≤ i < i0 + Z.of_nat cnt → 0 ≤ j < n →
                m' !! Z.to_nat (i * n + j) = Some (v i j))
      ∧ (∀ k : nat, Z.of_nat k < i0 * n ∨ (i0 + Z.of_nat cnt) * n ≤ Z.of_nat k →
                    m' !! k = m !! k).
Proof.
  intros Hn. induction cnt as [|cnt IH]; intros i0 m Hi0 Hhi.
  - exists m. rewrite seqZ_nil by lia. split_and!; [done|done|lia|done].
  - rewrite seqZ_cons by lia. simpl.
    replace (Z.pred (Z.of_nat (S cnt))) with (Z.of_nat cnt) by lia.
    unfold py_range at 1. replace (n - 0) with (Z.of_nat (Z.to_nat n)) by lia.
    destruct (foldM_setitem_row (v i0) (i0 * n) (Z.to_nat n) 0 m)
      as (m1 & Hrow & Hlen1 & Hin1 & Hout1); [nia|nia|].
    rewrite Hrow. simpl.
    destruct (IH (Z.succ i0) m1) as (m' & Hrun & Hlen & Hin & Hout);
      [lia | rewrite Hlen1; nia |].
    exists m'. split_and!; [done | congruence | |].
    + intros i j Hi Hj. destruct (decide (i = i0)) as [->|Hne].
      * rewrite Hout by nia. apply Hin1. lia.
      * apply Hin; lia.
    + intros k Hk. rewrite Hout by nia. apply Hout1. nia.
Qed.
End centroid_loops.

Lemma decode_pixel_square n i j :
  0 ≤ j < n → decode_pixel (n, n) (i * n + j) = (i, j).
Proof.
  intros Hj. unfold decode_pixel, np_mod, np_floordiv. simpl.
  rewrite !decide_False by lia. f_equal.
  - rewrite Z.div_add_l by lia. rewrite Z.div_small by lia. lia.
  - rewrite Z.add_comm, Z.mod_add by lia. apply Z.mod_small. lia.
Qed.

(** Decoding is one-to-one on every grid with at least one row. *)
Lemma decode_pixel_inj px_size k k' :
  px_size.1 ≠ 0 → decode_pixel px_size k = decode_pixel px_size k' → k = k'.
Proof.
  intros Hh. unfold decode_pixel, np_mod, np_floordiv.
  rewrite !decide_False by done. intros [= Hd Hm].
  rewrite (Z.div_mod k px_size.1), (Z.div_mod k' px_size.1) by done.
  by rewrite Hd, Hm.
Qed.

Lemma calculate_pixel_centroids_square uninit n :
  0 ≤ n →
  ∃ cs, calculate_pixel_centroids uninit (n, n) = Ok cs
    ∧ length cs = Z.to_nat (n * n)
    ∧ ∀ i j, 0 ≤ i < n → 0 ≤ j < n →
        cs !! Z.to_nat (i * n + j) = Some (centroid i j).
Proof.
  intros Hn. unfold calculate_pixel_centroids, np_empty2. simpl.
  rewrite decide_False by nia. simpl.
  unfold py_range at 2. replace (n - 0) with (Z.of_nat (Z.to_nat n)) by lia.
  destruct (foldM_setitem_square
              (λ i j, (Fin (Qc_of_Z i), Fin (Qc_of_Z j))) n (Z.to_nat n) Hn 0
              (uninit <$> seq 0 (Z.to_nat (n * n))))
    as (m' & Hrun & Hlen & Hin & _).
  { lia. } { rewrite length_fmap, length_seq. nia. }
  rewrite Hrun. simpl. eexists. split; [reflexivity|].
  split.
  - rewrite length_fmap, Hlen, length_fmap, length_seq. done.
  - intros i j Hi Hj. rewrite list_lookup_fmap, Hin by lia. done.
Qed.

(** On a square grid enumeration and decoding agree. *)
Lemma centroid_decoding_consistent_square uninit n :
  0 ≤ n → centroid_decoding_consistent uninit (n, n).
Proof.
  intros Hn. destruct (calculate_pixel_centroids_square uninit n Hn)
    as (cs & Hcs & _ & Hat).
  exists cs. split; [done|]. simpl. intros i j Hi Hj.
  exists (Z.to_nat (i * n + j)). split; [by apply Hat|].
  rewrite Z2Nat.id by nia. by apply decode_pixel_square.
Qed.

(** The decoded column is a residue modulo the height of the grid. *)
Lemma decode_pixel_col_bound px_size k :
  0 < px_size.1 → 0 ≤ (decode_pixel px_size k).2 < px_size.1.
Proof.
  intros Hh. unfold decode_pixel, np_mod. cbn [snd].
  rewrite decide_False by lia. apply Z.mod_pos_bound. lia.
Qed.

(** On a grid that is wider than high no index decodes to the pixels of
    the columns [H], [H + 1], ... *)
Lemma centroid_decoding_inconsistent_wide uninit H W :
  1 ≤ H < W → ¬ centroid_decoding_consistent uninit (H, W).
Proof.
  intros HW (cs & _ & Hall). destruct (Hall 0 H) as (k & _ & Hdec); simpl; [lia..|].
  pose proof (decode_pixel_col_bound (H, W) (Z.of_nat k)) as Hb.
  rewrite Hdec in Hb. simpl in Hb. lia.
Qed.

(** On a grid that is higher than wide the enumeration leaves the array. *)
Lemma calculate_pixel_centroids_tall uninit H W :
  1 ≤ W < H → is_Raise (calculate_pixel_centroids uninit (H, W)).
Proof.
  intros HW. destruct (result_cases (calculate_pixel_centroids uninit (H, W)))
    as [[cs Hcs]|]; [exfalso|done].
  unfold calculate_pixel_centroids, np_empty2 in Hcs. simpl in Hcs.
  rewrite decide_False in Hcs by nia. simpl in Hcs.
  apply bind_Ok_inv in Hcs as (m' & Hrun & _).
  set (L := Z.to_nat (H * W)) in *.
  apply (foldM_Ok_Forall _
           (λ i, 0 ≤ i → Forall (λ j, i * H + j < Z.of_nat L) (py_range 0 W))
           (λ m : list fpoint, length m = L)) in Hrun as [Hrows _].
  - rewrite Forall_forall in Hrows. specialize (Hrows (H - 1)).
    unfold py_range in Hrows.
    assert (H - 1 ∈ seqZ 0 (H - 0)) as Hin.
    { apply list_elem_of_lookup. exists (Z.to_nat (H - 1)).
      apply lookup_seqZ. lia. }
    specialize (Hrows Hin ltac:(lia)). rewrite Forall_forall in Hrows.
    assert (W - 1 ∈ seqZ 0 (W - 0)) as Hin'.
    { apply list_elem_of_lookup. exists (Z.to_nat (W - 1)).
      apply lookup_seqZ. lia. }
    specialize (Hrows _ Hin'). subst L. nia.
  - intros m i m1 Hm Hinner.
    apply (foldM_Ok_Forall _ (λ j, i * H + j < Z.of_nat L)
             (λ m : list fpoint, length m = L)) in Hinner as [Hcols Hm1].
    + done.
    + intros s j s' Hs Hset. apply setitem_Ok_inv in Hset as [Hlt Hlen].
      split; [lia | congruence].
    + done.
  - by rewrite length_fmap, length_seq.
Qed.

(** Among the grids with at least one pixel, exactly the square ones are
    enumerated and decoded consistently. *)
Lemma centroid_decoding_consistent_iff_square uninit H W :
  1 ≤ H → 1 ≤ W → centroid_decoding_consistent uninit (H, W) ↔ H = W.
Proof.
  intros HH HW. split.
  - intros Hc. destruct (Z.lt_trichotomy H W) as [Hlt|[Heq|Hgt]]; [|done|].
    + by destruct (centroid_decoding_inconsistent_wide uninit H W).
    + destruct Hc as (cs & Hcs & _).
      destruct (calculate_pixel_centroids_tall uninit H W) as [e He]; [lia|].
      congruence.
  - intros ->. apply centroid_decoding_consistent_square. lia.
Qed.


(** ** The coordinate scaler (claim C3) *)

Local Open Scope Qc_scope.

Lemma Qc_min_le_l x y : Qc_min x y ≤ x.
Proof.
  unfold Qc_min. case_decide as H; [apply Qcle_refl|].
  apply Qclt_le_weak, Qcnot_le_lt, H.
Qed.

Lemma Qc_min_le_r x y : Qc_min x y ≤ y.
Proof. unfold Qc_min. case_decide; [done | apply Qcle_refl]. Qed.

Lemma Qc_max_ge_l x y : x ≤ Qc_max x y.
Proof. unfold Qc_max. case_decide; [done | apply Qcle_refl]. Qed.

Lemma Qc_max_ge_r x y : y ≤ Qc_max x y.
Proof.
  unfold Qc_max. case_decide as H; [apply Qcle_refl|].
  apply Qclt_le_weak, Qcnot_le_lt, H.
Qed.

Lemma foldl_Qc_min_spec (l : list Qc) (x : Qc) :
  foldl Qc_min x l ∈ x :: l ∧ ∀ y, y ∈ x :: l → foldl Qc_min x l ≤ y.
Proof.
  revert x; induction l as [|z l IH]; intros x; simpl.
  - split; [set_solver|]. intros y Hy. apply list_elem_of_singleton in Hy as ->.
    apply Qcle_refl.
  - destruct (IH (Qc_min x z)) as [Hin Hle]. split.
    + apply elem_of_cons in Hin as [Hin|Hin]; [|set_solver].
      rewrite Hin. unfold Qc_min. case_decide; set_solver.
    + intros y Hy.
      assert (foldl Qc_min (Qc_min x z) l ≤ Qc_min x z) as H0 by (apply Hle; set_solver).
      apply elem_of_cons in Hy as [->|Hy].
      { eapply Qcle_trans; [exact H0 | apply Qc_min_le_l]. }
      apply elem_of_cons in Hy as [->|Hy].
      { eapply Qcle_trans; [exact H0 | apply Qc_min_le_r]. }
      apply Hle. set_solver.
Qed.

Lemma foldl_Qc_max_spec (l : list Qc) (x : Qc) :
  foldl Qc_max x l ∈ x :: l ∧ ∀ y, y ∈ x :: l → y ≤ foldl Qc_max x l.
Proof.
  revert x; induction l as [|z l IH]; intros x; simpl.
  - split; [set_solver|]. intros y Hy. apply list_elem_of_singleton in Hy as ->.
    apply Qcle_refl.
  - destruct (IH (Qc_max x z)) as [Hin Hle]. split.
    + apply elem_of_cons in Hin as [Hin|Hin]; [|set_solver].
      rewrite Hin. unfold Qc_max. case_decide; set_solver.
    + intros y Hy.
      assert (Qc_max x z ≤ foldl Qc_max (Qc_max x z) l) as H0 by (apply Hle; set_solver).
      apply elem_of_cons in Hy as [->|Hy].
      { eapply Qcle_trans; [apply Qc_max_ge_l | exact H0]. }
      apply elem_of_cons in Hy as [->|Hy].
      { eapply Qcle_trans; [apply Qc_max_ge_r | exact H0]. }
      apply Hle. set_solver.
Qed.

(** The reductions work axis by axis. *)
Lemma np_min_axis0_axes p ps :
  np_min_axis0 (p :: ps) = Ok (foldl Qc_min p.1 ps.*1, foldl Qc_min p.2 ps.*2).
Proof.
  unfold np_min_axis0. f_equal. revert p.
  induction ps as [|q ps IH]; intros p; simpl; [by destruct p|].
  by rewrite IH.
Qed.

Lemma np_max_axis0_axes p ps :
  np_max_axis0 (p :: ps) = Ok (foldl Qc_max p.1 ps.*1, foldl Qc_max p.2 ps.*2).
Proof.
  unfold np_max_axis0. f_equal. revert p.
  induction ps as [|q ps IH]; intros p; simpl; [by destruct p|].
  by rewrite IH.
Qed.

Lemma scale_coordinates_axes p ps dim_max :
  let lo1 := foldl Qc_min p.1 ps.*1 in let hi1 := foldl Qc_max p.1 ps.*1 in
  let lo2 := foldl Qc_min p.2 ps.*2 in let hi2 := foldl Qc_max p.2 ps.*2 in
  scale_coordinates (p :: ps) dim_max
  = Ok ((λ q : point, (scale1 lo1 hi1 dim_max.1 q.1, scale1 lo2 hi2 dim_max.2 q.2))
        <$> p :: ps).
Proof.
  intros. unfold scale_coordinates.
  rewrite np_min_axis0_axes, np_max_axis0_axes. simpl bind. cbv zeta.
  f_equal. rewrite <- list_fmap_compose. done.
Qed.

Lemma Qcminus_diag_eq (x y : Qc) : x - y = 0 ↔ x = y.
Proof.
  split; [|intros ->; apply Qcplus_opp_r].
  intros H. apply (Qcplus_inj_l (- y)). unfold Qcminus in H.
  rewrite H. symmetry. apply Qcplus_opp_r.
Qed.

(** On an axis with zero range every scaled coordinate is [0/0 * d]. *)
Lemma scale1_zero_range lo d x : scale1 lo lo d x = NaN ∨ x ≠ lo.
Proof.
  destruct (decide (x = lo)) as [->|]; [left|by right].
  unfold scale1, fl_div. assert (lo - lo = 0) as -> by by apply Qcminus_diag_eq.
  by rewrite !decide_True.
Qed.

Lemma Qc_of_Z_nonneg (d : Z) : (0 ≤ d)%Z → 0 ≤ Qc_of_Z d.
Proof.
  intros H. unfold Qcle. change (inject_Z 0 <= inject_Z d)%Q.
  by rewrite <- Zle_Qle.
Qed.

(** On an axis with a range every scaled coordinate lies in [0, d]. *)
Lemma scale1_in_range lo hi d x :
  lo < hi → lo ≤ x → x ≤ hi → (0 ≤ d)%Z →
  ∃ v, scale1 lo hi d x = Fin v ∧ 0 ≤ v ≤ Qc_of_Z d.
Proof.
  intros Hr Hlo Hhi Hd. unfold scale1, fl_div.
  assert (0 < hi - lo) as Hpos.
  { apply Qclt_minus_iff in Hr. exact Hr. }
  assert (hi - lo ≠ 0) as Hne.
  { intros Heq. rewrite Heq in Hpos. by apply (Qclt_not_eq 0 0). }
  rewrite decide_False by done. simpl.
  set (t := (x - lo) / (hi - lo)).
  assert (t * (hi - lo) = x - lo) as Ht.
  { unfold t. rewrite Qcmult_comm. by apply Qcmult_div_r. }
  assert (0 ≤ t) as Ht0.
  { apply (Qcmult_lt_0_le_reg_r _ _ (hi - lo)); [done|].
    rewrite Ht, Qcmult_0_l. apply Qcle_minus_iff in Hlo. exact Hlo. }
  assert (t ≤ 1) as Ht1.
  { apply (Qcmult_lt_0_le_reg_r _ _ (hi - lo)); [done|].
    rewrite Ht, Qcmult_1_l. unfold Qcminus. by apply Qcplus_le_mono_r. }
  eexists. split; [reflexivity|]. split.
  - rewrite <- (Qcmult_0_l (Qc_of_Z d)).
    apply Qcmult_le_compat_r; [done | by apply Qc_of_Z_nonneg].
  - rewrite <- (Qcmult_1_l (Qc_of_Z d)) at 2.
    apply Qcmult_le_compat_r; [done | by apply Qc_of_Z_nonneg].
Qed.

Lemma zero_range_min_max x l :
  zero_range (x :: l) → foldl Qc_min x l = foldl Qc_max x l.
Proof.
  intros Hz. apply Hz; [apply foldl_Qc_min_spec | apply foldl_Qc_max_spec].
Qed.

Lemma range_min_lt_max x l :
  ¬ zero_range (x :: l) → foldl Qc_min x l < foldl Qc_max x l.
Proof.
  intros Hz. apply Qcnot_le_lt. intros Hle. apply Hz. intros a b Ha Hb.
  destruct (foldl_Qc_min_spec l x) as [_ Hmin].
  destruct (foldl_Qc_max_spec l x) as [_ Hmax].
  apply Qcle_antisym.
  - eapply Qcle_trans; [apply Hmax, Ha|]. eapply Qcle_trans; [exact Hle|]. by apply Hmin.
  - eapply Qcle_trans; [apply Hmax, Hb|]. eapply Qcle_trans; [exact Hle|]. by apply Hmin.
Qed.

Lemma scaled_axis_zero_range (f : point → Qc) p ps d q :
  zero_range (f <$> p :: ps) → q ∈ p :: ps →
  scale1 (foldl Qc_min (f p) (f <$> ps)) (foldl Qc_max (f p) (f <$> ps)) d (f q) = NaN.
Proof.
  intros Hz Hq. rewrite <- (zero_range_min_max (f p) (f <$> ps) Hz).
  destruct (scale1_zero_range (foldl Qc_min (f p) (f <$> ps)) d (f q)) as [|Hne]; [done|].
  destruct Hne. apply Hz.
  - by apply list_elem_of_fmap_2.
  - exact (proj1 (foldl_Qc_min_spec (f <$> ps) (f p))).
Qed.

Lemma scaled_axis_in_range (f : point → Qc) p ps d q :
  ¬ zero_range (f <$> p :: ps) → (0 ≤ d)%Z → q ∈ p :: ps →
  ∃ v, scale1 (foldl Qc_min (f p) (f <$> ps)) (foldl Qc_max (f p) (f <$> ps)) d (f q) = Fin v
       ∧ 0 ≤ v ≤ Qc_of_Z d.
Proof.
  intros Hz Hd Hq.
  assert (f q ∈ f p :: (f <$> ps)) as Hfq.
  { change (f q ∈ f <$> p :: ps). by apply list_elem_of_fmap_2. }
  apply scale1_in_range; [| | |done].
  - by apply range_min_lt_max.
  - by apply (proj2 (foldl_Qc_min_spec (f <$> ps) (f p))).
  - by apply (proj2 (foldl_Qc_max_spec (f <$> ps) (f p))).
Qed.

(** What the scaler returns on a non-empty point set, axis by axis. *)
Lemma scale_coordinates_spec coords dim_max :
  coords ≠ [] →
  ∃ scaled, scale_coordinates coords dim_max = Ok scaled
    ∧ length scaled = length coords
    ∧ (zero_range coords.*1 → Forall (λ s : fpoint, s.1 = NaN) scaled)
    ∧ (zero_range coords.*2 → Forall (λ s : fpoint, s.2 = NaN) scaled)
    ∧ (¬ zero_range coords.*1 → (0 ≤ dim_max.1)%Z →
         Forall (λ s : fpoint, ∃ v, s.1 = Fin v ∧ 0 ≤ v ≤ Qc_of_Z dim_max.1) scaled)
    ∧ (¬ zero_range coords.*2 → (0 ≤ dim_max.2)%Z →
         Forall (λ s : fpoint, ∃ v, s.2 = Fin v ∧ 0 ≤ v ≤ Qc_of_Z dim_max.2) scaled).
Proof.
  destruct coords as [|p ps]; [done|]. intros _.
  eexists. split; [apply scale_coordinates_axes|].
  split; [by rewrite length_fmap|].
  split_and!.
  - intros Hz. apply Forall_fmap, Forall_forall. intros q Hq.
    by apply (scaled_axis_zero_range fst).
  - intros Hz. apply Forall_fmap, Forall_forall. intros q Hq.
    by apply (scaled_axis_zero_range snd).
  - intros Hz Hd. apply Forall_fmap, Forall_forall. intros q Hq.
    by apply (scaled_axis_in_range fst).
  - intros Hz Hd. apply Forall_fmap, Forall_forall. intros q Hq.
    by apply (scaled_axis_in_range snd).
Qed.

Local Close Scope Qc_scope.

(** ** The reference solver meets the contract *)

Lemma injections_spec n : ∀ cols s,
  s ∈ injections n cols → length s = n ∧ NoDup s ∧ Forall (λ c, c ∈ cols) s.
Proof.
  induction n as [|n IH]; intros cols s Hs; simpl in Hs.
  - apply list_elem_of_singleton in Hs as ->. split_and!; [done|constructor|constructor].
  - apply list_elem_of_bind in Hs as (c & Hs & Hc).
    apply list_elem_of_fmap in Hs as (rest & -> & Hrest).
    destruct (IH _ _ Hrest) as (Hlen & Hnd & Hsub).
    split_and!.
    + simpl. by rewrite Hlen.
    + constructor; [|done]. intros Hin.
      rewrite Forall_forall in Hsub. specialize (Hsub _ Hin).
      apply list_elem_of_filter in Hsub as [Hne _]. done.
    + constructor; [done|]. eapply Forall_impl; [exact Hsub|].
      intros c' Hc'. by apply list_elem_of_filter in Hc' as [_ ?].
Qed.

Lemma filter_ne_notin (c : Z) (l : list Z) :
  c ∉ l → filter (λ c', c' ≠ c) l = l.
Proof.
  induction l as [|x l IH]; intros Hc; [done|].
  rewrite filter_cons_True by (intros ->; apply Hc; left).
  f_equal. apply IH. intros ?. apply Hc. by right.
Qed.

Lemma injections_nonempty n : ∀ cols,
  NoDup cols → (n ≤ length cols)%nat → injections n cols ≠ [].
Proof.
  induction n as [|n IH]; intros cols Hnd Hlen; simpl; [done|].
  destruct cols as [|c cols]; simpl in Hlen; [lia|].
  apply NoDup_cons in Hnd as [Hc Hnd].
  rewrite bind_cons. rewrite filter_cons_False by (intros H; by apply H).
  rewrite filter_ne_notin by done.
  specialize (IH cols Hnd ltac:(lia)).
  destruct (injections n cols) as [|s ss]; [done|]. simpl. done.
Qed.

Lemma foldl_choose_in {A} (keep : A → A → bool) (ss : list A) : ∀ s,
  foldl (λ best s', if keep best s' then best else s') s ss ∈ s :: ss.
Proof.
  induction ss as [|x ss IH]; intros s; simpl; [left|].
  destruct (keep s x).
  - specialize (IH s). apply elem_of_cons in IH as [->|IH]; [left | right; by right].
  - right. apply IH.
Qed.

Lemma existsb_invalid_nan cost :
  Exists (Exists (λ a, a = NaN)) cost → existsb (existsb invalid_entry) cost = true.
Proof.
  intros H. apply existsb_exists. apply Exists_exists in H as (row & Hrow & H).
  exists row. split; [by apply list_elem_of_In|].
  apply existsb_exists. apply Exists_exists in H as (a & Ha & ->).
  exists NaN. split; [by apply list_elem_of_In | done].
Qed.

Lemma existsb_invalid_finite cost :
  Forall (Forall (λ a, is_finite a = true)) cost →
  existsb (existsb invalid_entry) cost = false.
Proof.
  intros H. apply not_true_is_false. intros Hex.
  apply existsb_exists in Hex as (row & Hrow & Hex).
  apply existsb_exists in Hex as (a & Ha & Hinv).
  rewrite Forall_forall in H. specialize (H row ltac:(by apply list_elem_of_In)).
  rewrite Forall_forall in H. specialize (H a ltac:(by apply list_elem_of_In)).
  by destruct a as [|[]|].
Qed.

Lemma exhaustive_lsa_contract : solver_contract exhaustive_lsa.
Proof.
  split.
  - intros cost sol Hsol Hshape. unfold exhaustive_lsa in Hsol.
    destruct (existsb _ cost); [discriminate|].
    destruct (injections _ _) as [|s ss] eqn:Hinj; [discriminate|].
    injection Hsol as <-.
    match goal with |- valid_assignment _ (foldl ?f s ss) =>
      pose proof (foldl_choose_in
        (λ best s', fl_leb (total_cost cost best) (total_cost cost s')) ss s) as Hin
    end.
    rewrite <- Hinj in Hin. apply injections_spec in Hin as (Hlen & Hnd & Hsub).
    split_and!; [done|done|].
    eapply Forall_impl; [exact Hsub|]. intros c Hc. simpl in Hc.
    apply list_elem_of_lookup in Hc as [i Hi]. apply lookup_seqZ in Hi. lia.
  - intros cost Hfin Hshape. unfold exhaustive_lsa.
    rewrite existsb_invalid_finite by done.
    destruct (injections _ _) as [|s ss] eqn:Hinj; [|eexists; reflexivity].
    exfalso. revert Hinj. apply injections_nonempty; [apply NoDup_seqZ|].
    rewrite length_seqZ. lia.
  - intros cost Hnan. unfold exhaustive_lsa.
    rewrite existsb_invalid_nan by done. eexists; reflexivity.
Qed.

(** ** Exact assignment (claims C2 and C4) *)

Lemma scale_coordinates_Ok_length coords dim_max scaled :
  scale_coordinates coords dim_max = Ok scaled →
  length scaled = length coords ∧ coords ≠ [].
Proof.
  destruct coords as [|p ps]; [discriminate|].
  rewrite scale_coordinates_axes. intros [= <-].
  split; [simpl; f_equal; apply length_fmap | done].
Qed.

Lemma foldM_preserves {A S} (f : S → A → result S) (I : S → Prop) :
  (∀ s a s', I s → f s a = Ok s' → I s') →
  ∀ l s s', I s → foldM f l s = Ok s' → I s'.
Proof.
  intros Hstep l s s' Hs Hrun.
  by destruct (foldM_Ok_Forall f (λ _, True) I
                 (λ s a s' Hs Hf, conj Logic.I (Hstep s a s' Hs Hf)) l s s' Hs Hrun).
Qed.

Lemma calculate_pixel_centroids_Ok_length uninit px_size cs :
  calculate_pixel_centroids uninit px_size = Ok cs →
  length cs = Z.to_nat (px_size.1 * px_size.2).
Proof.
  unfold calculate_pixel_centroids, np_empty2. case_decide; [discriminate|].
  simpl. intros Hcs. apply bind_Ok_inv in Hcs as (m & Hrun & [= <-]).
  rewrite length_fmap.
  revert Hrun.
  apply (foldM_preserves _
           (λ m : list fpoint, length m = Z.to_nat (px_size.1 * px_size.2)));
    [|by rewrite length_fmap, length_seq].
  intros s i s'.
  apply (foldM_preserves _
           (λ m : list fpoint, length m = Z.to_nat (px_size.1 * px_size.2))).
  intros s0 j s1 Hs0 Hset. apply setitem_Ok_inv in Hset as [_ Hl]. congruence.
Qed.

Lemma length_cdist2 xa xb : length (cdist2 xa xb) = length xa.
Proof. unfold cdist2. by rewrite length_fmap. Qed.

Lemma n_cost_cols_cdist2 xa xb :
  xa ≠ [] → n_cost_cols (cdist2 xa xb) = length xb.
Proof. destruct xa; [done|]. intros _. simpl. by rewrite length_fmap. Qed.

(** With the identity labels of the unclustered case, the decoded pixels
    follow the solution row by row. *)
Lemma assignment_postprocessing_identity position px_size sol :
  length sol = length position →
  assignment_postprocessing position px_size sol
    (py_range 0 (Z.of_nat (length position)))
  = Ok (decode_pixel px_size <$> sol).
Proof.
  intros Hlen. unfold assignment_postprocessing.
  rewrite (mapM_total _ (λ i, decode_pixel px_size (default 0 (sol !! Z.to_nat i)))).
  - f_equal. apply list_eq. intros i. rewrite !list_lookup_fmap.
    unfold py_range. destruct (decide (i < length sol)%nat) as [Hi|Hi].
    + rewrite lookup_seqZ_lt by lia. simpl.
      replace (Z.to_nat (0 + Z.of_nat i)) with i by lia.
      destruct (lookup_lt_is_Some_2 sol i Hi) as [c Hc]. by rewrite Hc.
    + rewrite lookup_seqZ_ge by lia. by rewrite lookup_ge_None_2 by lia.
  - apply Forall_forall. intros i Hi. unfold py_range in Hi.
    apply list_elem_of_lookup in Hi as [k Hk]. apply lookup_seqZ in Hk as [-> Hk].
    assert (py_range 0 (Z.of_nat (length position)) !! Z.to_nat (0 + Z.of_nat k)
            = Some (0 + Z.of_nat k)) as Hlab.
    { unfold py_range. rewrite lookup_seqZ. lia. }
    erewrite getitem_in_range; [|lia|exact Hlab]. simpl.
    destruct (lookup_lt_is_Some_2 sol (Z.to_nat (0 + Z.of_nat k)) ltac:(lia)) as [c Hc].
    erewrite getitem_in_range; [|lia|exact Hc]. simpl. by rewrite Hc.
Qed.

Section exact_assignment.
Context (E : externals).
Hypothesis lsa_ok : solver_contract (linear_sum_assignment E).

(** Without clustering, whatever the routine returns is the decoding of
    a valid assignment of the points to pixel indices. *)
Lemma coordinate_optimal_assignment_Ok_inv position px_size m :
  Z.of_nat (length position) ≤ px_size.1 * px_size.2 →
  coordinate_optimal_assignment E position px_size = Ok m →
  ∃ sol, m = decode_pixel px_size <$> sol
    ∧ length sol = length position
    ∧ NoDup sol
    ∧ Forall (λ c, 0 ≤ c < px_size.1 * px_size.2) sol
    ∧ position ≠ [].
Proof.
  intros Hfit Hrun. unfold coordinate_optimal_assignment in Hrun.
  apply bind_Ok_inv in Hrun as ([dist labels] & Hpre & Hrun).
  apply bind_Ok_inv in Hrun as (sol & Hsol & Hpost).
  unfold assignment_preprocessing in Hpre.
  apply bind_Ok_inv in Hpre as (scaled & Hscaled & Hpre).
  apply bind_Ok_inv in Hpre as (cs & Hcs & Hpre).
  apply scale_coordinates_Ok_length in Hscaled as [Hlen Hne].
  apply calculate_pixel_centroids_Ok_length in Hcs.
  rewrite decide_False in Hpre by lia. injection Hpre as <- <-.
  simpl in Hsol, Hpost.
  assert (scaled ≠ []) as Hne' by (destruct scaled, position; done).
  apply (solver_valid _ lsa_ok) in Hsol as (Hl & Hnd & Hrange).
  2: { rewrite length_cdist2, n_cost_cols_cdist2 by done. lia. }
  rewrite length_cdist2 in Hl. rewrite n_cost_cols_cdist2 in Hrange by done.
  rewrite Hlen in Hpost.
  rewrite assignment_postprocessing_identity in Hpost by congruence.
  injection Hpost as <-. exists sol. split_and!; [done|congruence|done| |done].
  eapply Forall_impl; [exact Hrange|]. intros c Hc. simpl in Hc. lia.
Qed.

(** No two points share a pixel. *)
Lemma coordinate_optimal_assignment_NoDup position px_size m :
  Z.of_nat (length position) ≤ px_size.1 * px_size.2 →
  coordinate_optimal_assignment E position px_size = Ok m →
  length m = length position ∧ NoDup m.
Proof.
  intros Hfit Hrun.
  destruct (coordinate_optimal_assignment_Ok_inv _ _ _ Hfit Hrun)
    as (sol & -> & Hlen & Hnd & _ & Hne).
  split; [by rewrite length_fmap|].
  apply NoDup_fmap_2_strong; [|done].
  intros k k' _ _. apply decode_pixel_inj.
  intros H0. rewrite H0 in Hfit.
  assert (0 < length position)%nat by (destruct position; [done | simpl; lia]).
  lia.
Qed.

Lemma sq_dist_finite a b :
  is_finite a.1 = true → is_finite a.2 = true →
  is_finite b.1 = true → is_finite b.2 = true →
  is_finite (sq_dist a b) = true.
Proof.
  destruct a as [[] []], b as [[] []]; simpl; try discriminate. done.
Qed.

(** On a square grid a point set with a range on both axes is assigned,
    and the pixels lie in the grid. *)
Lemma coordinate_optimal_assignment_square position n :
  0 < n →
  Z.of_nat (length position) ≤ n * n →
  ¬ zero_range position.*1 → ¬ zero_range position.*2 →
  ∃ m, coordinate_optimal_assignment E position (n, n) = Ok m
    ∧ Forall (in_grid (n, n)) m.
Proof.
  intros Hn Hfit Hr1 Hr2.
  assert (position ≠ []) as Hne.
  { intros ->. apply Hr1. intros a b Ha. by apply elem_of_nil in Ha. }
  destruct (scale_coordinates_spec position (n, n) Hne)
    as (scaled & Hscaled & Hlen & _ & _ & Hfin1 & Hfin2).
  specialize (Hfin1 Hr1 ltac:(simpl; lia)).
  specialize (Hfin2 Hr2 ltac:(simpl; lia)).
  destruct (calculate_pixel_centroids_square (uninit E) n ltac:(lia))
    as (cs & Hcs & Hcslen & Hat).
  assert (Forall (λ c : fpoint, is_finite c.1 = true ∧ is_finite c.2 = true) cs) as Hcsfin.
  { apply Forall_lookup. intros k c Hk.
    assert (Z.of_nat k < n * n) as Hkn by (apply lookup_lt_Some in Hk; lia).
    specialize (Hat (Z.of_nat k `div` n) (Z.of_nat k `mod` n)).
    rewrite <- Z.mul_comm, <- Z.div_mod, Nat2Z.id, Hk in Hat by lia.
    assert (0 ≤ Z.of_nat k `div` n < n) as Hd.
    { split; [apply Z.div_pos; lia | apply Z.div_lt_upper_bound; lia]. }
    pose proof (Z.mod_pos_bound (Z.of_nat k) n Hn) as Hm.
    specialize (Hat Hd Hm). injection Hat as ->. done. }
  assert (scaled ≠ []) as Hne' by (destruct scaled, position; done).
  destruct (solver_total _ lsa_ok (cdist2 scaled cs)) as [sol Hsol].
  { unfold cdist2. apply Forall_fmap, Forall_forall. intros a Ha.
    apply Forall_fmap, Forall_forall. intros b Hb. simpl.
    rewrite Forall_forall in Hfin1, Hfin2, Hcsfin.
    destruct (Hfin1 _ Ha) as (v1 & Hv1 & _). destruct (Hfin2 _ Ha) as (v2 & Hv2 & _).
    destruct (Hcsfin _ Hb) as [Hb1 Hb2].
    apply sq_dist_finite; [by rewrite Hv1 | by rewrite Hv2 | done | done]. }
  { rewrite length_cdist2, n_cost_cols_cdist2 by done. lia. }
  assert (coordinate_optimal_assignment E position (n, n)
          = assignment_postprocessing position (n, n) sol
              (py_range 0 (Z.of_nat (length position)))) as Heq.
  { unfold coordinate_optimal_assignment, assignment_preprocessing.
    rewrite Hscaled, Hcs. simpl. rewrite decide_False by lia. simpl.
    rewrite Hsol. simpl. by rewrite Hlen. }
  pose proof (solver_valid _ lsa_ok _ _ Hsol) as (Hl & Hnd & Hrange).
  { rewrite length_cdist2, n_cost_cols_cdist2 by done. lia. }
  rewrite length_cdist2 in Hl. rewrite n_cost_cols_cdist2 in Hrange by done.
  rewrite assignment_postprocessing_identity in Heq by congruence.
  eexists. split; [exact Heq|].
  apply Forall_fmap. eapply Forall_impl; [exact Hrange|].
  intros c Hc. simpl in Hc. unfold in_grid, decode_pixel, np_mod, np_floordiv. simpl.
  rewrite !decide_False by lia.
  pose proof (Z.mod_pos_bound c n Hn).
  split; [|done]. split; [apply Z.div_pos; lia | apply Z.div_lt_upper_bound; lia].
Qed.
Lemma sq_dist_nan a b : a.1 = NaN ∨ a.2 = NaN → sq_dist a b = NaN.
Proof.
  destruct a as [a1 a2], b as [b1 b2]. unfold sq_dist. simpl.
  intros [-> | ->]; [done|].
  by destruct (fl_mul (fl_sub a1 b1) (fl_sub a1 b1)).
Qed.

(** A point set with a zero-range axis is never assigned: its cost matrix
    is NaN throughout. *)
Lemma coordinate_optimal_assignment_zero_range position px_size :
  zero_range position.*1 ∨ zero_range position.*2 →
  Z.of_nat (length position) ≤ px_size.1 * px_size.2 →
  is_Raise (coordinate_optimal_assignment E position px_size).
Proof.
  intros Hz Hfit. unfold coordinate_optimal_assignment, assignment_preprocessing.
  destruct (decide (position = [])) as [->|Hne]; [by eexists|].
  destruct (scale_coordinates_spec position px_size Hne)
    as (scaled & -> & Hlen & Hnan1 & Hnan2 & _). simpl.
  destruct (calculate_pixel_centroids (uninit E) px_size) as [cs|e] eqn:Hcs;
    simpl; [|by eexists].
  apply calculate_pixel_centroids_Ok_length in Hcs.
  rewrite decide_False by lia. simpl.
  destruct (solver_rejects_nan _ lsa_ok (cdist2 scaled cs)) as [e ->]; [|by eexists].
  destruct scaled as [|s scaled]; [by destruct position|].
  destruct cs as [|c cs]; [simpl in *; lia|].
  apply Exists_cons_hd, Exists_cons_hd. apply sq_dist_nan.
  destruct Hz as [Hz|Hz]; [left | right].
  - apply Hnan1 in Hz. by apply Forall_cons in Hz as [? _].
  - apply Hnan2 in Hz. by apply Forall_cons in Hz as [? _].
Qed.
End exact_assignment.

(** ** The transformer object (claims C6, C8 and C10) *)

Section transformer_facts.
Context (E : externals).

(** What the setter of [pixels] touches: the grid, and the mapping when the
    discretizer returns. *)
Lemma set_pixels_frame (t : ImageTransformer E) (p : pixels_arg) :
  _fe E (set_pixels E t p).2 = _fe E t
  ∧ _dm E (set_pixels E t p).2 = _dm E t
  ∧ _xrot E (set_pixels E t p).2 = _xrot E t
  ∧ _pixels E (set_pixels E t p).2 = _parse_pixels p.
Proof.
  unfold set_pixels, _calculate_coords.
  destruct p as [n|h w]; simpl;
    match goal with |- context [call_dm E ?d ?x ?px] =>
      destruct (call_dm E d x px) end; done.
Qed.

Lemma set_pixels_coords (t : ImageTransformer E) (p : pixels_arg) :
  match call_dm E (_dm E t) (_xrot E t) (_parse_pixels p) with
  | Ok c => (set_pixels E t p).1 = Ok () ∧ _coords E (set_pixels E t p).2 = c
  | Raise e =>
      (set_pixels E t p).1 = Raise e
      ∧ _coords E (set_pixels E t p).2 = _coords E t
  end.
Proof.
  unfold set_pixels, _calculate_coords.
  destruct p as [n|h w]; simpl;
    match goal with |- context [call_dm E ?d ?x ?px] =>
      destruct (call_dm E d x px) end; done.
Qed.

(** Every discretizer starts by scaling, and scaling nothing raises. *)
Lemma call_dm_empty (dm : method) (px_size : pixel) :
  call_dm E dm [] px_size
  = Raise (ValueError
      "zero-size array to reduction operation minimum which has no identity").
Proof. by destruct dm. Qed.

Lemma __init___Ok_inv fe key px (t : ImageTransformer E) :
  __init__ E fe key px = Ok t →
  _xrot E t = [] ∧ _coords E t = [] ∧ _pixels E t = _parse_pixels px
  ∧ DISCRETIZATION_OPTIONS !! key = Some (_dm E t).
Proof.
  unfold __init__, _parse_discretization. intros H.
  apply bind_Ok_inv in H as (p & _ & H).
  destruct (DISCRETIZATION_OPTIONS !! key) as [dm|]; [|discriminate].
  simpl in H. by injection H as <-.
Qed.
End transformer_facts.

Lemma names_quoted (v suf : string) : names v ("'" +:+ v +:+ suf).
Proof. by exists "'", suf. Qed.

Lemma names_quoted_after (pre v suf : string) :
  names v (pre +:+ v +:+ suf).
Proof. by exists pre, suf. Qed.

Lemma fit_Ok_inv E (t t' : ImageTransformer E) X :
  fit E t X = (Ok (), t') →
  ∃ fe' x_new xrot c,
    fit_transform E (_fe E t) (np_T X) = (Ok x_new, fe')
    ∧ rotate_to_mbr E x_new = Ok xrot
    ∧ call_dm E (_dm E t) xrot (_pixels E t) = Ok c
    ∧ t' = mkImageTransformer E fe' (_dm E t) (_pixels E t) xrot c.
Proof.
  unfold fit. destruct (fit_transform E (_fe E t) (np_T X)) as [[x_new|e] fe'];
    [|intros [=]].
  destruct (rotate_to_mbr E x_new) as [xrot|e] eqn:Hrot; [|intros [=]].
  unfold _calculate_coords. simpl.
  destruct (call_dm E (_dm E t) xrot (_pixels E t)) as [c|e] eqn:Hdm; [|intros [=]].
  intros [= <-]. by exists fe', x_new, xrot, c.
Qed.

(** Three distinct indices below 3 are the indices 0, 1, 2 in some order. *)
Lemma three_indices_Permutation (sol : list Z) :
  length sol = 3%nat → NoDup sol → Forall (λ c, 0 ≤ c < 3) sol →
  sol ≡ₚ [0; 1; 2].
Proof.
  intros Hlen Hnd Hrange. apply submseteq_length_Permutation; [|simpl; lia].
  apply NoDup_submseteq; [done|]. intros c Hc.
  rewrite Forall_forall in Hrange. specialize (Hrange c Hc).
  assert (c = 0 ∨ c = 1 ∨ c = 2) as [-> | [-> | ->]] by lia; set_solver.
Qed.

(** ** [np.unique] (claims C5, C7 and C9) *)

Section unique_elements.
Context {A : Type} `{EqDecision A} (ltb : A → A → bool).

Lemma insert_unique_elem x l y :
  y ∈ insert_unique ltb x l ↔ y = x ∨ y ∈ l.
Proof.
  induction l as [|z l IH]; simpl.
  - rewrite list_elem_of_singleton. set_solver.
  - case_decide as Hxz; [subst; set_solver|].
    destruct (ltb x z); [set_solver|].
    rewrite !elem_of_cons, IH. tauto.
Qed.

Lemma np_unique_elem l y : y ∈ np_unique ltb l ↔ y ∈ l.
Proof.
  induction l as [|x l IH]; simpl; [done|].
  rewrite insert_unique_elem, IH, elem_of_cons. done.
Qed.
End unique_elements.

Section unique_facts.
Context {A : Type} `{EqDecision A} (ltb : A → A → bool).
Hypothesis ltb_trans : ∀ x y z, ltb x y = true → ltb y z = true → ltb x z = true.
Hypothesis ltb_irrefl : ∀ x, ltb x x = false.
Hypothesis ltb_total : ∀ x y, x ≠ y → ltb x y = false → ltb y x = true.

Let lt (x y : A) : Prop := ltb x y = true.

Lemma insert_unique_sorted x l :
  StronglySorted lt l → StronglySorted lt (insert_unique ltb x l).
Proof using ltb_trans ltb_total.
  induction 1 as [|z l Hl IH Hz]; simpl.
  - repeat constructor.
  - case_decide as Hxz; [by constructor|].
    destruct (ltb x z) eqn:Hlt.
    + constructor; [by constructor|]. constructor; [done|].
      eapply Forall_impl; [exact Hz|]. intros w Hw. by apply (ltb_trans x z w).
    + constructor; [done|]. apply Forall_forall. intros w Hw.
      apply insert_unique_elem in Hw as [->|Hw].
      * by apply ltb_total.
      * rewrite Forall_forall in Hz. by apply Hz.
Qed.

Lemma np_unique_sorted l : StronglySorted lt (np_unique ltb l).
Proof using ltb_trans ltb_total.
  induction l as [|x l IH]; simpl; [constructor | by apply insert_unique_sorted].
Qed.

Lemma np_unique_NoDup l : NoDup (np_unique ltb l).
Proof using ltb_trans ltb_irrefl ltb_total.
  pose proof (np_unique_sorted l) as Hs.
  induction Hs as [|x u Hu IH Hx]; constructor; [|done].
  intros Hin. rewrite Forall_forall in Hx. specialize (Hx x Hin).
  unfold lt in Hx. by rewrite ltb_irrefl in Hx.
Qed.
End unique_facts.

Section index_of_facts.
Context {A : Type} `{EqDecision A}.

Lemma index_of_lookup (x : A) l : x ∈ l → l !! index_of x l = Some x.
Proof.
  induction l as [|y l IH]; intros Hx; [by apply elem_of_nil in Hx|].
  simpl. case_decide as Hxy; [by subst|].
  simpl. apply IH. apply elem_of_cons in Hx as [?|?]; done.
Qed.

Lemma index_of_inj (x y : A) l :
  x ∈ l → y ∈ l → index_of x l = index_of y l → x = y.
Proof.
  intros Hx Hy Heq. apply index_of_lookup in Hx, Hy. rewrite Heq in Hx. congruence.
Qed.
End index_of_facts.

Lemma StronglySorted_weaken {A} (R S : relation A) (l : list A) :
  (∀ x y, R x y → S x y) → StronglySorted R l → StronglySorted S l.
Proof.
  intros HRS. induction 1 as [|x l Hl IH Hx]; constructor; [done|].
  eapply Forall_impl; [exact Hx|]. intros y. apply HRS.
Qed.

Lemma Z_ltb_trans x y z : (x <? y) = true → (y <? z) = true → (x <? z) = true.
Proof. rewrite !Z.ltb_lt. lia. Qed.

Lemma Z_ltb_total x y : x ≠ y → (x <? y) = false → (y <? x) = true.
Proof. rewrite Z.ltb_lt, Z.ltb_ge. lia. Qed.

Lemma pixel_ltb_spec (a b : pixel) :
  pixel_ltb a b = true ↔ a.1 < b.1 ∨ (a.1 = b.1 ∧ a.2 < b.2).
Proof.
  unfold pixel_ltb. rewrite orb_true_iff, andb_true_iff, !Z.ltb_lt, Z.eqb_eq. done.
Qed.

Lemma pixel_ltb_trans a b c :
  pixel_ltb a b = true → pixel_ltb b c = true → pixel_ltb a c = true.
Proof. rewrite !pixel_ltb_spec. lia. Qed.

Lemma pixel_ltb_irrefl a : pixel_ltb a a = false.
Proof. apply not_true_iff_false. rewrite pixel_ltb_spec. lia. Qed.

Lemma pixel_ltb_total a b : a ≠ b → pixel_ltb a b = false → pixel_ltb b a = true.
Proof.
  intros Hne Hlt. apply not_true_iff_false in Hlt. rewrite pixel_ltb_spec in *.
  destruct a as [a1 a2], b as [b1 b2]. simpl in *.
  assert (a1 ≠ b1 ∨ a2 ≠ b2) by (destruct (decide (a1 = b1)); [right|left]; congruence).
  lia.
Qed.

(** ** Prediction reduction (claim C9) *)

Lemma mask_eq_scores_with y_hat index k :
  length y_hat = length index →
  mask_eq y_hat index k = Ok (scores_with y_hat index k).
Proof.
  intros Hlen. unfold mask_eq. rewrite decide_True by done. f_equal.
  revert index Hlen. induction y_hat as [|y y_hat IH]; intros [|i index] Hlen;
    try done.
  simpl in Hlen. simpl. rewrite filter_cons. simpl.
  case_decide; simpl; rewrite IH by lia; done.
Qed.

Lemma prediction_reduction_spec (agg : list Qc → Qc) y_hat index :
  length y_hat = length index →
  mapM (λ k, let* sel := mask_eq y_hat index k in Ok (agg sel))
       (np_unique Z.ltb index)
  = Ok ((λ k, agg (scores_with y_hat index k)) <$> np_unique Z.ltb index).
Proof.
  intros Hlen. apply mapM_total, Forall_forall. intros k _.
  by rewrite mask_eq_scores_with.
Qed.

(** Comparing a computed list of rationals with an expected one. *)
Lemma result_Qc_list_eq (r : result (list Qc)) (l : list Qc) :
  match r with Ok l' => bool_decide (l' = l) | Raise _ => false end = true →
  r = Ok l.
Proof.
  destruct r as [l'|]; [|discriminate]. intros H.
  apply bool_decide_eq_true in H. by subst.
Qed.

(** ** The image matrix (claims C5 and C7) *)

Lemma foldM_ext {A S} (f g : S → A → result S) (l : list A) (s : S) :
  (∀ s a, a ∈ l → f s a = g s a) → foldM f l s = foldM g l s.
Proof.
  revert s; induction l as [|a l IH]; intros s Hfg; simpl; [done|].
  rewrite (Hfg s a) by left. destruct (g s a); simpl; [|done].
  apply IH. intros s' a' Ha'. apply Hfg. by right.
Qed.

Lemma at2_alter_insert_eq (g : grid) (r k : nat) (v : Qc) (px_size : pixel) :
  grid_shape px_size g →
  (r < Z.to_nat px_size.1)%nat → (k < Z.to_nat px_size.2)%nat →
  at2 0%Qc (alter (λ row : list Qc, <[k := v]> row) r g) (r, k) = v.
Proof.
  intros [Hlen Hrows] Hr Hk. unfold at2. simpl.
  destruct (lookup_lt_is_Some_2 g r ltac:(lia)) as [row Hrow].
  rewrite list_lookup_alter_eq, Hrow. simpl.
  rewrite list_lookup_insert_eq; [done|].
  rewrite Forall_forall in Hrows.
  rewrite (Hrows row) by (by eapply list_elem_of_lookup_2). done.
Qed.

Lemma at2_alter_insert_ne (g : grid) (r k r' k' : nat) (v : Qc) :
  (r, k) ≠ (r', k') →
  at2 0%Qc (alter (λ row : list Qc, <[k := v]> row) r g) (r', k') = at2 0%Qc g (r', k').
Proof.
  intros Hne. unfold at2. simpl.
  destruct (decide (r = r')) as [->|Hr].
  - rewrite list_lookup_alter_eq. destruct (g !! r') as [row|]; simpl; [|done].
    rewrite list_lookup_insert_ne by congruence. done.
  - by rewrite list_lookup_alter_ne.
Qed.

Lemma grid_shape_alter_insert px_size (g : grid) r k v :
  grid_shape px_size g →
  grid_shape px_size (alter (λ row : list Qc, <[k := v]> row) r g).
Proof.
  intros [Hlen Hrows]. split; [by rewrite length_alter|].
  apply Forall_alter; [done|]. intros row _ Hrow. by rewrite length_insert.
Qed.

Lemma cell_of_inj px_size c c' :
  in_grid px_size c → in_grid px_size c' → cell_of c = cell_of c' → c = c'.
Proof.
  unfold in_grid, cell_of. destruct c, c'. simpl. intros ? ? [= ? ?].
  f_equal; lia.
Qed.

Lemma grid_shape_initial_grid px_size empty_value :
  grid_shape px_size (initial_grid px_size empty_value).
Proof.
  unfold initial_grid. case_decide.
  - split; [by rewrite length_fmap, length_replicate|].
    apply Forall_fmap, Forall_replicate. simpl.
    by rewrite length_fmap, length_replicate.
  - split; [by rewrite length_replicate|].
    apply Forall_replicate. by rewrite length_replicate.
Qed.

Lemma select_take (cols : list nat) (n : nat) (r : list Qc) :
  Forall (λ f, (f < n)%nat) cols → select cols (take n r) = select cols r.
Proof.
  intros Hcols. unfold select. apply list_fmap_ext.
  intros i f Hf. rewrite Forall_forall in Hcols.
  rewrite lookup_take_lt; [done|]. apply Hcols. by eapply list_elem_of_lookup_2.
Qed.

Section painting.
Context (idx : list nat) (r : list Qc) (px_size : pixel).

Lemma grid_shape_paint g ic :
  grid_shape px_size g → grid_shape px_size (paint idx r g ic).
Proof. apply grid_shape_alter_insert. Qed.

Lemma grid_shape_foldl_paint L : ∀ g,
  grid_shape px_size g → grid_shape px_size (foldl (paint idx r) g L).
Proof.
  induction L as [|ic L IH]; intros g Hg; simpl; [done|].
  by apply IH, grid_shape_paint.
Qed.

(** Cells that no iteration addresses keep their value. *)
Lemma foldl_paint_other L p : ∀ g,
  p ∉ cell_of <$> L.*2 →
  at2 0%Qc (foldl (paint idx r) g L) p = at2 0%Qc g p.
Proof.
  induction L as [|ic L IH]; intros g Hp; simpl; [done|].
  rewrite IH by (intros ?; apply Hp; simpl; by right).
  destruct p as [r' k']. unfold paint. apply at2_alter_insert_ne.
  intros Heq. apply Hp. simpl. rewrite <- Heq, <- surjective_pairing. left.
Qed.

(** When the pixels of the iterations are distinct and within the grid,
    each of them ends up holding the mean of its group. *)
Lemma foldl_paint_lookup L : ∀ g ic,
  grid_shape px_size g →
  NoDup L.*2 → Forall (in_grid px_size) L.*2 →
  ic ∈ L →
  at2 0%Qc (foldl (paint idx r) g L) (cell_of ic.2)
  = np_mean (select (np_where_eq idx ic.1) r).
Proof.
  induction L as [|ic0 L IH]; intros g ic Hg Hnd Hin Hic;
    [by apply elem_of_nil in Hic|].
  simpl in Hnd, Hin. apply NoDup_cons in Hnd as [Hnotin Hnd].
  apply Forall_cons in Hin as [Hin0 Hin].
  simpl. apply elem_of_cons in Hic as [->|Hic].
  - rewrite foldl_paint_other.
    + unfold paint. destruct Hin0 as [Hr Hk].
      apply (at2_alter_insert_eq _ _ _ _ px_size); [done| |]; unfold cell_of; simpl; lia.
    + intros Hcell. apply list_elem_of_fmap in Hcell as (c & Hcc & Hc).
      apply Hnotin. rewrite Forall_forall in Hin.
      by rewrite (cell_of_inj px_size ic0.2 c Hin0 (Hin c Hc) Hcc).
  - apply IH; [by apply grid_shape_paint | done | done | done].
Qed.
End painting.

Lemma mapM_cases {A B} (f : A → result B) (l : list A) :
  is_Ok (mapM f l) ∨ ∃ a e, a ∈ l ∧ f a = Raise e ∧ mapM f l = Raise e.
Proof.
  induction l as [|a l IH]; simpl; [left; by eexists|].
  destruct (f a) as [b|e] eqn:Hfa; simpl.
  - destruct IH as [[bs ->]|(a' & e & Ha' & Hfa' & ->)]; simpl.
    + left. by eexists.
    + right. exists a', e. split_and!; [by right | done | done].
  - right. exists a, e. split_and!; [by left | done | done].
Qed.

Lemma take_columns_Ok X cols :
  Forall (λ f, (f < n_cols X)%nat) cols →
  take_columns X cols = Ok (select cols <$> rows X).
Proof.
  intros Hcols. unfold take_columns.
  rewrite (mapM_total _ (λ f, f)); [done|].
  eapply Forall_impl; [exact Hcols|]. intros f Hf. simpl in *.
  rewrite np_index_in_range by lia. by rewrite Nat2Z.id.
Qed.

Lemma take_columns_cases X cols :
  is_Ok (take_columns X cols)
  ∨ ∃ f, f ∈ cols ∧ (n_cols X ≤ f)%nat
         ∧ take_columns X cols = Raise (IndexError (Z.of_nat f) 1 (n_cols X)).
Proof.
  unfold take_columns.
  destruct (mapM_cases (λ f : nat, np_index (n_cols X) 1 (Z.of_nat f)) cols)
    as [[ix ->]|(f & e & Hf & He & ->)]; simpl.
  - left. by eexists.
  - right. exists f. unfold np_index in He.
    repeat case_decide; try discriminate; try lia.
    injection He as <-. split_and!; [done | lia | done].
Qed.

Lemma take_columns_raises X cols f :
  f ∈ cols → (n_cols X ≤ f)%nat → is_Raise (take_columns X cols).
Proof.
  intros Hf Hge. destruct (result_cases (take_columns X cols)) as [[sel Hsel]|]; [|done].
  exfalso. unfold take_columns in Hsel. apply bind_Ok_inv in Hsel as (ix & Hix & _).
  apply list_elem_of_lookup in Hf as [i Hi].
  destruct (mapM_Ok_lookup _ _ _ _ _ Hix Hi) as (k & _ & Hk).
  apply np_index_Ok_inv in Hk. lia.
Qed.

Lemma set_pixel_all_Ok img px_size c vec :
  in_grid px_size c →
  set_pixel_all img px_size c vec
  = Ok (zip_with (λ (g : grid) v,
                    alter (λ row : list Qc, <[(cell_of c).2 := v]> row) (cell_of c).1 g)
                 img vec).
Proof.
  intros [Hr Hk]. unfold set_pixel_all.
  rewrite !np_index_in_range by lia. done.
Qed.

Lemma img_matrix_step_Ok px_size X idx img ic :
  in_grid px_size ic.2 →
  Forall (λ f, (f < n_cols X)%nat) (np_where_eq idx ic.1) →
  img_matrix_step px_size X idx img ic
  = Ok (zip_with (λ g r, paint idx r g ic) img (rows X)).
Proof.
  intros Hc Hcols. unfold img_matrix_step.
  rewrite take_columns_Ok by done. simpl.
  rewrite set_pixel_all_Ok by done. f_equal.
  rewrite <- list_fmap_compose. rewrite zip_with_fmap_r. done.
Qed.

Lemma zip_with_zip_with_r {A B C} (f : C → B → C) (g : A → B → C) (l : list A) (k : list B) :
  zip_with f (zip_with g l k) k = zip_with (λ x y, f (g x y) y) l k.
Proof.
  revert k; induction l as [|x l IH]; intros [|y k]; simpl; [done..|].
  by rewrite IH.
Qed.

Lemma zip_with_fst_id {A B} (l : list A) (k : list B) :
  length l = length k → zip_with (λ x _, x) l k = l.
Proof.
  revert k; induction l as [|x l IH]; intros [|y k] Hlen; simpl in *; try done.
  rewrite IH by lia. done.
Qed.

(** The loop of [transform], sample by sample. *)
Lemma img_matrix_loop_Ok px_size X idx L : ∀ img,
  length img = n_rows X →
  Forall (λ ic : nat * pixel,
            in_grid px_size ic.2
            ∧ Forall (λ f, (f < n_cols X)%nat) (np_where_eq idx ic.1)) L →
  foldM (img_matrix_step px_size X idx) L img
  = Ok (zip_with (λ g r, foldl (paint idx r) g L) img (rows X)).
Proof.
  induction L as [|ic L IH]; intros img Hlen HL; simpl.
  - by rewrite zip_with_fst_id.
  - apply Forall_cons in HL as [[Hc Hcols] HL].
    rewrite img_matrix_step_Ok by done. simpl.
    rewrite IH; [|by rewrite length_zip_with; unfold n_rows in *; lia|done].
    by rewrite zip_with_zip_with_r.
Qed.

Lemma elem_of_np_where_eq idx i f :
  f ∈ np_where_eq idx i ↔ idx !! f = Some i.
Proof.
  unfold np_where_eq. rewrite list_elem_of_filter, elem_of_seq. split.
  - by intros [? _].
  - intros Hf. split; [done|]. apply lookup_lt_Some in Hf. lia.
Qed.

Lemma np_where_eq_bound idx i :
  Forall (λ f, (f < length idx)%nat) (np_where_eq idx i).
Proof.
  apply Forall_forall. intros f Hf. apply elem_of_np_where_eq in Hf.
  by apply lookup_lt_Some in Hf.
Qed.

Lemma length_np_unique_inverse (cs : list pixel) :
  length (np_unique_inverse pixel_ltb cs) = length cs.
Proof. unfold np_unique_inverse. by rewrite length_fmap. Qed.

Lemma elem_of_imap_pair {A} (l : list A) i x :
  (i, x) ∈ imap pair l ↔ l !! i = Some x.
Proof.
  rewrite list_elem_of_lookup. split.
  - intros [j Hj]. rewrite list_lookup_imap in Hj.
    destruct (l !! j) as [y|] eqn:Hy; simpl in Hj; [|done].
    injection Hj as <- <-. done.
  - intros Hi. exists i. rewrite list_lookup_imap, Hi. done.
Qed.

Lemma imap_pair_snd {A} (l : list A) : (imap pair l).*2 = l.
Proof.
  apply list_eq. intros i. rewrite list_lookup_fmap, list_lookup_imap.
  by destruct (l !! i).
Qed.

Lemma filter_none {A} (P : A → Prop) `{∀ x, Decision (P x)} (l : list A) :
  (∀ y, y ∈ l → ¬ P y) → filter P l = [].
Proof.
  induction l as [|a l IH]; intros Hl; [done|].
  rewrite filter_cons_False by (apply Hl; left).
  apply IH. intros y Hy. apply Hl. by right.
Qed.

Lemma filter_singleton {A} (P : A → Prop) `{∀ x, Decision (P x)} (l : list A) x :
  NoDup l → x ∈ l → P x → (∀ y, y ∈ l → P y → y = x) → filter P l = [x].
Proof.
  induction l as [|a l IH]; intros Hnd Hx HPx Huniq; [by apply elem_of_nil in Hx|].
  apply NoDup_cons in Hnd as [Ha Hnd].
  destruct (decide (P a)) as [HPa|HPa].
  - assert (a = x) as -> by (apply Huniq; [left | done]).
    rewrite filter_cons_True by done. f_equal. apply filter_none.
    intros y Hy HPy. apply Ha. rewrite <- (Huniq y); [done | by right | done].
  - rewrite filter_cons_False by done.
    apply IH; [done | | done |].
    + apply elem_of_cons in Hx as [?|?]; [congruence | done].
    + intros y Hy. apply Huniq. by right.
Qed.

(** With an injective mapping, the group of a feature is the feature
    alone. *)
Lemma np_where_eq_singleton (cs : list pixel) f c :
  NoDup cs → cs !! f = Some c →
  np_where_eq (np_unique_inverse pixel_ltb cs)
              (index_of c (np_unique pixel_ltb cs)) = [f].
Proof.
  intros Hnd Hf. unfold np_where_eq.
  assert (∀ g, np_unique_inverse pixel_ltb cs !! g
               = (λ x, index_of x (np_unique pixel_ltb cs)) <$> cs !! g) as Hidx.
  { intros g. unfold np_unique_inverse. by rewrite list_lookup_fmap. }
  apply filter_singleton.
  - apply NoDup_seq.
  - apply elem_of_seq. rewrite length_np_unique_inverse.
    apply lookup_lt_Some in Hf. lia.
  - by rewrite Hidx, Hf.
  - intros g _ Hg. rewrite Hidx in Hg.
    destruct (cs !! g) as [c'|] eqn:Hc'; simpl in Hg; [|done].
    injection Hg as Hg.
    assert (c' = c) as ->.
    { eapply index_of_inj; [| |exact Hg]; apply np_unique_elem;
        by eapply list_elem_of_lookup_2. }
    by eapply NoDup_lookup.
Qed.

Lemma np_mean_singleton (x : Qc) : np_mean [x] = x.
Proof.
  unfold np_mean, Qc_sum. simpl. rewrite Qcplus_0_r.
  replace (Qc_of_Z 1) with 1%Qc by (by apply Qc_is_canon).
  apply (right_id 1%Qc Qcdiv).
Qed.

Section image_matrix.
Context (E : externals) (t : ImageTransformer E).
Hypothesis t_fitted : fitted t.

Let px := _pixels E t.
Let cs := _coords E t.
Let idx := np_unique_inverse pixel_ltb cs.
Let L := imap pair (np_unique pixel_ltb cs).

Lemma fitted_grid_positive : 0 < px.1 ∧ 0 < px.2.
Proof using t_fitted.
  destruct t_fitted as [Hne Hin]. subst px.
  destruct (_coords E t) as [|c cs']; [done|].
  apply Forall_cons in Hin as [[? ?] _]. lia.
Qed.

Lemma fitted_loop_conditions (X : matrix) :
  (length cs ≤ n_cols X)%nat →
  Forall (λ ic : nat * pixel,
            in_grid px ic.2
            ∧ Forall (λ f, (f < n_cols X)%nat) (np_where_eq idx ic.1)) L.
Proof using t_fitted.
  intros Hn. apply Forall_forall. intros [i c] Hic. simpl.
  apply elem_of_imap_pair in Hic.
  destruct t_fitted as [_ Hin]. rewrite Forall_forall in Hin. split.
  - apply Hin. apply (np_unique_elem pixel_ltb). by eapply list_elem_of_lookup_2.
  - eapply Forall_impl; [apply np_where_eq_bound|]. intros f Hf. simpl in Hf.
    subst idx. rewrite length_np_unique_inverse in Hf. lia.
Qed.

(** The image matrix of a fitted transformer, for an input with at least
    as many columns as there are features: every sample's image is the
    initial grid painted with the means of the groups. *)
Lemma img_matrix_of_fitted (X : matrix) (empty_value : Qc) :
  (length cs ≤ n_cols X)%nat →
  img_matrix_of E t X empty_value
  = Ok ((λ r, foldl (paint idx r) (initial_grid px empty_value) L) <$> rows X).
Proof using t_fitted.
  intros Hn. destruct fitted_grid_positive as [Hh Hw].
  unfold img_matrix_of, np_zeros3. fold px cs idx L.
  rewrite decide_False by lia. simpl.
  set (zero := replicate (Z.to_nat px.1) (replicate (Z.to_nat px.2) 0%Qc)).
  assert ((if decide (empty_value ≠ 0%Qc)
           then (λ g : grid, (λ row : list Qc, (λ _, empty_value) <$> row) <$> g)
                <$> replicate (n_rows X) zero
           else replicate (n_rows X) zero)
          = replicate (n_rows X) (initial_grid px empty_value)) as ->.
  { unfold initial_grid. fold zero. case_decide; [by rewrite fmap_replicate | done]. }
  rewrite img_matrix_loop_Ok.
  - f_equal. by apply zip_with_replicate_l.
  - by rewrite length_replicate.
  - by apply fitted_loop_conditions.
Qed.

Lemma zip_fmap_fmap {A B C} (f : A → B) (g : A → C) (l : list A) :
  zip (f <$> l) (g <$> l) = (λ x, (f x, g x)) <$> l.
Proof. induction l as [|x l IH]; simpl; [done | by f_equal]. Qed.

(** The index arrays of [inverse_transform] on the grid of the
    transformer. *)
Lemma coords_index_fitted (ax1 ax2 : nat) :
  coords_index E t (Z.to_nat px.1) (Z.to_nat px.2) ax1 ax2 = Ok (cell_of <$> cs).
Proof using t_fitted.
  destruct t_fitted as [Hne Hin]. unfold coords_index. fold cs px in Hne, Hin |- *.
  destruct cs as [|c0 cs0] eqn:Hcs; [done|]. rewrite <- Hcs in *.
  rewrite (mapM_total _ (λ c : pixel, Z.to_nat c.1)).
  2: { eapply Forall_impl; [exact Hin|]. intros c [Hr _]. simpl.
       apply np_index_in_range. lia. }
  simpl. rewrite (mapM_total _ (λ c : pixel, Z.to_nat c.2)).
  2: { eapply Forall_impl; [exact Hin|]. intros c [_ Hk]. simpl.
       apply np_index_in_range. lia. }
  simpl. by rewrite zip_fmap_fmap.
Qed.

(** With an injective mapping, reading a sample's image at the pixels of
    the features gives the sample back. *)
Lemma gather_painted (g0 : grid) (r : list Qc) :
  grid_shape px g0 → NoDup cs → length r = length cs →
  at2 0%Qc (foldl (paint idx r) g0 L) <$> (cell_of <$> cs) = r.
Proof using t_fitted.
  intros Hg0 Hnd Hlen. apply list_eq. intros f.
  rewrite !list_lookup_fmap.
  destruct (cs !! f) as [c|] eqn:Hc; simpl.
  - assert (c ∈ np_unique pixel_ltb cs) as Hcu.
    { apply np_unique_elem. by eapply list_elem_of_lookup_2. }
    assert ((index_of c (np_unique pixel_ltb cs), c) ∈ L) as HL.
    { apply elem_of_imap_pair. by apply index_of_lookup. }
    rewrite (foldl_paint_lookup idx r px L g0 (index_of c (np_unique pixel_ltb cs), c)).
    + simpl. subst idx. rewrite (np_where_eq_singleton cs f c) by done.
      unfold select. simpl. rewrite np_mean_singleton.
      destruct (lookup_lt_is_Some_2 r f) as [x Hx];
        [apply lookup_lt_Some in Hc; lia|].
      by rewrite Hx.
    + done.
    + subst L. rewrite imap_pair_snd.
      apply np_unique_NoDup;
        [exact pixel_ltb_trans | exact pixel_ltb_irrefl | exact pixel_ltb_total].
    + subst L. rewrite imap_pair_snd. apply Forall_forall. intros c' Hc'.
      destruct t_fitted as [_ Hin]. rewrite Forall_forall in Hin.
      apply Hin. by apply (np_unique_elem pixel_ltb).
    + done.
  - symmetry. apply lookup_ge_None. apply lookup_ge_None in Hc. lia.
Qed.
End image_matrix.

(** ** [transform] and [inverse_transform] on a fitted transformer *)

Lemma foldM_raises {A S} (f : S → A → result S) (Bad : exn → Prop) (l : list A) :
  (∀ s a, a ∈ l → is_Ok (f s a) ∨ ∃ e, f s a = Raise e ∧ Bad e) →
  (∃ a, a ∈ l ∧ ∀ s, is_Raise (f s a)) →
  ∀ s, ∃ e, foldM f l s = Raise e ∧ Bad e.
Proof.
  induction l as [|a l IH]; intros Hstep (a0 & Ha0 & Hraise) s.
  { by apply elem_of_nil in Ha0. }
  simpl. destruct (Hstep s a ltac:(left)) as [[s' Hs']|(e & He & Hbad)].
  - rewrite Hs'. simpl. apply IH.
    + intros s0 a' Ha'. apply Hstep. by right.
    + apply elem_of_cons in Ha0 as [->|Ha0].
      * destruct (Hraise s) as [e He]. congruence.
      * by exists a0.
  - rewrite He. simpl. by exists e.
Qed.

Lemma foldl_pointwise {A B} (f g : B → A → B) (l : list A) (b : B) :
  (∀ b a, f b a = g b a) → foldl f b l = foldl g b l.
Proof.
  intros Hfg. revert b. induction l as [|a l IH]; intros b; simpl; [done|].
  by rewrite Hfg, IH.
Qed.

Section transform_facts.
Context (E : externals) (t : ImageTransformer E).
Hypothesis t_fitted : fitted t.

Let px := _pixels E t.
Let cs := _coords E t.
Let idx := np_unique_inverse pixel_ltb cs.
Let L := imap pair (np_unique pixel_ltb cs).

(** Columns beyond the features play no role. *)
Lemma img_matrix_of_truncate (X : matrix) (empty_value : Qc) :
  (length cs ≤ n_cols X)%nat →
  img_matrix_of E t X empty_value
  = img_matrix_of E t (truncate (length cs) X) empty_value.
Proof using t_fitted.
  intros Hn. rewrite !(img_matrix_of_fitted E t t_fitted) by (fold cs; simpl; lia).
  f_equal. simpl. rewrite <- list_fmap_compose. apply list_fmap_ext.
  intros i r _. simpl. apply foldl_pointwise. intros g ic. unfold paint.
  rewrite select_take; [done|].
  eapply Forall_impl; [apply np_where_eq_bound|]. intros f Hf. simpl in Hf.
  by rewrite length_np_unique_inverse in Hf.
Qed.

(** With fewer columns than features the loop leaves by an index error on
    the column axis. *)
Lemma img_matrix_of_too_narrow (X : matrix) (empty_value : Qc) :
  (n_cols X < length cs)%nat →
  ∃ f, (n_cols X ≤ f < length cs)%nat
       ∧ img_matrix_of E t X empty_value
         = Raise (IndexError (Z.of_nat f) 1 (n_cols X)).
Proof using t_fitted.
  intros Hn. destruct (fitted_grid_positive E t t_fitted) as [Hh Hw].
  fold px in Hh, Hw.
  unfold img_matrix_of, np_zeros3. fold px cs idx L.
  rewrite decide_False by lia. simpl.
  match goal with |- context [foldM _ L ?img0] => generalize img0 end.
  intros img0.
  destruct (foldM_raises (img_matrix_step px X idx)
              (λ e, ∃ f, (n_cols X ≤ f < length cs)%nat
                         ∧ e = IndexError (Z.of_nat f) 1 (n_cols X)) L)
    with (s := img0) as (e & He & f & Hf & ->).
  - intros img [i c] Hic. simpl in *. unfold img_matrix_step. simpl.
    destruct (take_columns_cases X (np_where_eq idx i))
      as [[sel Hsel]|(f & Hf & Hge & Hraise)].
    + left. rewrite Hsel. simpl. rewrite set_pixel_all_Ok; [by eexists|].
      destruct t_fitted as [_ Hin]. rewrite Forall_forall in Hin. apply Hin.
      apply (np_unique_elem pixel_ltb). apply elem_of_imap_pair in Hic.
      by eapply list_elem_of_lookup_2.
    + right. rewrite Hraise. simpl. eexists. split; [done|]. exists f. split; [|done].
      split; [done|]. apply elem_of_np_where_eq, lookup_lt_Some in Hf.
      subst idx. by rewrite length_np_unique_inverse in Hf.
  - destruct (lookup_lt_is_Some_2 cs (n_cols X) Hn) as [c Hc].
    exists (index_of c (np_unique pixel_ltb cs), c). split.
    + apply elem_of_imap_pair, index_of_lookup, np_unique_elem.
      by eapply list_elem_of_lookup_2.
    + intros img. unfold img_matrix_step. simpl.
      destruct (take_columns_raises X
                  (np_where_eq idx (index_of c (np_unique pixel_ltb cs))) (n_cols X))
        as [e He]; [|lia|by rewrite He; eexists].
      apply elem_of_np_where_eq. subst idx. unfold np_unique_inverse.
      by rewrite list_lookup_fmap, Hc.
  - exists f. by rewrite He.
Qed.

End transform_facts.

(** ** Binning, and what [fit] establishes *)

Lemma floor_int_in_range E (v : Qc) (d : Z) :
  (0 ≤ v ≤ Qc_of_Z d)%Qc → 0 ≤ floor_int E (Fin v) ≤ d.
Proof.
  intros [Hlo Hhi]. simpl. split.
  - rewrite <- (Qfloor_Z 0). apply Qfloor_resp_le. exact Hlo.
  - rewrite <- (Qfloor_Z d). apply Qfloor_resp_le. exact Hhi.
Qed.

(** Binning keeps every point with a range on both axes within the grid:
    the floor of a coordinate in [0, d] is in [0, d], and [d] itself is
    moved into the last bin. *)
Lemma coordinate_binning_in_grid E position px_size :
  0 < px_size.1 → 0 < px_size.2 →
  ¬ zero_range position.*1 → ¬ zero_range position.*2 →
  ∃ m, coordinate_binning E position px_size = Ok m
    ∧ length m = length position
    ∧ Forall (in_grid px_size) m.
Proof.
  intros Hh Hw Hr1 Hr2.
  assert (position ≠ []) as Hne.
  { intros ->. apply Hr1. intros a b Ha. by apply elem_of_nil in Ha. }
  destruct (scale_coordinates_spec position px_size Hne)
    as (scaled & Hscaled & Hlen & _ & _ & Hfin1 & Hfin2).
  specialize (Hfin1 Hr1 ltac:(lia)). specialize (Hfin2 Hr2 ltac:(lia)).
  unfold coordinate_binning. rewrite Hscaled. simpl.
  eexists. split; [reflexivity|]. split; [by rewrite !length_fmap|].
  rewrite <- !list_fmap_compose. apply Forall_fmap, Forall_forall.
  intros s Hs. rewrite Forall_forall in Hfin1, Hfin2.
  destruct (Hfin1 s Hs) as (v1 & Hv1 & Hb1). destruct (Hfin2 s Hs) as (v2 & Hv2 & Hb2).
  unfold in_grid. simpl. rewrite Hv1, Hv2.
  pose proof (floor_int_in_range E v1 px_size.1 Hb1).
  pose proof (floor_int_in_range E v2 px_size.2 Hb2).
  repeat case_decide; lia.
Qed.

Section fit_facts.
Context (E : externals) (t t' : ImageTransformer E) (X : matrix).
Hypothesis fit_ok : fit E t X = (Ok (), t').
Hypothesis ranges :
  ¬ zero_range (_xrot E t').*1 ∧ ¬ zero_range (_xrot E t').*2.

(** A fit with binning leaves the transformer in state Fit, on every
    grid. *)
Lemma fit_binning_fitted :
  _dm E t = m_coordinate_binning →
  0 < (_pixels E t).1 → 0 < (_pixels E t).2 →
  fitted t'.
Proof using fit_ok ranges.
  intros Hdm Hh Hw. destruct ranges as [Hr1 Hr2].
  apply fit_Ok_inv in fit_ok as (fe' & x_new & xrot & c & _ & _ & Hc & ->).
  simpl in *. rewrite Hdm in Hc. simpl in Hc.
  destruct (coordinate_binning_in_grid E xrot (_pixels E t) Hh Hw Hr1 Hr2)
    as (m & Hm & Hlen & Hgrid).
  rewrite Hm in Hc. injection Hc as <-. split; simpl; [|done].
  intros ->. simpl in Hlen. destruct xrot; [|done].
  apply Hr1. intros a b Ha. by apply elem_of_nil in Ha.
Qed.

(** A fit with exact assignment leaves the transformer in state Fit on a
    square grid that has room for the features, with an injective
    mapping. *)
Lemma fit_exact_assignment_square_fitted n :
  solver_contract (linear_sum_assignment E) →
  _dm E t = m_coordinate_optimal_assignment →
  _pixels E t = (n, n) → 0 < n →
  Z.of_nat (length (_xrot E t')) ≤ n * n →
  fitted t' ∧ NoDup (_coords E t').
Proof using fit_ok ranges.
  intros Hlsa Hdm Hpx Hn Hroom. destruct ranges as [Hr1 Hr2].
  apply fit_Ok_inv in fit_ok as (fe' & x_new & xrot & c & _ & _ & Hc & ->).
  simpl in *. rewrite Hdm, Hpx in Hc. simpl in Hc.
  destruct (coordinate_optimal_assignment_square E Hlsa xrot n Hn Hroom Hr1 Hr2)
    as (m & Hm & Hgrid).
  rewrite Hm in Hc. injection Hc as <-.
  destruct (coordinate_optimal_assignment_NoDup E Hlsa xrot (n, n) m) as [Hlen Hnd];
    [done | done |].
  split; [split|]; simpl; [|by rewrite Hpx|done].
  intros ->. simpl in Hlen. destruct xrot; [|done].
  apply Hr1. intros a b Ha. by apply elem_of_nil in Ha.
Qed.
End fit_facts.

(** ** Facts about the example inputs *)

Lemma three_points_have_ranges :
  ¬ zero_range three_points.*1 ∧ ¬ zero_range three_points.*2.
Proof.
  split; intros Hz.
  - specialize (Hz (qz 0) (qz 1)). simpl in Hz.
    assert (qz 0 = qz 1) as Heq by (apply Hz; set_solver). discriminate.
  - specialize (Hz (qz 0) (qz 3)). simpl in Hz.
    assert (qz 0 = qz 3) as Heq by (apply Hz; set_solver). discriminate.
Qed.

Lemma fitted_bin_2x2_fitted :
  fitted fitted_bin_2x2 ∧ NoDup (_coords reference fitted_bin_2x2).
Proof.
  split; [split|].
  - discriminate.
  - apply (bool_decide_unpack _). vm_compute. reflexivity.
  - apply (bool_decide_unpack _). vm_compute. reflexivity.
Qed.

(** After the fit with exact assignment on the grid (1, 3) the mapping is
    injective but leaves the grid, and [transform] raises: index 1 is out of
    bounds for the row axis of size 1. *)
Lemma transform_raises_outside_grid :
  NoDup (_coords reference (fit reference lsa_1x3 one_sample).2)
  ∧ transform reference (fit reference lsa_1x3 one_sample).2 one_sample "scalar" 0%Qc
    = Raise (IndexError 1 1 1).
Proof.
  split; [apply (bool_decide_unpack _) | ]; vm_compute; reflexivity.
Qed.

(** ** More on binning *)

Lemma Ok_inj {A} (a b : A) : Ok a = Ok b → a = b.
Proof. congruence. Qed.

Local Open Scope Qc_scope.

Lemma range_ne_0 (lo hi : Qc) : lo < hi → hi - lo ≠ 0.
Proof.
  intros Hr Heq. apply Qclt_minus_iff in Hr. unfold Qcminus in Heq.
  rewrite Heq in Hr. by apply (Qclt_not_eq 0 0).
Qed.

Lemma scale1_Fin lo hi d x :
  lo < hi → scale1 lo hi d x = Fin ((x - lo) / (hi - lo) * Qc_of_Z d).
Proof.
  intros Hr. unfold scale1, fl_div.
  rewrite decide_False; [done|]. by apply range_ne_0.
Qed.

Lemma Qcdiv_le_mono_r (x y r : Qc) : 0 < r → x ≤ y → x / r ≤ y / r.
Proof.
  intros Hr Hxy. apply (Qcmult_lt_0_le_reg_r _ _ r); [done|].
  assert (r ≠ 0) as Hne by (intros ->; by apply (Qclt_not_eq 0 0)).
  rewrite !(Qcmult_comm _ r), !Qcmult_div_r by done. done.
Qed.

Lemma scale1_mono lo hi d x y :
  lo < hi → (0 ≤ d)%Z → x ≤ y →
  ∃ vx vy, scale1 lo hi d x = Fin vx ∧ scale1 lo hi d y = Fin vy ∧ vx ≤ vy.
Proof.
  intros Hr Hd Hxy. rewrite !scale1_Fin by done. eexists _, _.
  split; [done|]. split; [done|].
  apply Qcmult_le_compat_r; [|by apply Qc_of_Z_nonneg].
  apply Qcdiv_le_mono_r; [by apply Qclt_minus_iff in Hr|].
  unfold Qcminus. by apply Qcplus_le_mono_r.
Qed.

Lemma scale1_lo lo hi d : lo < hi → scale1 lo hi d lo = Fin 0.
Proof.
  intros Hr. rewrite scale1_Fin by done. f_equal.
  assert (lo - lo = 0) as -> by by apply Qcminus_diag_eq.
  unfold Qcdiv. by rewrite !Qcmult_0_l.
Qed.

Lemma scale1_hi lo hi d : lo < hi → scale1 lo hi d hi = Fin (Qc_of_Z d).
Proof.
  intros Hr. rewrite scale1_Fin by done. f_equal.
  unfold Qcdiv. rewrite Qcmult_inv_r, Qcmult_1_l; [done|]. by apply range_ne_0.
Qed.

Local Close Scope Qc_scope.

Lemma floor_int_Fin_mono E (v w : Qc) :
  (v ≤ w)%Qc → floor_int E (Fin v) ≤ floor_int E (Fin w).
Proof. intros H. simpl. by apply Qfloor_resp_le. Qed.

Lemma floor_int_Qc_of_Z E (d : Z) : floor_int E (Fin (Qc_of_Z d)) = d.
Proof. simpl. apply Qfloor_Z. Qed.

Lemma clamp_bin_mono d a b : a ≤ b ≤ d → clamp_bin d a ≤ clamp_bin d b.
Proof. unfold clamp_bin. repeat case_decide; lia. Qed.

(** Binning in closed form: every coordinate is scaled on its axis,
    floored, and moved down from the border. *)
Lemma coordinate_binning_axes E p ps px_size :
  coordinate_binning E (p :: ps) px_size
  = Ok ((λ q : point,
           (clamp_bin px_size.1
              (floor_int E (scale1 (foldl Qc_min p.1 ps.*1) (foldl Qc_max p.1 ps.*1)
                              px_size.1 q.1)),
            clamp_bin px_size.2
              (floor_int E (scale1 (foldl Qc_min p.2 ps.*2) (foldl Qc_max p.2 ps.*2)
                              px_size.2 q.2))))
        <$> p :: ps).
Proof.
  unfold coordinate_binning. rewrite scale_coordinates_axes. cbv zeta. simpl bind.
  f_equal. rewrite <- !list_fmap_compose. done.
Qed.

Lemma lowest_is_min x l v : v ∈ x :: l → lowest (x :: l) v → v = foldl Qc_min x l.
Proof.
  intros Hv Hlow. destruct (foldl_Qc_min_spec l x) as [Hin Hle].
  apply Qcle_antisym; [by apply Hlow | by apply Hle].
Qed.

Lemma highest_is_max x l v : v ∈ x :: l → highest (x :: l) v → v = foldl Qc_max x l.
Proof.
  intros Hv Hhigh. destruct (foldl_Qc_max_spec l x) as [Hin Hle].
  apply Qcle_antisym; [by apply Hle | by apply Hhigh].
Qed.

(** The bin of one coordinate on an axis with a range. *)
Lemma bin_of_axis E x l d v :
  ¬ zero_range (x :: l) → 0 < d → v ∈ x :: l →
  ∀ b, b = clamp_bin d (floor_int E (scale1 (foldl Qc_min x l) (foldl Qc_max x l) d v)) →
  0 ≤ b ≤ d - 1 ∧ (lowest (x :: l) v → b = 0) ∧ (highest (x :: l) v → b = d - 1).
Proof.
  intros Hr Hd Hv b ->.
  pose proof (range_min_lt_max x l Hr) as Hlt.
  split; [|split].
  - destruct (scale1_in_range (foldl Qc_min x l) (foldl Qc_max x l) d v) as (w & -> & Hw);
      [done | by apply foldl_Qc_min_spec | by apply foldl_Qc_max_spec | lia |].
    pose proof (floor_int_in_range E w d Hw). unfold clamp_bin. case_decide; lia.
  - intros Hlow. rewrite (lowest_is_min x l v Hv Hlow), scale1_lo by done.
    assert (floor_int E (Fin 0%Qc) = 0) as -> by (simpl; apply (Qfloor_Z 0)).
    unfold clamp_bin. case_decide; lia.
  - intros Hhigh. rewrite (highest_is_max x l v Hv Hhigh), scale1_hi by done.
    rewrite floor_int_Qc_of_Z. unfold clamp_bin. by rewrite decide_True.
Qed.

(** ** More on the image matrix *)

Lemma elem_of_features_at cs c f : f ∈ features_at cs c ↔ cs !! f = Some c.
Proof.
  unfold features_at. rewrite list_elem_of_filter, elem_of_seq. split; [by intros [? _]|].
  intros Hf. split; [done|]. apply lookup_lt_Some in Hf. lia.
Qed.

Lemma features_at_nil cs c : features_at cs c = [] ↔ c ∉ cs.
Proof.
  split.
  - intros Hnil Hc. apply list_elem_of_lookup in Hc as [f Hf].
    apply elem_of_features_at in Hf. rewrite Hnil in Hf. by apply elem_of_nil in Hf.
  - intros Hc. apply filter_none. intros f _ Hf. apply Hc.
    by eapply list_elem_of_lookup_2.
Qed.

(** The group of the [i]-th distinct pixel, as [transform] computes it from
    the inverse of [np.unique], is the set of the features mapped to it. *)
Lemma np_where_eq_features_at (cs : list pixel) c :
  c ∈ cs →
  np_where_eq (np_unique_inverse pixel_ltb cs) (index_of c (np_unique pixel_ltb cs))
  = features_at cs c.
Proof.
  intros Hc. unfold np_where_eq, features_at. rewrite length_np_unique_inverse.
  apply list_filter_iff. intros f. unfold np_unique_inverse.
  rewrite list_lookup_fmap. destruct (cs !! f) as [c'|] eqn:Hc'; simpl; [|done].
  split.
  - intros [= Heq]. f_equal.
    eapply index_of_inj; [| |exact Heq]; apply np_unique_elem;
      [by eapply list_elem_of_lookup_2 | done].
  - by intros [= ->].
Qed.

Lemma at2_initial_grid px_size empty_value c :
  in_grid px_size c → at2 0%Qc (initial_grid px_size empty_value) (cell_of c) = empty_value.
Proof.
  intros [Hr Hk]. unfold at2, initial_grid, cell_of. simpl.
  case_decide as Hev.
  - rewrite list_lookup_fmap, lookup_replicate_2 by lia. simpl.
    rewrite list_lookup_fmap, lookup_replicate_2 by lia. done.
  - rewrite lookup_replicate_2 by lia. simpl.
    rewrite lookup_replicate_2 by lia. simpl.
    destruct (decide (empty_value = 0%Qc)) as [->|]; [done|]. by destruct Hev.
Qed.

Section painted_images.
Context (E : externals) (t : ImageTransformer E).
Hypothesis t_fitted : fitted t.

Let px := _pixels E t.
Let cs := _coords E t.
Let idx := np_unique_inverse pixel_ltb cs.
Let L := imap pair (np_unique pixel_ltb cs).

(** A pixel of a painted image holds the mean of its group, and what it
    held before when no feature is mapped to it. *)
Lemma painted_pixel (g0 : grid) (r : list Qc) (c : pixel) :
  grid_shape px g0 → in_grid px c →
  at2 0%Qc (foldl (paint idx r) g0 L) (cell_of c)
  = match features_at cs c with
    | [] => at2 0%Qc g0 (cell_of c)
    | fs => np_mean (select fs r)
    end.
Proof using t_fitted.
  intros Hg0 Hc. destruct t_fitted as [_ Hin]. fold px cs in Hin.
  rewrite Forall_forall in Hin.
  assert (Forall (in_grid px) L.*2) as HinL.
  { subst L. rewrite imap_pair_snd. apply Forall_forall. intros c' Hc'.
    apply Hin. by apply (np_unique_elem pixel_ltb). }
  destruct (decide (c ∈ cs)) as [Hcs | Hcs].
  - assert ((index_of c (np_unique pixel_ltb cs), c) ∈ L) as HL.
    { apply elem_of_imap_pair, index_of_lookup. by apply np_unique_elem. }
    rewrite (foldl_paint_lookup idx r px L g0
               (index_of c (np_unique pixel_ltb cs), c) Hg0); [| |done|exact HL].
    + simpl. subst idx. rewrite np_where_eq_features_at by done.
      destruct (features_at cs c) eqn:Hfs; [|done].
      apply features_at_nil in Hfs. done.
    + subst L. rewrite imap_pair_snd.
      apply np_unique_NoDup;
        [exact pixel_ltb_trans | exact pixel_ltb_irrefl | exact pixel_ltb_total].
  - rewrite foldl_paint_other.
    + apply features_at_nil in Hcs. by rewrite Hcs.
    + intros Hel. apply list_elem_of_fmap in Hel as (c' & Heq & Hc').
      rewrite Forall_forall in HinL.
      apply (cell_of_inj px) in Heq; [|done|by apply HinL]. subst c'.
      subst L. rewrite imap_pair_snd in Hc'. by apply np_unique_elem in Hc'.
Qed.

(** The scalar image of a fitted transformer. *)
Lemma transform_scalar_fitted (X : matrix) (empty_value : Qc) :
  (length cs ≤ n_cols X)%nat →
  transform E t X "scalar" empty_value
  = Ok (Numpy (Arr3 (Z.to_nat px.1) (Z.to_nat px.2)
         ((λ r, foldl (paint idx r) (initial_grid px empty_value) L) <$> rows X))).
Proof using t_fitted.
  intros Hn. unfold transform. by rewrite (img_matrix_of_fitted E t t_fitted).
Qed.

(** The pytorch image of a fitted transformer. *)
Lemma transform_pytorch_fitted (X : matrix) (empty_value : Qc) :
  (length cs ≤ n_cols X)%nat →
  transform E t X "pytorch" empty_value
  = Ok (Torch (_mat_to_pytorch px
         ((λ r, foldl (paint idx r) (initial_grid px empty_value) L) <$> rows X))).
Proof using t_fitted.
  intros Hn. unfold transform. by rewrite (img_matrix_of_fitted E t t_fitted).
Qed.
End painted_images.

Lemma at2_in_shape {A} (d : A) px_size (g : list (list A)) c :
  length g = Z.to_nat px_size.1 →
  Forall (λ row, length row = Z.to_nat px_size.2) g →
  in_grid px_size c →
  ∃ row v, g !! (cell_of c).1 = Some row ∧ row !! (cell_of c).2 = Some v
           ∧ at2 d g (cell_of c) = v.
Proof.
  intros Hlen Hrows [Hr Hk]. unfold cell_of, at2. simpl.
  destruct (lookup_lt_is_Some_2 g (Z.to_nat c.1)) as [row Hrow]; [lia|].
  rewrite Forall_forall in Hrows.
  destruct (lookup_lt_is_Some_2 row (Z.to_nat c.2)) as [v Hv].
  { rewrite (Hrows row) by (by eapply list_elem_of_lookup_2). lia. }
  exists row, v. rewrite Hrow. simpl. by rewrite Hv.
Qed.

(** Reading a pixel of an image whose values were repeated over three
    channels. *)
Lemma at2_rgb px_size (g : grid) c :
  grid_shape px_size g → in_grid px_size c →
  at2 [] ((λ row : list Qc, (λ v, [v; v; v]) <$> row) <$> g) (cell_of c)
  = [at2 0%Qc g (cell_of c); at2 0%Qc g (cell_of c); at2 0%Qc g (cell_of c)].
Proof.
  intros [Hlen Hrows] Hc.
  destruct (at2_in_shape 0%Qc px_size g c Hlen Hrows Hc) as (row & v & Hrow & Hv & ->).
  unfold at2, cell_of in *. simpl in *.
  rewrite list_lookup_fmap, Hrow. simpl. by rewrite list_lookup_fmap, Hv.
Qed.

Section round_trips.
Context (E : externals) (t : ImageTransformer E).
Hypothesis t_fitted : fitted t.

Let px := _pixels E t.
Let cs := _coords E t.
Let idx := np_unique_inverse pixel_ltb cs.
Let L := imap pair (np_unique pixel_ltb cs).

(** Reading a painted image at the pixel of a feature gives the mean of
    the feature's group. *)
Lemma painted_feature (g0 : grid) (r : list Qc) (c : pixel) :
  grid_shape px g0 → c ∈ cs →
  at2 0%Qc (foldl (paint idx r) g0 L) (cell_of c) = group_mean cs r c.
Proof using t_fitted.
  intros Hg0 Hc. pose proof t_fitted as [_ Hin]. fold px cs in Hin.
  rewrite Forall_forall in Hin.
  rewrite (painted_pixel E t t_fitted) by (done || by apply Hin).
  fold cs. unfold group_mean. destruct (features_at cs c) eqn:Hfs; [|done].
  by apply features_at_nil in Hfs.
Qed.
End round_trips.

(** ** Messages *)

Lemma string_app_assoc (a b c : string) : (a +:+ b) +:+ c = a +:+ (b +:+ c).
Proof.
  induction a as [|x a IH]; [done|].
  change (String x ((a +:+ b) +:+ c) = String x (a +:+ (b +:+ c))). by f_equal.
Qed.

Lemma string_app_empty_r (a : string) : a +:+ "" = a.
Proof.
  induction a as [|x a IH]; [done|].
  change (String x (a +:+ "") = String x a). by f_equal.
Qed.

Lemma names_at_end (pre v : string) : names v (pre +:+ v).
Proof. exists pre, ""%string. by rewrite string_app_empty_r. Qed.

Lemma names_app_l (a v msg : string) : names v msg → names v (a +:+ msg).
Proof.
  intros (pre & suf & ->). exists (a +:+ pre), suf. by rewrite string_app_assoc.
Qed.

(** ** The feature density matrix *)

Lemma at2_add_one_at_eq (g : grid) (r k : nat) (px_size : pixel) :
  grid_shape px_size g → (r < Z.to_nat px_size.1)%nat → (k < Z.to_nat px_size.2)%nat →
  at2 0%Qc (add_one_at g (r, k)) (r, k) = (1 + at2 0%Qc g (r, k))%Qc.
Proof.
  intros [Hlen Hrows] Hr Hk. unfold at2, add_one_at. simpl.
  destruct (lookup_lt_is_Some_2 g r) as [row Hrow]; [lia|].
  rewrite list_lookup_alter_eq, Hrow. simpl.
  rewrite Forall_forall in Hrows.
  destruct (lookup_lt_is_Some_2 row k) as [v Hv].
  { rewrite (Hrows row) by (by eapply list_elem_of_lookup_2). lia. }
  by rewrite list_lookup_alter_eq, Hv.
Qed.

Lemma at2_add_one_at_ne (g : grid) (rk p : nat * nat) :
  rk ≠ p → at2 0%Qc (add_one_at g rk) p = at2 0%Qc g p.
Proof.
  destruct rk as [r k], p as [r' k']. intros Hne. unfold at2, add_one_at. simpl.
  destruct (decide (r = r')) as [->|Hr].
  - rewrite list_lookup_alter_eq. destruct (g !! r') as [row|]; simpl; [|done].
    rewrite list_lookup_alter_ne; [done|]. intros ->. by apply Hne.
  - by rewrite list_lookup_alter_ne.
Qed.

Lemma grid_shape_add_one_at px_size (g : grid) rk :
  grid_shape px_size g → grid_shape px_size (add_one_at g rk).
Proof.
  intros [Hlen Hrows]. unfold add_one_at. split; [by rewrite length_alter|].
  apply Forall_alter; [done|]. intros row _ Hrow. simpl in *. by rewrite length_alter.
Qed.

Lemma count_of_cons {A} `{EqDecision A} (x y : A) l :
  count_of x (y :: l) = if decide (y = x) then S (count_of x l) else count_of x l.
Proof. unfold count_of. rewrite filter_cons. by case_decide. Qed.

(** After the additions a cell holds what it held plus the number of index
    pairs that address it. *)
Lemma foldl_add_one_at_cell px_size (ix : list (nat * nat)) (p : nat * nat) : ∀ g,
  grid_shape px_size g → (p.1 < Z.to_nat px_size.1)%nat → (p.2 < Z.to_nat px_size.2)%nat →
  at2 0%Qc (foldl add_one_at g ix) p
  = (Qc_of_Z (Z.of_nat (count_of p ix)) + at2 0%Qc g p)%Qc.
Proof.
  induction ix as [|rk ix IH]; intros g Hg Hr Hk.
  - change (count_of p []) with 0%nat. change (Z.of_nat 0) with 0.
    by rewrite Z2Qc_inj_0, Qcplus_0_l.
  - change (foldl add_one_at g (rk :: ix)) with (foldl add_one_at (add_one_at g rk) ix).
    rewrite IH by (done || by apply grid_shape_add_one_at).
    rewrite count_of_cons. case_decide as Heq.
    + subst rk. destruct p as [r k].
      rewrite (at2_add_one_at_eq g r k px_size) by done.
      rewrite Nat2Z.inj_succ, <- Z.add_1_r, Z2Qc_inj_add, Z2Qc_inj_1. ring.
    + by rewrite at2_add_one_at_ne.
Qed.

Lemma count_of_fmap_inj {A B} `{EqDecision A, EqDecision B} (f : A → B) (x : A) l :
  (∀ y, y ∈ l → f y = f x → y = x) →
  count_of (f x) (f <$> l) = count_of x l.
Proof.
  induction l as [|y l IH]; intros Hinj; [done|].
  rewrite fmap_cons, !count_of_cons.
  rewrite IH by (intros z Hz; apply Hinj; by right).
  destruct (decide (y = x)) as [->|Hne]; [by rewrite decide_True|].
  rewrite decide_False; [done|]. intros Heq. apply Hne, Hinj; [left|done].
Qed.

Lemma filter_ext_elem {A} (P Q : A → Prop) `{∀ x, Decision (P x), ∀ x, Decision (Q x)}
    (l : list A) :
  (∀ x, x ∈ l → P x ↔ Q x) → filter P l = filter Q l.
Proof.
  induction l as [|a l IH]; intros Hl; [done|].
  rewrite !filter_cons. rewrite IH by (intros x Hx; apply Hl; by right).
  destruct (decide (P a)) as [HP|HP], (decide (Q a)) as [HQ|HQ]; try done.
  - destruct HQ. apply (Hl a); [left|done].
  - destruct HP. apply (Hl a); [left|done].
Qed.

Lemma length_features_at cs c : length (features_at cs c) = count_of c cs.
Proof.
  unfold features_at, count_of. induction cs as [|c' cs IH] using rev_ind; [done|].
  rewrite length_app. simpl. rewrite Nat.add_1_r, seq_S, !filter_app, !length_app.
  f_equal.
  - rewrite <- IH. f_equal. apply filter_ext_elem. intros f Hf.
    apply elem_of_seq in Hf. by rewrite lookup_app_l by lia.
  - simpl. rewrite !filter_cons, !filter_nil.
    rewrite list_lookup_middle by done.
    destruct (decide (c' = c)) as [->|Hne].
    + by rewrite decide_True.
    + rewrite decide_False; [done|]. by intros [= ?].
Qed.

(** The sum of the cells grows by one with every addition within the
    grid. *)
Lemma Qc_sum_app (a b : list Qc) : Qc_sum (a ++ b) = (Qc_sum a + Qc_sum b)%Qc.
Proof.
  induction a as [|x a IH]; simpl.
  - by rewrite Qcplus_0_l.
  - rewrite IH. ring.
Qed.

Lemma Qc_sum_alter_add (row : list Qc) (k : nat) :
  (k < length row)%nat → Qc_sum (alter (Qcplus 1) k row) = (1 + Qc_sum row)%Qc.
Proof.
  revert k; induction row as [|x row IH]; intros k Hk; simpl in Hk; [lia|].
  destruct k as [|k].
  - change ((1 + x + Qc_sum row)%Qc = (1 + (x + Qc_sum row))%Qc). ring.
  - change ((x + Qc_sum (alter (Qcplus 1) k row))%Qc = (1 + (x + Qc_sum row))%Qc).
    rewrite IH by lia. ring.
Qed.

Lemma grid_total_add_one_at px_size (g : grid) (rk : nat * nat) :
  grid_shape px_size g → (rk.1 < Z.to_nat px_size.1)%nat → (rk.2 < Z.to_nat px_size.2)%nat →
  grid_total (add_one_at g rk) = (1 + grid_total g)%Qc.
Proof.
  intros [Hlen Hrows] Hr Hk. unfold grid_total, add_one_at.
  destruct rk as [r k]. simpl in *. rewrite <- Hlen in Hr. clear Hlen.
  revert r Hr; induction g as [|row g IH]; intros r Hr; simpl in Hr; [lia|].
  apply Forall_cons in Hrows as [Hrow Hrows].
  destruct r as [|r].
  - change (Qc_sum (alter (Qcplus 1) k row ++ concat g)
            = (1 + Qc_sum (row ++ concat g))%Qc).
    rewrite !Qc_sum_app, Qc_sum_alter_add by lia. ring.
  - change (Qc_sum (row ++ concat (alter (alter (Qcplus 1) k) r g))
            = (1 + Qc_sum (row ++ concat g))%Qc).
    rewrite !Qc_sum_app, IH by (done || lia). ring.
Qed.

Lemma grid_total_foldl_add_one_at px_size (ix : list (nat * nat)) : ∀ g,
  grid_shape px_size g →
  Forall (λ rk, (rk.1 < Z.to_nat px_size.1)%nat ∧ (rk.2 < Z.to_nat px_size.2)%nat) ix →
  grid_total (foldl add_one_at g ix)
  = (Qc_of_Z (Z.of_nat (length ix)) + grid_total g)%Qc.
Proof.
  induction ix as [|rk ix IH]; intros g Hg Hix.
  - change (Z.of_nat (length (@nil (nat * nat)))) with 0.
    by rewrite Z2Qc_inj_0, Qcplus_0_l.
  - apply Forall_cons in Hix as [[Hr Hk] Hix].
    change (foldl add_one_at g (rk :: ix)) with (foldl add_one_at (add_one_at g rk) ix).
    rewrite IH by (done || by apply grid_shape_add_one_at).
    rewrite (grid_total_add_one_at px_size) by done.
    rewrite length_cons, Nat2Z.inj_succ, <- Z.add_1_r, Z2Qc_inj_add, Z2Qc_inj_1. ring.
Qed.

Lemma grid_total_zeros (h w : nat) : grid_total (replicate h (replicate w 0%Qc)) = 0%Qc.
Proof.
  unfold grid_total. induction h as [|h IH]; simpl; [done|].
  rewrite Qc_sum_app, IH, Qcplus_0_r.
  clear IH. induction w as [|w IH]; simpl; [done|]. by rewrite IH, Qcplus_0_l.
Qed.

Lemma grid_shape_zeros px_size :
  grid_shape px_size (replicate (Z.to_nat px_size.1) (replicate (Z.to_nat px_size.2) 0%Qc)).
Proof.
  split; [by rewrite length_replicate|].
  apply Forall_replicate. by rewrite length_replicate.
Qed.

Lemma at2_zeros (h w : nat) p : at2 0%Qc (replicate h (replicate w 0%Qc)) p = 0%Qc.
Proof.
  unfold at2. destruct (replicate h (replicate w 0%Qc) !! p.1) as [row|] eqn:Hrow; [|done].
  apply lookup_replicate in Hrow as [-> _]. simpl.
  destruct (replicate w 0%Qc !! p.2) as [v|] eqn:Hv; [|done].
  by apply lookup_replicate in Hv as [-> _].
Qed.

(** ** More on the assignment discretizers *)

Lemma np_index_nonneg size axis k i :
  0 ≤ k → np_index size axis k = Ok i → i = Z.to_nat k ∧ (i < size)%nat.
Proof.
  intros Hk. unfold np_index. repeat case_decide; intros Heq; try discriminate;
    injection Heq as <-; lia.
Qed.

Lemma getitem_Ok_inv {A} (a : list A) k v :
  getitem a k = Ok v →
  ∃ i, np_index (length a) 0 k = Ok i ∧ a !! i = Some v.
Proof.
  unfold getitem. intros H. apply bind_Ok_inv in H as (i & Hi & H).
  exists i. split; [done|]. destruct (a !! i); [by injection H as -> | discriminate].
Qed.

Lemma setitem_Raise_inv {A} (a : list A) k v e :
  setitem a k v = Raise e → e = IndexError k 0 (length a).
Proof.
  unfold setitem, np_index. repeat case_decide; simpl; intros Heq; try discriminate.
  by injection Heq as <-.
Qed.

Lemma foldM_Raise_inv {A S} (f : S → A → result S) (I : S → Prop) (Bad : exn → Prop) :
  (∀ s a s', I s → f s a = Ok s' → I s') →
  (∀ s a e, I s → f s a = Raise e → Bad e) →
  ∀ l s e, I s → foldM f l s = Raise e → Bad e.
Proof.
  intros Hok Hbad. induction l as [|a l IH]; intros s e Hs Hrun; simpl in Hrun; [done|].
  destruct (f s a) as [s'|e'] eqn:Hf; simpl in Hrun.
  - eapply IH; [|exact Hrun]. by eapply Hok.
  - injection Hrun as <-. by eapply Hbad.
Qed.

(** The enumeration of the centroids raises nothing but the index error of
    a write behind the end of the array. *)
Lemma calculate_pixel_centroids_Raise_inv uninit px_size e :
  0 ≤ px_size.1 * px_size.2 →
  calculate_pixel_centroids uninit px_size = Raise e →
  ∃ k, e = IndexError k 0 (Z.to_nat (px_size.1 * px_size.2)).
Proof.
  intros Hn. unfold calculate_pixel_centroids, np_empty2.
  rewrite decide_False by lia. simpl. intros Hrun.
  destruct (foldM _ _ _) as [m|e'] eqn:Hloop; simpl in Hrun; [discriminate|].
  injection Hrun as <-.
  revert Hloop.
  apply (foldM_Raise_inv _
           (λ m : list fpoint, length m = Z.to_nat (px_size.1 * px_size.2))
           (λ e, ∃ k, e = IndexError k 0 (Z.to_nat (px_size.1 * px_size.2))));
    [| |by rewrite length_fmap, length_seq].
  - intros s i s'.
    apply (foldM_preserves _
             (λ m : list fpoint, length m = Z.to_nat (px_size.1 * px_size.2))).
    intros s0 j s1 Hs0 Hset. apply setitem_Ok_inv in Hset as [_ Hl]. congruence.
  - intros s i e0.
    apply (foldM_Raise_inv _
             (λ m : list fpoint, length m = Z.to_nat (px_size.1 * px_size.2))
             (λ e, ∃ k, e = IndexError k 0 (Z.to_nat (px_size.1 * px_size.2)))).
    + intros s0 j s1 Hs0 Hset. apply setitem_Ok_inv in Hset as [_ Hl]. congruence.
    + intros s0 j e1 Hs0 Hset. apply setitem_Raise_inv in Hset. rewrite Hs0 in Hset. eauto.
Qed.

(** What the decoding loop returns: every feature is resolved, through its
    label, to a row of the solution, and receives the pixel decoded from
    it. *)
Lemma assignment_postprocessing_Ok_inv position px_size sol labels m :
  assignment_postprocessing position px_size sol labels = Ok m →
  ∃ rs : list nat,
    length rs = length position
    ∧ Forall (λ r, r < length sol)%nat rs
    ∧ m = (λ r, decode_pixel px_size (default 0 (sol !! r))) <$> rs
    ∧ ∀ i r, rs !! i = Some r →
        ∃ l, labels !! i = Some l ∧ np_index (length sol) 0 l = Ok r.
Proof.
  unfold assignment_postprocessing, py_range. rewrite Z.sub_0_r.
  generalize (length position) as n. intros n. revert m.
  induction n as [|n IH] using nat_ind; intros m Hm.
  - simpl in Hm. injection Hm as <-. exists []. split_and!; [done|done|done|].
    intros i r Hr. done.
  - rewrite seqZ_S in Hm.
    assert (∀ (f : Z → result pixel) l1 l2 bs, mapM f (l1 ++ l2) = Ok bs →
              ∃ b1 b2, mapM f l1 = Ok b1 ∧ mapM f l2 = Ok b2 ∧ bs = b1 ++ b2) as Happ.
    { intros f l1 l2. induction l1 as [|a l1 IHl]; intros bs Hbs; simpl in *.
      - exists [], bs. by rewrite Hbs.
      - apply bind_Ok_inv in Hbs as (b & Hb & Hbs).
        apply bind_Ok_inv in Hbs as (bs' & Hbs' & Hbs). injection Hbs as <-.
        destruct (IHl _ Hbs') as (b1 & b2 & H1 & H2 & ->).
        exists (b :: b1), b2. rewrite Hb, H1. by split_and!. }
    apply Happ in Hm as (m1 & m2 & Hm1 & Hm2 & ->).
    destruct (IH _ Hm1) as (rs & Hlen & Hrs & -> & Hlab).
    simpl in Hm2. apply bind_Ok_inv in Hm2 as (c & Hc & Hm2). injection Hm2 as <-.
    apply bind_Ok_inv in Hc as (l & Hl & Hc).
    apply bind_Ok_inv in Hc as (ki & Hki & Hc). injection Hc as <-.
    apply getitem_Ok_inv in Hl as (i & Hi & Hl).
    apply np_index_nonneg in Hi as [-> _]; [|lia].
    apply getitem_Ok_inv in Hki as (r & Hr & Hki).
    exists (rs ++ [r]). split_and!.
    + rewrite length_app. simpl. lia.
    + apply Forall_app. split; [done|]. apply Forall_singleton.
      by apply lookup_lt_Some in Hki.
    + rewrite fmap_app. simpl. by rewrite Hki.
    + intros i r' Hi. destruct (decide (i < length rs)%nat) as [Hlt|Hge].
      * rewrite lookup_app_l in Hi by done. by apply Hlab.
      * rewrite lookup_app_r in Hi by lia.
        destruct (i - length rs)%nat as [|?] eqn:Hd; [|done].
        injection Hi as <-. exists l. split; [|done].
        replace i with (Z.to_nat (0 + Z.of_nat n)) by lia. done.
Qed.

(** The three steps the two assignment discretizers share, for the number
    [k] of assignments each of them allows. *)
Lemma assignment_pipeline_Ok_inv E (solve : list (list float) → result (list Z))
    position px_size k m :
  (let* dl := assignment_preprocessing E position px_size k in
   let* lsa := solve dl.1 in
   assignment_postprocessing position px_size lsa dl.2) = Ok m →
  ∃ scaled px_centers dist labels sol,
    length scaled = length position ∧ position ≠ []
    ∧ length px_centers = Z.to_nat (px_size.1 * px_size.2)
    ∧ (if decide (Z.of_nat (length position) > k)
       then ∃ centers, bisecting_kmeans E scaled k = Ok (labels, centers)
                       ∧ dist = cdist2 centers px_centers
       else dist = cdist2 scaled px_centers
            ∧ labels = py_range 0 (Z.of_nat (length position)))
    ∧ solve dist = Ok sol
    ∧ assignment_postprocessing position px_size sol labels = Ok m.
Proof.
  intros Hrun.
  apply bind_Ok_inv in Hrun as ([dist labels] & Hpre & Hrun).
  apply bind_Ok_inv in Hrun as (sol & Hsol & Hpost).
  unfold assignment_preprocessing in Hpre.
  apply bind_Ok_inv in Hpre as (scaled & Hscaled & Hpre).
  apply bind_Ok_inv in Hpre as (cs & Hcs & Hpre).
  apply scale_coordinates_Ok_length in Hscaled as [Hlen Hne].
  apply calculate_pixel_centroids_Ok_length in Hcs.
  exists scaled, cs, dist, labels, sol. rewrite Hlen in Hpre.
  split_and!; [done | done | done | | done | done].
  destruct (decide (Z.of_nat (length position) > k)) as [Hgt|Hle].
  - unfold clustered_cdist in Hpre.
    apply bind_Ok_inv in Hpre as ([labels' centers] & Hkm & Hpre).
    injection Hpre as <- <-. by exists centers.
  - by injection Hpre as <- <-.
Qed.

Lemma NoDup_bounded_length (rs : list nat) (n : nat) :
  NoDup rs → Forall (λ r, r < n)%nat rs → (length rs ≤ n)%nat.
Proof.
  intros Hnd Hrs. rewrite <- (length_seq n 0). apply submseteq_length.
  apply NoDup_submseteq; [done|]. intros r Hr.
  rewrite Forall_forall in Hrs. apply elem_of_seq. specialize (Hrs r Hr). lia.
Qed.

Lemma exhaustive_lsa_valid : valid_solver exhaustive_lsa.
Proof. intros cost sol. apply (solver_valid _ exhaustive_lsa_contract). Qed.

Lemma round_robin_clusters_bounded : bounded_clusterer round_robin_clusters.
Proof.
  intros positions k labels centers. unfold round_robin_clusters.
  case_decide; [discriminate|]. intros [= _ <-]. rewrite length_take. lia.
Qed.

(** ** More on the prediction reduction *)

Lemma np_unique_nil_iff {A} `{EqDecision A} (ltb : A → A → bool) (l : list A) :
  np_unique ltb l = [] ↔ l = [].
Proof.
  split; [|by intros ->]. intros Hnil. destruct l as [|x l]; [done|].
  assert (x ∈ np_unique ltb (x :: l)) as Hx by (apply np_unique_elem; left).
  rewrite Hnil in Hx. by apply elem_of_nil in Hx.
Qed.

(** The distinct values of an integer array, ascending, are determined by
    the values that occur. *)
Lemma np_unique_Z_sorted (index : list Z) : StronglySorted Z.lt (np_unique Z.ltb index).
Proof.
  eapply StronglySorted_weaken; [|apply (np_unique_sorted Z.ltb)].
  - intros x y Hxy. by apply Z.ltb_lt.
  - exact Z_ltb_trans.
  - exact Z_ltb_total.
Qed.

Lemma StronglySorted_Z_lt_NoDup (l : list Z) : StronglySorted Z.lt l → NoDup l.
Proof.
  induction 1 as [|x l _ IH Hx]; constructor; [|done].
  intros Hin. rewrite Forall_forall in Hx. specialize (Hx x Hin). lia.
Qed.

Lemma np_unique_Z_determined (index ks : list Z) :
  StronglySorted Z.lt ks → (∀ k, k ∈ ks ↔ k ∈ index) → np_unique Z.ltb index = ks.
Proof.
  intros Hks Hel.
  apply (StronglySorted_unique_strong Z.lt);
    [intros; lia | apply np_unique_Z_sorted | done |].
  apply NoDup_Permutation.
  - apply StronglySorted_Z_lt_NoDup, np_unique_Z_sorted.
  - by apply StronglySorted_Z_lt_NoDup.
  - intros k. rewrite np_unique_elem. symmetry. apply Hel.
Qed.

Lemma scores_with_filter y_hat index k :
  length y_hat = length index →
  scores_with y_hat index k = (filter (λ yi : Qc * Z, yi.2 = k) (zip y_hat index)).*1.
Proof.
  intros Hlen. pose proof (mask_eq_scores_with y_hat index k Hlen) as H.
  unfold mask_eq in H. rewrite decide_True in H by done. by injection H.
Qed.

(** ** Arrays along the first axis *)

Lemma length_items (a : ndarray) : length (items a) = first_dim a.
Proof. destruct a; simpl; by rewrite length_fmap. Qed.

Lemma items_append_rows (a b : ndarray) :
  tail (shape b) = tail (shape a) → items (append_rows a b) = items a ++ items b.
Proof.
  destruct a, b; simpl; intros Heq; try discriminate; rewrite fmap_app.
  - done.
  - injection Heq as Heq. by rewrite Heq.
  - injection Heq as -> ->. done.
  - injection Heq as -> -> ->. done.
Qed.

Lemma tail_shape_append_rows (a b : ndarray) :
  tail (shape (append_rows a b)) = tail (shape a).
Proof. by destruct a, b. Qed.

Lemma items_foldl_append_rows (rest : list ndarray) : ∀ a,
  Forall (λ b, tail (shape b) = tail (shape a)) rest →
  items (foldl append_rows a rest) = items a ++ (rest ≫= items).
Proof.
  induction rest as [|b rest IH]; intros a Hrest; simpl.
  - by rewrite app_nil_r.
  - apply Forall_cons in Hrest as [Hb Hrest].
    rewrite IH.
    + rewrite items_append_rows by done. by rewrite <- app_assoc.
    + eapply Forall_impl; [exact Hrest|]. intros c Hc. simpl in *.
      by rewrite tail_shape_append_rows.
Qed.

Lemma items_of_item (a x : ndarray) :
  x ∈ items a → items x = [x] ∧ tail (shape x) = tail (shape a).
Proof.
  destruct a; simpl; intros Hx; apply list_elem_of_fmap in Hx as (y & -> & _); done.
Qed.

Lemma items_empty_like (a : ndarray) :
  items (empty_like a) = [] ∧ tail (shape (empty_like a)) = tail (shape a).
Proof. by destruct a. Qed.

Lemma np_arange_seq (n : nat) : np_arange n = Z.of_nat <$> seq 0 n.
Proof.
  unfold np_arange, py_range. rewrite Z.sub_0_r.
  apply list_eq. intros i. rewrite list_lookup_fmap.
  destruct (decide (i < n)%nat) as [Hi|Hi].
  - rewrite lookup_seqZ_lt by lia. rewrite lookup_seq_lt by done. done.
  - rewrite lookup_seqZ_ge by lia. by rewrite lookup_seq_ge by lia.
Qed.

Lemma length_np_arange (n : nat) : length (np_arange n) = n.
Proof. by rewrite np_arange_seq, length_fmap, length_seq. Qed.

Lemma length_np_tile {A} (a : list A) (reps : nat) :
  length (np_tile a reps) = (reps * length a)%nat.
Proof.
  unfold np_tile. induction reps as [|r IH]; simpl; [done|].
  rewrite length_app, IH. lia.
Qed.

Lemma length_np_repeat {A} (a : list A) (repeats : nat) :
  length (np_repeat a repeats) = (repeats * length a)%nat.
Proof.
  unfold np_repeat. induction a as [|x a IH]; [simpl; lia|].
  rewrite bind_cons, length_app, length_replicate, IH. simpl. lia.
Qed.

(** Pairing the rows of arrays of one length with the tiled positions. *)
Lemma zip_bind_tile {A B C} (f : A → list B) (k : list C) (l : list A) :
  Forall (λ x, length (f x) = length k) l →
  zip (l ≫= f) (np_tile k (length l)) = l ≫= (λ x, zip (f x) k).
Proof.
  unfold np_tile. induction 1 as [|x l Hx _ IH]; [done|].
  rewrite !bind_cons. simpl. rewrite zip_with_app by done. by rewrite IH.
Qed.

(** Pairing groups of [r] rows with the repeated positions. *)
Lemma zip_bind_repeat {A B C} (g : A → list B) (h : A → C) (r : nat) (l : list A) :
  Forall (λ s, length (g s) = r) l →
  zip (l ≫= g) (np_repeat (h <$> l) r) = l ≫= (λ s, (λ x, (x, h s)) <$> g s).
Proof.
  unfold np_repeat. induction 1 as [|s l Hs _ IH]; [done|].
  rewrite fmap_cons, !bind_cons.
  rewrite zip_with_app by (by rewrite length_replicate).
  rewrite IH. f_equal. by rewrite zip_with_replicate_r_eq.
Qed.

(** *** Gathering rows by position *)

Lemma mapM_getitem_in_range {A} (l : list A) (p : list Z) :
  Forall (λ i, 0 ≤ i < Z.of_nat (length l)) p →
  mapM (getitem l) p = Ok (omap (λ i, l !! Z.to_nat i) p).
Proof.
  induction 1 as [|i p Hi _ IH]; simpl; [done|].
  destruct (lookup_lt_is_Some_2 l (Z.to_nat i)) as [x Hx]; [lia|].
  rewrite (getitem_in_range l i x) by (lia || done). simpl.
  by rewrite IH, Hx.
Qed.

Lemma omap_lookup_seq {A} (l : list A) : ∀ pre,
  omap (λ i, (pre ++ l) !! Z.to_nat i) (Z.of_nat <$> seq (length pre) (length l)) = l.
Proof.
  induction l as [|x l IH]; intros pre; [done|].
  simpl. rewrite Nat2Z.id, list_lookup_middle by done. f_equal.
  specialize (IH (pre ++ [x])). rewrite <- app_assoc, length_app in IH. simpl in IH.
  by rewrite Nat.add_1_r in IH.
Qed.

Lemma omap_lookup_arange {A} (l : list A) :
  omap (λ i, l !! Z.to_nat i) (np_arange (length l)) = l.
Proof. rewrite np_arange_seq. apply (omap_lookup_seq l []). Qed.

Lemma Forall_np_arange (n : nat) : Forall (λ i, 0 ≤ i < Z.of_nat n) (np_arange n).
Proof.
  rewrite np_arange_seq. apply Forall_fmap, Forall_forall. intros i Hi.
  apply elem_of_seq in Hi. simpl. lia.
Qed.

(** Gathering by a permutation of the positions permutes the rows. *)
Lemma omap_lookup_Permutation {A} (l : list A) (p : list Z) :
  p ≡ₚ np_arange (length l) → omap (λ i, l !! Z.to_nat i) p ≡ₚ l.
Proof. intros Hp. rewrite Hp. by rewrite omap_lookup_arange. Qed.

Lemma zip_omap_lookup {A B} (l : list A) (k : list B) (p : list Z) :
  length l = length k →
  Forall (λ i, 0 ≤ i < Z.of_nat (length l)) p →
  zip (omap (λ i, l !! Z.to_nat i) p) (omap (λ i, k !! Z.to_nat i) p)
  = omap (λ i, zip l k !! Z.to_nat i) p.
Proof.
  intros Hlen. induction 1 as [|i p Hi _ IH]; [done|]. simpl.
  destruct (lookup_lt_is_Some_2 l (Z.to_nat i)) as [x Hx]; [lia|].
  destruct (lookup_lt_is_Some_2 k (Z.to_nat i)) as [y Hy]; [lia|].
  rewrite Hx, Hy.
  assert (zip l k !! Z.to_nat i = Some (x, y)) as ->
    by (apply lookup_zip_with_Some; by exists x, y).
  simpl. f_equal. apply IH.
Qed.

Lemma items_take_rows (a a' : ndarray) (p : list Z) :
  Forall (λ i, 0 ≤ i < Z.of_nat (first_dim a)) p →
  take_rows a p = Ok a' →
  items a' = omap (λ i, items a !! Z.to_nat i) p.
Proof.
  intros Hp. destruct a; simpl in *; rewrite mapM_getitem_in_range by done; simpl;
    intros [= <-]; simpl; rewrite list_fmap_omap; apply list_omap_ext;
    apply Forall2_same_length_lookup_2; try done;
    intros i x y Hx Hy; rewrite Hx in Hy; injection Hy as <-;
    by rewrite list_lookup_fmap.
Qed.

Lemma take_rows_in_range (a : ndarray) (p : list Z) :
  Forall (λ i, 0 ≤ i < Z.of_nat (first_dim a)) p → is_Ok (take_rows a p).
Proof.
  intros Hp. destruct a; simpl in *; rewrite mapM_getitem_in_range by done;
    eexists; reflexivity.
Qed.

(** ** The outputs of the transformers of a list *)

Lemma img_matrix_of_Ok_length E (t : ImageTransformer E) X empty_value mat :
  img_matrix_of E t X empty_value = Ok mat → length mat = n_rows X.
Proof.
  intros Hmat. unfold img_matrix_of in Hmat.
  apply bind_Ok_inv in Hmat as (z & Hz & Hloop).
  unfold np_zeros3 in Hz. destruct (decide (_ ∨ _)); [discriminate|].
  injection Hz as <-.
  eapply (foldM_preserves _ (λ m : list grid, length m = n_rows X));
    [ | | exact Hloop].
  - intros img' ic img'' Hl Hstep. unfold img_matrix_step in Hstep.
    apply bind_Ok_inv in Hstep as (sel & Hsel & Hset).
    unfold set_pixel_all in Hset.
    apply bind_Ok_inv in Hset as (r & _ & Hset).
    apply bind_Ok_inv in Hset as (k & _ & Hset). injection Hset as <-.
    unfold take_columns in Hsel. apply bind_Ok_inv in Hsel as (? & _ & Hsel).
    injection Hsel as <-.
    rewrite length_zip_with, !length_fmap. unfold n_rows in *. lia.
  - case_decide; by rewrite ?length_fmap, length_replicate.
Qed.

Lemma transform_Ok_first_dim E (t : ImageTransformer E) X img_format empty_value im :
  transform E t X img_format empty_value = Ok im →
  first_dim (to_array im) = n_rows X.
Proof.
  intros Htr. unfold transform in Htr.
  apply bind_Ok_inv in Htr as (mat & Hmat & Htr).
  apply img_matrix_of_Ok_length in Hmat.
  repeat case_decide; try discriminate; injection Htr as <-;
    unfold first_dim, _mat_to_rgb, _mat_to_pytorch; simpl;
    by rewrite ?length_fmap.
Qed.

Lemma mapM_Ok_Forall {A B} (f : A → result B) (P : B → Prop) (l : list A) (bs : list B) :
  (∀ a b, f a = Ok b → P b) → mapM f l = Ok bs → Forall P bs.
Proof.
  intros Hf. revert bs. induction l as [|a l IH]; intros bs H; simpl in H.
  - injection H as <-. constructor.
  - apply bind_Ok_inv in H as (b & Hb & H).
    apply bind_Ok_inv in H as (bs' & Hbs & H). injection H as <-.
    constructor; [by eapply Hf | by apply IH].
Qed.

Lemma to_array_wrap (img_format : string) (a : ndarray) :
  to_array (if decide (img_format = "pytorch") then Torch a else Numpy a) = a.
Proof. by case_decide. Qed.

Lemma length_representations (translist : list image) (n s : nat) :
  Forall (λ im, first_dim (to_array im) = n) translist → (s < n)%nat →
  length (representations translist s) = length translist.
Proof.
  intros Hall Hs. unfold representations.
  induction Hall as [|im l Him _ IH]; [done|]. simpl.
  destruct (lookup_lt_is_Some_2 (items (to_array im)) s) as [x Hx].
  { rewrite length_items. lia. }
  rewrite Hx. simpl. f_equal. apply IH.
Qed.

Lemma representations_items (translist : list image) (s : nat) (x : ndarray) (a : ndarray) :
  Forall (λ im, tail (shape (to_array im)) = tail (shape a)) translist →
  x ∈ representations translist s →
  items x = [x] ∧ tail (shape x) = tail (shape a).
Proof.
  intros Hall Hx. unfold representations in Hx.
  apply list_elem_of_omap in Hx as (im & Him & Hx).
  rewrite Forall_forall in Hall. rewrite <- (Hall im Him).
  apply items_of_item. by eapply list_elem_of_lookup_2.
Qed.

(** ** Collating the outputs *)

Lemma np_concatenate_items (arrays : list ndarray) (a : ndarray) :
  np_concatenate arrays = Returns a →
  arrays ≠ [] ∧ items a = arrays ≫= items.
Proof.
  unfold np_concatenate. destruct arrays as [|a0 rest]; [discriminate|].
  case_decide as Hshape; [|discriminate]. intros [= <-]. split; [done|].
  by rewrite items_foldl_append_rows, bind_cons.
Qed.

Lemma bind_items_singletons (l : list ndarray) :
  Forall (λ x, items x = [x]) l → l ≫= items = l.
Proof.
  induction 1 as [|x l Hx _ IH]; [done|]. by rewrite bind_cons, Hx, IH.
Qed.

Lemma np_stack_reshape_Returns (arrays : list ndarray) (a : ndarray) :
  np_stack_reshape arrays = Returns a →
  ∃ a0 rest, arrays = a0 :: rest
    ∧ Forall (λ b, shape b = shape a0) rest
    ∧ a = foldl append_rows (empty_like a0)
            (seq 0 (first_dim a0) ≫= (λ s, omap (λ b, items b !! s) arrays)).
Proof.
  unfold np_stack_reshape. destruct arrays as [|a0 rest]; [discriminate|].
  case_decide as Hshape; [|discriminate].
  case_decide as Hzero; [discriminate|]. intros [= <-].
  by exists a0, rest.
Qed.

Lemma np_stack_reshape_items (translist : list image) (n : nat) (a : ndarray) :
  Forall (λ im, first_dim (to_array im) = n) translist →
  np_stack_reshape (to_array <$> translist) = Returns a →
  translist ≠ [] ∧ items a = seq 0 n ≫= representations translist.
Proof.
  intros Hdim Hrun.
  apply np_stack_reshape_Returns in Hrun as (a0 & rest & Harr & Hshape & ->).
  assert (translist ≠ []) as Hne by (intros ->; discriminate).
  split; [done|].
  assert (Forall (λ b, shape b = shape a0) (to_array <$> translist)) as Hall.
  { rewrite Harr. by constructor. }
  apply Forall_fmap in Hall.
  assert (first_dim a0 = n) as Hn.
  { destruct translist as [|im0 l]; [done|]. injection Harr as <- _.
    by apply Forall_cons in Hdim as [? _]. }
  assert (Forall (λ im, tail (shape (to_array im)) = tail (shape a0)) translist)
    as Htail.
  { eapply Forall_impl; [exact Hall|]. intros im Him. simpl in Him. by rewrite Him. }
  rewrite Hn.
  assert (∀ s, omap (λ b, items b !! s) (to_array <$> translist)
               = representations translist s) as Hrep.
  { intros s. unfold representations. clear. induction translist as [|im l IH]; [done|].
    rewrite fmap_cons. simpl. destruct (items (to_array im) !! s); simpl;
      [f_equal|]; apply IH. }
  assert (seq 0 n ≫= (λ s, omap (λ b, items b !! s) (to_array <$> translist))
          = seq 0 n ≫= representations translist) as ->.
  { generalize (seq 0 n). intros l. induction l as [|s l IH]; [done|].
    by rewrite !bind_cons, Hrep, IH. }
  destruct (items_empty_like a0) as [Hemp Hemp'].
  rewrite items_foldl_append_rows.
  - rewrite Hemp. simpl. apply bind_items_singletons.
    apply Forall_forall. intros x Hx.
    apply list_elem_of_bind in Hx as (s & Hx & _).
    by apply (representations_items translist s x a0).
  - apply Forall_forall. intros x Hx.
    apply list_elem_of_bind in Hx as (s & Hx & _).
    rewrite Hemp'.
    by apply (representations_items translist s x a0).
Qed.

(** What [MRepImageTransformer.transform] returns: the outputs of the
    transformers, collated in one of three ways. *)
Lemma mrep_transform_Returns_inv E permutation (self : MRepImageTransformer.t E)
    X img_format empty_value collate return_index img oidx :
  MRepImageTransformer.transform E permutation self X img_format empty_value
    collate return_index = Returns (img, oidx) →
  ∃ translist a idx,
    mapM (λ it, transform E it X img_format empty_value)
         (MRepImageTransformer._its E self) = Ok translist
    ∧ length translist = length (MRepImageTransformer._its E self)
    ∧ Forall (λ im, first_dim (to_array im) = n_rows X) translist
    ∧ to_array img = a
    ∧ oidx = (if return_index then Some idx else None)
    ∧ ((collate = "manifold"
        ∧ np_concatenate (to_array <$> translist) = Returns a
        ∧ idx = np_tile (np_arange (n_rows X)) (length translist))
       ∨ (collate = "sample"
          ∧ np_stack_reshape (to_array <$> translist) = Returns a
          ∧ idx = np_repeat (np_arange (n_rows X)) (length translist))
       ∨ (collate = "random"
          ∧ ∃ a0, np_concatenate (to_array <$> translist) = Returns a0
              ∧ take_rows a0
                  (permutation
                     (length (np_tile (np_arange (n_rows X)) (length translist))))
                = Ok a
              ∧ mapM (getitem (np_tile (np_arange (n_rows X)) (length translist)))
                  (permutation
                     (length (np_tile (np_arange (n_rows X)) (length translist))))
                = Ok idx)).
Proof.
  unfold MRepImageTransformer.transform. intros Hrun.
  destruct (mapM _ _) as [translist|e] eqn:Htl; simpl in Hrun; [|discriminate].
  pose proof (mapM_Ok_length _ _ _ Htl) as Hlen.
  pose proof (mapM_Ok_Forall _ (λ im, first_dim (to_array im) = n_rows X) _ _
                (λ it im, transform_Ok_first_dim E it X img_format empty_value im) Htl)
    as Hdim.
  rewrite <- Hlen in Hrun.
  destruct (decide (collate = "manifold")) as [->|Hm].
  { destruct (np_concatenate _) as [a|] eqn:Hcat; simpl in Hrun; [|discriminate].
    injection Hrun as <- <-. eexists translist, a, _.
    rewrite to_array_wrap. split_and!; try done. by left. }
  destruct (decide (collate = "sample")) as [->|Hs].
  { destruct (np_stack_reshape _) as [a|] eqn:Hcat; simpl in Hrun; [|discriminate].
    injection Hrun as <- <-. eexists translist, a, _.
    rewrite to_array_wrap. split_and!; try done. right. by left. }
  destruct (decide (collate = "random")) as [->|Hr]; [|discriminate].
  destruct (np_concatenate _) as [a0|] eqn:Hcat; simpl in Hrun; [|discriminate].
  destruct (take_rows _ _) as [a|] eqn:Htake; simpl in Hrun; [|discriminate].
  destruct (mapM (getitem _) _) as [idx|] eqn:Hidx; simpl in Hrun; [|discriminate].
  injection Hrun as <- <-. eexists translist, a, idx.
  rewrite to_array_wrap. split_and!; try done. right. right. split; [done|].
  by exists a0.
Qed.

Lemma length_bind_const {A B} (f : A → list B) (n : nat) (l : list A) :
  Forall (λ x, length (f x) = n) l → length (l ≫= f) = (length l * n)%nat.
Proof.
  induction 1 as [|x l Hx _ IH]; [done|].
  rewrite bind_cons, length_app, Hx, IH. simpl. lia.
Qed.

Lemma elem_of_np_tile {A} (a : list A) (reps : nat) (x : A) :
  (0 < reps)%nat → x ∈ np_tile a reps ↔ x ∈ a.
Proof.
  intros Hr. unfold np_tile. induction reps as [|r IH]; [lia|].
  simpl. rewrite elem_of_app. destruct r as [|r].
  - simpl. split; [intros [?|H]; [done | by apply elem_of_nil in H] | by left].
  - rewrite IH by lia. tauto.
Qed.

Lemma elem_of_np_repeat {A} (a : list A) (repeats : nat) (x : A) :
  (0 < repeats)%nat → x ∈ np_repeat a repeats ↔ x ∈ a.
Proof.
  intros Hr. unfold np_repeat. rewrite list_elem_of_bind. split.
  - intros (y & Hx & Hy). by apply elem_of_replicate in Hx as [-> _].
  - intros Hx. exists x. split; [|done]. apply elem_of_replicate. split; [done|lia].
Qed.

Lemma StronglySorted_np_arange (n : nat) : StronglySorted Z.lt (np_arange n).
Proof.
  rewrite np_arange_seq. induction n as [|n IH]; [constructor|].
  rewrite seq_S, fmap_app. simpl. apply StronglySorted_app_2; [|done|repeat constructor].
  intros x1 x2 Hx1 Hx2. apply list_elem_of_singleton in Hx2 as ->.
  apply list_elem_of_fmap in Hx1 as (i & -> & Hi). apply elem_of_seq in Hi. lia.
Qed.

(** The sample indices that [transform] returns hold exactly the row
    numbers of the input. *)
Lemma mrep_index_elements (translist : list image) (n : nat) (idx : list Z) (p : list Z) :
  translist ≠ [] →
  idx = np_tile (np_arange n) (length translist)
  ∨ idx = np_repeat (np_arange n) (length translist)
  ∨ (p ≡ₚ np_arange (length (np_tile (np_arange n) (length translist)))
     ∧ mapM (getitem (np_tile (np_arange n) (length translist))) p = Ok idx) →
  ∀ k, k ∈ np_arange n ↔ k ∈ idx.
Proof.
  intros Hne Hidx k.
  assert (0 < length translist)%nat as Hpos by (destruct translist; [done | simpl; lia]).
  destruct Hidx as [-> | [-> | [Hp Hidx]]].
  - by rewrite elem_of_np_tile.
  - by rewrite elem_of_np_repeat.
  - rewrite mapM_getitem_in_range in Hidx.
    + injection Hidx as <-. rewrite (omap_lookup_Permutation _ p Hp).
      by rewrite elem_of_np_tile.
    + rewrite Hp. apply Forall_np_arange.
Qed.

Lemma reversed_order_permutes : draws_permutations reversed_order.
Proof. intros n. unfold reversed_order. apply reverse_Permutation. Qed.

(** ** Construction, fit and extension *)

Section mrep_facts.
Context (E : externals).

Lemma initialize_image_transformer_with_its (self : MRepImageTransformer.t E) its cfg :
  MRepImageTransformer.initialize_image_transformer E
    (MRepImageTransformer.with_its E self its) cfg
  = MRepImageTransformer.initialize_image_transformer E self cfg.
Proof. by destruct cfg. Qed.

Lemma mapM_ext_with_its (self : MRepImageTransformer.t E) its
    (cfgs : list (MRepImageTransformer.config E)) :
  mapM (MRepImageTransformer.initialize_image_transformer E
          (MRepImageTransformer.with_its E self its)) cfgs
  = mapM (MRepImageTransformer.initialize_image_transformer E self) cfgs.
Proof.
  induction cfgs as [|cfg cfgs IH]; simpl; [done|].
  by rewrite initialize_image_transformer_with_its, IH.
Qed.

(** The loop of the constructor appends one new transformer per entry. *)
Lemma mrep_init_loop (cfgs : list (MRepImageTransformer.config E)) :
  ∀ self0 self,
  foldM (λ self it_cfg,
      let* it := MRepImageTransformer.initialize_image_transformer E self it_cfg in
      Ok (MRepImageTransformer.with_its E self
            (MRepImageTransformer._its E self ++ [it])))
    cfgs self0 = Ok self
  ↔ ∃ new,
      mapM (MRepImageTransformer.initialize_image_transformer E self0) cfgs = Ok new
      ∧ self = MRepImageTransformer.with_its E self0
                 (MRepImageTransformer._its E self0 ++ new).
Proof.
  induction cfgs as [|cfg cfgs IH]; intros self0 self; simpl.
  - split.
    + intros [= <-]. exists []. split; [done|]. rewrite app_nil_r. by destruct self0.
    + intros (new & [= <-] & ->). rewrite app_nil_r. by destruct self0.
  - destruct (MRepImageTransformer.initialize_image_transformer E self0 cfg)
      as [it|e] eqn:Hit; simpl.
    + rewrite IH, mapM_ext_with_its. split.
      * intros (new & Hnew & ->). exists (it :: new).
        rewrite Hnew. simpl. split; [done|].
        unfold MRepImageTransformer.with_its. simpl. by rewrite <- app_assoc.
      * intros (new & Hnew & ->).
        destruct (mapM (MRepImageTransformer.initialize_image_transformer E self0) cfgs)
          as [new'|]; simpl in Hnew; [|discriminate].
        injection Hnew as <-. exists new'. split; [done|].
        unfold MRepImageTransformer.with_its. simpl. by rewrite <- app_assoc.
    + split; [discriminate|]. by intros (new & Hnew & _).
Qed.
End mrep_facts.

Lemma mapM_is_Ok {A B} (f : A → result B) (l : list A) :
  is_Ok (mapM f l) ↔ Forall (λ a, is_Ok (f a)) l.
Proof.
  induction l as [|a l IH]; simpl.
  - split; [constructor | by eexists].
  - rewrite Forall_cons, <- IH. split.
    + intros [bs Hbs]. apply bind_Ok_inv in Hbs as (b & Hb & Hbs).
      apply bind_Ok_inv in Hbs as (bs' & Hbs' & _). split; by eexists.
    + intros [[b Hb] [bs Hbs]]. rewrite Hb, Hbs. by eexists.
Qed.

Lemma initialize_image_transformer_unfitted E (self : MRepImageTransformer.t E) cfg it :
  MRepImageTransformer.initialize_image_transformer E self cfg = Ok it →
  unfitted_on (MRepImageTransformer.pixels E self) it.
Proof.
  destruct cfg; simpl; intros Hit;
    apply __init___Ok_inv in Hit as (Hx & Hc & Hp & _); by split_and!.
Qed.

(** ** Messages *)

Lemma string_app_cons (c : ascii) (a b : string) :
  String c a +:+ b = String c (a +:+ b).
Proof. reflexivity. Qed.

Lemma is_prefix_app (v suf : string) : is_prefix v (v +:+ suf) = true.
Proof.
  induction v as [|c v IH]; [done|].
  rewrite string_app_cons. simpl. by rewrite bool_decide_eq_true_2, IH.
Qed.

(** A value that a message names occurs in it. *)
Lemma names_occurs (v msg : string) : names v msg → occurs v msg = true.
Proof.
  intros (pre & suf & ->). induction pre as [|c pre IH].
  - change ("" +:+ v +:+ suf) with (v +:+ suf).
    destruct (v +:+ suf) eqn:Heq; simpl; rewrite <- ?Heq, is_prefix_app; done.
  - rewrite string_app_cons. simpl. rewrite IH. apply orb_true_r.
Qed.

Lemma not_names (v msg : string) : occurs v msg = false → ¬ names v msg.
Proof. intros Hocc Hn. apply names_occurs in Hn. congruence. Qed.

Lemma repr_char_plain (c : ascii) :
  plain_char c → repr_char (ascii_of_nat 39) c = String c "".
Proof.
  intros (Hp & Hq & Hb). unfold repr_char.
  rewrite decide_False.
  2: { intros [-> | ->]; [by apply Hq | by apply Hb]. }
  rewrite !decide_False by lia. done.
Qed.

Lemma repr_body_plain (s : string) : plain s → repr_body (ascii_of_nat 39) s = s.
Proof.
  induction s as [|c s IH]; [done|]. intros [Hc Hs]. simpl.
  by rewrite repr_char_plain, IH.
Qed.

Lemma string_has_plain (s : string) : plain s → string_has (ascii_of_nat 39) s = false.
Proof.
  induction s as [|c s IH]; [done|]. intros [(_ & Hq & _) Hs]. simpl.
  rewrite IH by done. rewrite bool_decide_eq_false_2; [done|].
  intros ->. by apply Hq.
Qed.

(** The [repr] of a string of plain characters is the string between single
    quotes, so that the message of a [KeyError] for such a key names it. *)
Lemma py_repr_plain (s : string) : plain s → py_repr s = "'" +:+ s +:+ "'".
Proof.
  intros Hs. unfold py_repr. rewrite string_has_plain by done. simpl.
  by rewrite repr_body_plain.
Qed.

(** * The claims *)

(** Claim C1, at the failing input [px_size = (2, 3)]: the centroids of the
    pixels (0, 2) and (1, 0) are both written to the linear index 2, where
    the second one stays; the index 5 is never written; no index decodes to
    the pixel (0, 2); so enumeration and decoding are not consistent on this
    grid. On the grid (3, 2) the enumeration raises an index error. *)
Theorem C1_centroids_and_decoding_disagree_on_2x3 (uninit : nat → fpoint) :
  calculate_pixel_centroids uninit (2, 3)
    = Ok [centroid 0 0; centroid 0 1; centroid 1 0; centroid 1 1; centroid 1 2;
          (fl_add (uninit 5%nat).1 (Fin (Qc_of_Z 1 / Qc_of_Z 2)%Qc),
           fl_add (uninit 5%nat).2 (Fin (Qc_of_Z 1 / Qc_of_Z 2)%Qc))]
  ∧ decode_pixel (2, 3) 2 = (1, 0)
  ∧ (∀ k, decode_pixel (2, 3) k ≠ (0, 2))
  ∧ ¬ centroid_decoding_consistent uninit (2, 3)
  ∧ calculate_pixel_centroids uninit (3, 2) = Raise (IndexError 6 0 6).
Proof.
  split_and!.
  - reflexivity.
  - reflexivity.
  - intros k Hdec. pose proof (decode_pixel_col_bound (2, 3) k) as Hb.
    rewrite Hdec in Hb. simpl in Hb. lia.
  - apply centroid_decoding_inconsistent_wide. lia.
  - reflexivity.
Qed.

(** Claim C2, at the failing input: a transformer with exact assignment
    ('lsa') and the non-square grid (1, 3), fitted on three features. Fitting
    succeeds, and whatever valid assignment the solver returns, the stored
    feature→pixel mapping is [(0,0); (1,0); (2,0)] in some order: the rows 1
    and 2 lie outside a grid of height 1, so the bound [0 ≤ row < H] of the
    claim does not hold. *)
Theorem C2_exact_assignment_leaves_grid_1x3
    (E : externals) (t t' : ImageTransformer E) (X : matrix) :
  solver_contract (linear_sum_assignment E) →
  _dm E t = m_coordinate_optimal_assignment →
  _pixels E t = (1, 3) →
  fit E t X = (Ok (), t') →
  length (_xrot E t') = 3%nat →
  _pixels E t' = (1, 3)
  ∧ _coords E t' ≡ₚ [(0, 0); (1, 0); (2, 0)]
  ∧ ¬ Forall (in_grid (_pixels E t')) (_coords E t').
Proof.
  intros Hlsa Hdm Hpx Hfit Hn.
  apply fit_Ok_inv in Hfit as (fe' & x_new & xrot & c & _ & _ & Hc & ->).
  simpl in *. rewrite Hdm, Hpx in Hc. simpl in Hc.
  apply (coordinate_optimal_assignment_Ok_inv E Hlsa) in Hc
    as (sol & -> & Hlen & Hnd & Hrange & _); [|simpl; lia].
  assert (sol ≡ₚ [0; 1; 2]) as Hperm.
  { apply three_indices_Permutation; [congruence | done | done]. }
  assert (decode_pixel (1, 3) <$> sol ≡ₚ [(0, 0); (1, 0); (2, 0)]) as Hcoords.
  { rewrite Hperm. reflexivity. }
  rewrite Hpx. split_and!; [done | done |].
  rewrite Hcoords. intros Hall.
  apply Forall_cons in Hall as [_ Hall]. apply Forall_cons in Hall as [[Hrow _] _].
  simpl in Hrow. lia.
Qed.

(** The failing input of C2 in the reference environment: the fit succeeds
    and leaves a mapping outside the grid. *)
Lemma C2_exact_assignment_leaves_grid_1x3_witness :
  fit reference lsa_1x3 one_sample = (Ok (), (fit reference lsa_1x3 one_sample).2)
  ∧ ¬ Forall (in_grid (1, 3))
        (_coords reference (fit reference lsa_1x3 one_sample).2).
Proof.
  assert (fit reference lsa_1x3 one_sample
          = (Ok (), (fit reference lsa_1x3 one_sample).2)) as Hfit
    by (vm_compute; reflexivity).
  split; [exact Hfit|].
  exact (proj2 (proj2 (C2_exact_assignment_leaves_grid_1x3 reference lsa_1x3
    (fit reference lsa_1x3 one_sample).2 one_sample
    exhaustive_lsa_contract eq_refl eq_refl Hfit eq_refl))).
Defined.

(** Claim C3 as stated fails on [two_points_on_a_line], whose first axis
    has zero range: the scaler divides 0 by 0 and returns NaN on that axis
    for both points. *)
Lemma C3_zero_range_axis_is_not_guarded :
  zero_range two_points_on_a_line.*1
  ∧ (∃ a b, scale_coordinates two_points_on_a_line (4, 4)
            = Ok [(NaN, Fin a); (NaN, Fin b)])
  ∧ ¬ scales_to_well_defined two_points_on_a_line (4, 4).
Proof.
  split_and!.
  - assert (∀ x, x ∈ two_points_on_a_line.*1 → x = qz 1) as Hall.
    { intros x Hx. apply list_elem_of_In in Hx. simpl in Hx.
      destruct Hx as [<-|[<-|[]]]; reflexivity. }
    intros a b Ha Hb. by rewrite (Hall a Ha), (Hall b Hb).
  - eexists _, _. vm_compute. reflexivity.
  - intros (scaled & Hs & Hwd). vm_compute in Hs. injection Hs as <-.
    apply Forall_cons in Hwd as [[Hnan _] _]. discriminate Hnan.
Qed.

(** Claim C3, amended: the scaler has no guard. For every non-empty point
    set it returns one scaled point per input point; on an axis with zero
    range every scaled coordinate is NaN (0/0); on an axis with a range
    every scaled coordinate is a number between 0 and the dimension (for a
    non-negative dimension). *)
Theorem C3_scale_coordinates_zero_range_is_nan
    (coords : list point) (dim_max : pixel) :
  coords ≠ [] →
  ∃ scaled, scale_coordinates coords dim_max = Ok scaled
    ∧ length scaled = length coords
    ∧ (zero_range coords.*1 → Forall (λ s : fpoint, s.1 = NaN) scaled)
    ∧ (zero_range coords.*2 → Forall (λ s : fpoint, s.2 = NaN) scaled)
    ∧ (¬ zero_range coords.*1 → 0 ≤ dim_max.1 →
         Forall (λ s : fpoint,
                   ∃ v, s.1 = Fin v ∧ (0 ≤ v ≤ Qc_of_Z dim_max.1)%Qc) scaled)
    ∧ (¬ zero_range coords.*2 → 0 ≤ dim_max.2 →
         Forall (λ s : fpoint,
                   ∃ v, s.2 = Fin v ∧ (0 ≤ v ≤ Qc_of_Z dim_max.2)%Qc) scaled).
Proof.
  destruct coords as [|p ps]; [done|]. intros _.
  eexists. split; [apply scale_coordinates_axes|].
  split; [by rewrite length_fmap|].
  split_and!.
  - intros Hzero. apply Forall_fmap, Forall_forall. intros q Hq.
    by apply (scaled_axis_zero_range fst).
  - intros Hzero. apply Forall_fmap, Forall_forall. intros q Hq.
    by apply (scaled_axis_zero_range snd).
  - intros Hrange Hdim. apply Forall_fmap, Forall_forall. intros q Hq.
    by apply (scaled_axis_in_range fst).
  - intros Hrange Hdim. apply Forall_fmap, Forall_forall. intros q Hq.
    by apply (scaled_axis_in_range snd).
Qed.

Lemma C3_scale_coordinates_zero_range_is_nan_witness :
  ∃ scaled, scale_coordinates two_points_on_a_line (4, 4) = Ok scaled
    ∧ length scaled = 2%nat
    ∧ (zero_range two_points_on_a_line.*1 → Forall (λ s : fpoint, s.1 = NaN) scaled)
    ∧ (zero_range two_points_on_a_line.*2 → Forall (λ s : fpoint, s.2 = NaN) scaled)
    ∧ (¬ zero_range two_points_on_a_line.*1 → 0 ≤ 4 →
         Forall (λ s : fpoint, ∃ v, s.1 = Fin v ∧ (0 ≤ v ≤ Qc_of_Z 4)%Qc) scaled)
    ∧ (¬ zero_range two_points_on_a_line.*2 → 0 ≤ 4 →
         Forall (λ s : fpoint, ∃ v, s.2 = Fin v ∧ (0 ≤ v ≤ Qc_of_Z 4)%Qc) scaled).
Proof.
  apply (C3_scale_coordinates_zero_range_is_nan two_points_on_a_line (4, 4)).
  discriminate.
Defined.

(** Claim C4 as stated fails: a single point fits every grid, but the
    scaler turns it into NaN coordinates (both axes have zero range), the
    cost matrix is NaN and the solver rejects it, so no mapping is returned.
    (On a grid that is higher than wide, such as (2, 1), nothing is returned
    either: the centroid enumeration raises an index error.) *)
Lemma C4_single_point_is_not_assigned :
  ¬ (∀ (E : externals) (position : list point) (px_size : pixel),
       solver_contract (linear_sum_assignment E) →
       Z.of_nat (length position) ≤ px_size.1 * px_size.2 →
       ∃ m, coordinate_optimal_assignment E position px_size = Ok m ∧ NoDup m).
Proof.
  intros Hclaim.
  destruct (Hclaim reference single_point (4, 4) exhaustive_lsa_contract)
    as (m & Hm & _); [simpl; lia|].
  vm_compute in Hm. discriminate.
Qed.

(** Claim C4, amended: for every point set that fits the grid (n ≤ H*W),
    whenever exact assignment returns a mapping, it has one pixel per point
    and no two points share a pixel; and on a square grid it does return a
    mapping, within the grid, for every point set with a range on both
    axes. *)
Theorem C4_exact_assignment_is_injective
    (E : externals) (position : list point) (px_size : pixel) :
  solver_contract (linear_sum_assignment E) →
  Z.of_nat (length position) ≤ px_size.1 * px_size.2 →
  (∀ m, coordinate_optimal_assignment E position px_size = Ok m →
        length m = length position ∧ NoDup m)
  ∧ (0 < px_size.1 → px_size.1 = px_size.2 →
     ¬ zero_range position.*1 → ¬ zero_range position.*2 →
     ∃ m, coordinate_optimal_assignment E position px_size = Ok m
       ∧ NoDup m ∧ Forall (in_grid px_size) m).
Proof.
  intros Hlsa Hfit. split.
  - intros m. by apply coordinate_optimal_assignment_NoDup.
  - destruct px_size as [H W]. simpl in *. intros HH <- Hr1 Hr2.
    destruct (coordinate_optimal_assignment_square E Hlsa position H HH Hfit Hr1 Hr2)
      as (m & Hm & Hgrid).
    exists m. split_and!; [done | | done].
    by apply (coordinate_optimal_assignment_NoDup E Hlsa position (H, H)).
Qed.

Lemma C4_exact_assignment_is_injective_witness :
  ∃ m, coordinate_optimal_assignment reference three_points (2, 2) = Ok m
    ∧ NoDup m ∧ Forall (in_grid (2, 2)) m.
Proof.
  apply (C4_exact_assignment_is_injective reference three_points (2, 2)
           exhaustive_lsa_contract).
  - simpl. lia.
  - simpl. lia.
  - reflexivity.
  - apply three_points_have_ranges.
  - apply three_points_have_ranges.
Defined.

(** The round trip where the mapping lies within the grid: for a
    transformer in state Fit (a non-empty mapping into the grid) whose
    mapping is injective, and every input [X] with the fit-time number of
    feature columns, [transform] with the scalar encoding returns an image
    from which [inverse_transform] returns [X] itself: the same rows, one
    per sample, with the values in feature order. This holds for every fill
    value. A fit does not always end in this state, see below. *)
Lemma scalar_round_trip_in_state_Fit
    (E : externals) (t : ImageTransformer E) (X : matrix) (empty_value : Qc) :
  fitted t →
  NoDup (_coords E t) →
  matrix_wf X →
  n_cols X = length (_coords E t) →
  ∃ img, transform E t X "scalar" empty_value = Ok (Numpy img)
         ∧ inverse_transform E t img = Ok (Arr2 X).
Proof.
  intros Hfit Hnd Hwf Hn.
  destruct (fitted_grid_positive E t Hfit) as [Hh Hw].
  (* the image: every sample's grid painted with the means of the groups *)
  unfold transform. rewrite (img_matrix_of_fitted E t Hfit) by lia.
  simpl. eexists. split; [reflexivity|].
  (* reading it back: the layout (N, H, W) is recognised, the index arrays
     are the cells of the mapping *)
  unfold inverse_transform.
  rewrite bool_decide_eq_true_2.
  2: { rewrite !Z2Nat.id by lia. symmetry. apply surjective_pairing. }
  rewrite (coords_index_fitted E t Hfit). simpl.
  destruct X as [n rs]. unfold matrix_wf in Hwf. simpl in *. do 2 f_equal. f_equal.
  - rewrite length_fmap. congruence.
  - (* sample by sample, each feature reads the mean of its own value *)
    rewrite <- list_fmap_compose. rewrite <- (list_fmap_id rs) at 2.
    apply list_fmap_ext. intros i r Hr. simpl.
    apply (gather_painted E t Hfit); [apply grid_shape_initial_grid | done |].
    rewrite Forall_forall in Hwf. rewrite (Hwf r) by (by eapply list_elem_of_lookup_2).
    done.
Qed.

(** The round trip at the example in state Fit. *)
Lemma scalar_round_trip_fitted_bin_2x2 :
  ∃ img, transform reference fitted_bin_2x2 two_samples "scalar" 0%Qc = Ok (Numpy img)
         ∧ inverse_transform reference fitted_bin_2x2 img = Ok (Arr2 two_samples).
Proof.
  apply (scalar_round_trip_in_state_Fit reference fitted_bin_2x2 two_samples 0%Qc).
  - apply fitted_bin_2x2_fitted.
  - apply fitted_bin_2x2_fitted.
  - repeat constructor.
  - reflexivity.
Qed.

(** Claim C5, at the failing input: a transformer with exact assignment
    ('lsa') and the non-square grid (1, 3), fitted on three features. The fit
    succeeds and, whatever valid assignment the solver returns, the stored
    feature→pixel mapping is injective (three features on three distinct
    pixels). Yet for every input [X'] with the three fit-time columns and
    every fill value, [transform] with the scalar encoding raises numpy's
    index error (index 1 is out of bounds for axis 1 with size 1), since the
    mapping leaves the grid: there is no image from which
    [inverse_transform] could return [X']. *)
Theorem C5_round_trip_fails_after_exact_assignment_1x3
    (E : externals) (t t' : ImageTransformer E) (X X' : matrix) (empty_value : Qc) :
  solver_contract (linear_sum_assignment E) →
  _dm E t = m_coordinate_optimal_assignment →
  _pixels E t = (1, 3) →
  fit E t X = (Ok (), t') →
  length (_xrot E t') = 3%nat →
  n_cols X' = 3%nat →
  NoDup (_coords E t')
  ∧ length (_coords E t') = 3%nat
  ∧ transform E t' X' "scalar" empty_value = Raise (IndexError 1 1 1)
  ∧ ¬ ∃ img, transform E t' X' "scalar" empty_value = Ok (Numpy img)
             ∧ inverse_transform E t' img = Ok (Arr2 X').
Proof.
  intros Hlsa Hdm Hpx Hfit Hn Hcols.
  apply fit_Ok_inv in Hfit as (fe' & x_new & xrot & c & _ & _ & Hc & ->).
  simpl in *. rewrite Hdm, Hpx in Hc. simpl in Hc.
  assert (Z.of_nat (length xrot) ≤ (1, 3).1 * (1, 3).2) as Hroom by (simpl; lia).
  destruct (coordinate_optimal_assignment_NoDup E Hlsa _ _ _ Hroom Hc)
    as [Hlenc Hndc].
  apply (coordinate_optimal_assignment_Ok_inv E Hlsa) in Hc
    as (sol & -> & Hlen & Hnd & Hrange & _); [|simpl; lia].
  assert (transform E
            (with_coords E (with_xrot E (with_fe E t fe') xrot)
               (decode_pixel (1, 3) <$> sol)) X' "scalar" empty_value
          = Raise (IndexError 1 1 1)) as Hraise.
  { (* the three indices are 0, 1 and 2 in one of six orders *)
    rewrite Hn in Hlen.
    destruct sol as [|a [|b [|c' [|? ?]]]]; try discriminate Hlen.
    apply NoDup_cons in Hnd as [Hab Hnd]. apply NoDup_cons in Hnd as [Hbc _].
    apply not_elem_of_cons in Hab as [Hab Hac].
    apply not_elem_of_cons in Hac as [Hac _].
    apply not_elem_of_cons in Hbc as [Hbc _].
    apply Forall_cons in Hrange as [Ha Hrange].
    apply Forall_cons in Hrange as [Hb Hrange].
    apply Forall_cons in Hrange as [Hc' _]. simpl in Ha, Hb, Hc'.
    destruct X' as [w rs]. simpl in Hcols. subst w.
    unfold transform, img_matrix_of. simpl _pixels. simpl _coords. rewrite Hpx.
    assert (a = 0 ∨ a = 1 ∨ a = 2) as Ha' by lia.
    assert (b = 0 ∨ b = 1 ∨ b = 2) as Hb' by lia.
    assert (c' = 0 ∨ c' = 1 ∨ c' = 2) as Hc'' by lia.
    destruct Ha' as [-> | [-> | ->]], Hb' as [-> | [-> | ->]], Hc'' as [-> | [-> | ->]];
      try (exfalso; lia); vm_compute; reflexivity. }
  split_and!; [done | by rewrite Hlenc | done |].
  intros (img & Himg & _).
  pose proof (eq_trans (eq_sym Hraise) Himg) as Habs. discriminate Habs.
Qed.

(** The failing input of C5 in the reference environment: the fit succeeds,
    the mapping is injective, and [transform] of the fitted sample raises. *)
Lemma C5_round_trip_fails_after_exact_assignment_1x3_witness :
  fit reference lsa_1x3 one_sample = (Ok (), (fit reference lsa_1x3 one_sample).2)
  ∧ NoDup (_coords reference (fit reference lsa_1x3 one_sample).2)
  ∧ transform reference (fit reference lsa_1x3 one_sample).2 one_sample "scalar" 0%Qc
    = Raise (IndexError 1 1 1).
Proof.
  assert (fit reference lsa_1x3 one_sample
          = (Ok (), (fit reference lsa_1x3 one_sample).2)) as Hfit
    by (vm_compute; reflexivity).
  pose proof (C5_round_trip_fails_after_exact_assignment_1x3 reference lsa_1x3
    (fit reference lsa_1x3 one_sample).2 one_sample one_sample 0%Qc
    exhaustive_lsa_contract eq_refl eq_refl Hfit eq_refl eq_refl) as H.
  exact (conj Hfit (conj (proj1 H) (proj1 (proj2 (proj2 H))))).
Defined.

(** Claim C6: assigning to [pixels] leaves the projector object as it is
    (its [fit_transform] is not invoked: a projector that counts its
    invocations keeps its count), leaves the discretizer and the cached
    oriented positions [_xrot] as they are, stores the new grid, and
    recomputes the mapping from the cached positions and the new grid: the
    mapping is what the stored discretizer returns for them; when the
    discretizer raises, the exception is passed on and the old mapping
    stays. *)
Theorem C6_resize_recomputes_mapping_from_cache
    (E : externals) (t : ImageTransformer E) (p : pixels_arg) :
  _fe E (set_pixels E t p).2 = _fe E t
  ∧ _dm E (set_pixels E t p).2 = _dm E t
  ∧ _xrot E (set_pixels E t p).2 = _xrot E t
  ∧ _pixels E (set_pixels E t p).2 = _parse_pixels p
  ∧ match call_dm E (_dm E t) (_xrot E t) (_parse_pixels p) with
    | Ok c => (set_pixels E t p).1 = Ok () ∧ _coords E (set_pixels E t p).2 = c
    | Raise e =>
        (set_pixels E t p).1 = Raise e
        ∧ _coords E (set_pixels E t p).2 = _coords E t
    end.
Proof.
  destruct (set_pixels_frame E t p) as (Hfe & Hdm & Hxrot & Hpx).
  split_and!; [done..|]. apply set_pixels_coords.
Qed.

(** On the fitted example: the fit invoked the mock projector once; after a
    resize to 3 x 3 the count is still one, the oriented positions are the
    same, and the mapping is the binning of the cached positions on the new
    grid. *)
Lemma C6_resize_recomputes_mapping_from_cache_witness :
  mock_calls (_fe reference fitted_bin_2x2) = 1%nat
  ∧ mock_calls (_fe reference (set_pixels reference fitted_bin_2x2 (PxInt 3)).2) = 1%nat
  ∧ _xrot reference (set_pixels reference fitted_bin_2x2 (PxInt 3)).2
    = _xrot reference fitted_bin_2x2
  ∧ _pixels reference (set_pixels reference fitted_bin_2x2 (PxInt 3)).2 = (3, 3)
  ∧ _coords reference fitted_bin_2x2 = [(0, 0); (1, 1); (1, 0)]
  ∧ _coords reference (set_pixels reference fitted_bin_2x2 (PxInt 3)).2
    = [(0, 0); (1, 2); (2, 1)].
Proof.
  destruct (C6_resize_recomputes_mapping_from_cache reference fitted_bin_2x2 (PxInt 3))
    as (Hfe & _ & Hxrot & Hpx & _).
  rewrite Hfe. split_and!; [reflexivity | reflexivity | exact Hxrot | exact Hpx
                           | reflexivity | reflexivity].
Defined.

(** Claim C7 as stated fails: the fitted example has three features, and
    [transform] accepts an input with four columns; it returns the very
    image it returns for the first three columns. *)
Lemma C7_surplus_columns_are_not_rejected :
  fitted fitted_bin_2x2
  ∧ length (_coords reference fitted_bin_2x2) = 3%nat
  ∧ n_cols two_samples_wide = 4%nat
  ∧ is_Ok (transform reference fitted_bin_2x2 two_samples_wide "scalar" 0%Qc)
  ∧ transform reference fitted_bin_2x2 two_samples_wide "scalar" 0%Qc
    = transform reference fitted_bin_2x2 two_samples "scalar" 0%Qc.
Proof.
  split_and!.
  - apply fitted_bin_2x2_fitted.
  - reflexivity.
  - reflexivity.
  - eexists. vm_compute. reflexivity.
  - vm_compute. reflexivity.
Qed.

(** Claim C7, amended: [transform] does not compare the number of columns
    of [X] with the number of features. When [X] has at least as many
    columns as there are features, the columns beyond the features are
    ignored: the result is the one for [X] cut down to the feature columns,
    and it is an image for each of the three encodings. When [X] has fewer
    columns, numpy's index error for a missing column is raised: it carries
    the offending column index and the width of [X], not the expected
    shape. *)
Theorem C7_transform_does_not_check_the_feature_count
    (E : externals) (t : ImageTransformer E) (X : matrix)
    (img_format : string) (empty_value : Qc) :
  fitted t →
  ((length (_coords E t) ≤ n_cols X)%nat →
     transform E t X img_format empty_value
     = transform E t (truncate (length (_coords E t)) X) img_format empty_value
     ∧ (img_format ∈ ["rgb"; "scalar"; "pytorch"] →
        is_Ok (transform E t X img_format empty_value)))
  ∧ ((n_cols X < length (_coords E t))%nat →
     ∃ f, (n_cols X ≤ f < length (_coords E t))%nat
          ∧ transform E t X img_format empty_value
            = Raise (IndexError (Z.of_nat f) 1 (n_cols X))).
Proof.
  intros Hfit. split.
  - intros Hn. split.
    + unfold transform. by rewrite (img_matrix_of_truncate E t Hfit).
    + intros Hfmt. unfold transform.
      rewrite (img_matrix_of_fitted E t Hfit) by done. simpl.
      repeat case_decide; try (eexists; reflexivity).
      exfalso. set_solver.
  - intros Hn.
    destruct (img_matrix_of_too_narrow E t Hfit X empty_value Hn) as (f & Hf & Himg).
    exists f. split; [done|]. unfold transform. by rewrite Himg.
Qed.

Lemma C7_transform_does_not_check_the_feature_count_witness :
  (transform reference fitted_bin_2x2 two_samples_wide "scalar" 0%Qc
   = transform reference fitted_bin_2x2 (truncate 3 two_samples_wide) "scalar" 0%Qc
   ∧ is_Ok (transform reference fitted_bin_2x2 two_samples_wide "scalar" 0%Qc))
  ∧ (∃ f, (2 ≤ f < 3)%nat
          ∧ transform reference fitted_bin_2x2 two_samples_narrow "scalar" 0%Qc
            = Raise (IndexError (Z.of_nat f) 1 2)).
Proof.
  split.
  - destruct (C7_transform_does_not_check_the_feature_count reference fitted_bin_2x2
                two_samples_wide "scalar" 0%Qc (proj1 fitted_bin_2x2_fitted))
      as [Hwide _].
    destruct (Hwide ltac:(vm_compute; lia)) as [Heq Hok].
    split; [exact Heq|]. apply Hok. right. left.
  - destruct (C7_transform_does_not_check_the_feature_count reference fitted_bin_2x2
                two_samples_narrow "scalar" 0%Qc (proj1 fitted_bin_2x2_fitted))
      as [_ Hnarrow].
    apply Hnarrow. vm_compute. lia.
Defined.

(** Claim C8 as stated fails. An unknown default discretization given to
    the constructor of [MRepImageTransformer] is stored without a look-up
    when every entry brings a discretization of its own: the constructor
    returns. An unknown image format given to [transform] together with an
    input that lacks a column raises numpy's index error, whose message
    does not name the format. And the message of a [KeyError] is the [repr]
    of the key, which does not contain a key with a backslash. *)
Lemma C8_unknown_values_pass_or_go_unnamed :
  (DISCRETIZATION_OPTIONS !! "bogus" = None
   ∧ ∃ self,
       MRepImageTransformer.__init__ reference
         [MRepImageTransformer.WithDiscretization reference
            (FeObj reference (MockProjector three_points 0)) "lsa"]
         "bogus" (PxInt 2) = Ok self
       ∧ MRepImageTransformer.discretization reference self = "bogus")
  ∧ (("bogus" ∉ ["rgb"; "scalar"; "pytorch"])
     ∧ transform reference fitted_bin_2x2 two_samples_narrow "bogus" 0%Qc
       = Raise (IndexError 2 1 2)
     ∧ exn_message (IndexError 2 1 2)
       = Some "index 2 is out of bounds for axis 1 with size 2"
     ∧ ¬ names "bogus" "index 2 is out of bounds for axis 1 with size 2")
  ∧ (DISCRETIZATION_OPTIONS !! "a\b" = None
     ∧ __init__ reference (FeObj reference (MockProjector three_points 0)) "a\b"
         (PxInt 2) = Raise (KeyError "a\b")
     ∧ exn_message (KeyError "a\b") = Some "'a\\b'"
     ∧ ¬ names "a\b" "'a\\b'").
Proof.
  split; [|split].
  - split; [reflexivity|]. eexists. split; reflexivity.
  - split_and!.
    + apply (bool_decide_unpack _). reflexivity.
    + vm_compute. reflexivity.
    + reflexivity.
    + apply not_names. reflexivity.
  - split_and!.
    + reflexivity.
    + reflexivity.
    + reflexivity.
    + apply not_names. reflexivity.
Qed.

(** Claim C8, amended: an unknown enumerated value makes the call that
    looks it up raise, and no call falls back to a default; the look-up is
    not always at the call that receives the value, and the message names
    the value where the package writes it.
    - The constructor of [ImageTransformer] raises for an unknown
      discretization key; with a usable feature extractor the exception is
      the [KeyError] of the key, whose message is the [repr] of the key and
      names a key of plain characters.
    - The constructor of [MRepImageTransformer] looks its default
      discretization up only for the entries that use it: with an unknown
      default it returns exactly when every entry brings a discretization of
      its own from which a transformer can be built.
    - [transform] raises for an unknown image format; an exception of
      building the image matrix comes first, and once the matrix is built
      the exception is the [ValueError] whose message names the format.
    - [prediction_reduction] raises, for all scores and indices, the
      [ValueError] whose message names the unknown reduction. *)
Theorem C8_unknown_options_raise_where_looked_up
    (E : externals) (fe : fe_arg E) (key : string) (px : pixels_arg)
    (feature_extractor : list (MRepImageTransformer.config E))
    (t : ImageTransformer E) (X : matrix) (img_format : string) (empty_value : Qc)
    (y_hat : list Qc) (index : list Z) (reduction : string) :
  DISCRETIZATION_OPTIONS !! key = None →
  img_format ∉ ["rgb"; "scalar"; "pytorch"] →
  reduction ∉ ["mean"; "sum"] →
  (is_Raise (__init__ E fe key px)
   ∧ (is_Ok (_parse_feature_extractor E fe) →
      __init__ E fe key px = Raise (KeyError key)
      ∧ exn_message (KeyError key) = Some (py_repr key)
      ∧ (plain key → names key (py_repr key))))
  ∧ (is_Ok (MRepImageTransformer.__init__ E feature_extractor key px)
     ↔ Forall (brings_discretization px) feature_extractor)
  ∧ (is_Raise (transform E t X img_format empty_value)
     ∧ match img_matrix_of E t X empty_value with
       | Ok _ =>
           ∃ msg, transform E t X img_format empty_value = Raise (ValueError msg)
                  ∧ exn_message (ValueError msg) = Some msg
                  ∧ names img_format msg
       | Raise e => transform E t X img_format empty_value = Raise e
       end)
  ∧ (∃ msg, prediction_reduction y_hat index reduction = Raise (ValueError msg)
            ∧ exn_message (ValueError msg) = Some msg
            ∧ names reduction msg).
Proof.
  intros Hkey Hfmt Hred. split; [split | split; [|split; [split|]]].
  - (* the key is looked up after the feature extractor is parsed *)
    unfold __init__, _parse_discretization. rewrite Hkey.
    destruct (_parse_feature_extractor E fe); eexists; reflexivity.
  - intros [p Hp]. unfold __init__, _parse_discretization. rewrite Hkey, Hp.
    split; [reflexivity|]. split; [reflexivity|].
    intros Hplain. rewrite py_repr_plain by done. apply names_quoted.
  - (* the default is looked up by the transformers built from bare entries *)
    unfold MRepImageTransformer.__init__.
    set (self0 := MRepImageTransformer.mk E key [] px None).
    assert (∀ cfg,
              is_Ok (MRepImageTransformer.initialize_image_transformer E self0 cfg)
              ↔ brings_discretization px cfg) as Hcfg.
    { intros [fe0 | fe0 key0]; simpl; [|done]. split; [|done].
      intros [it Hit]. apply __init___Ok_inv in Hit as (_ & _ & _ & Hdm).
      by rewrite Hkey in Hdm. }
    split.
    + intros [self Hself]. apply mrep_init_loop in Hself as (new & Hnew & _).
      assert (is_Ok (mapM (MRepImageTransformer.initialize_image_transformer E self0)
                       feature_extractor)) as Hok by (by exists new).
      apply mapM_is_Ok in Hok. eapply Forall_impl; [exact Hok|].
      intros cfg. apply Hcfg.
    + intros Hall.
      assert (is_Ok (mapM (MRepImageTransformer.initialize_image_transformer E self0)
                       feature_extractor)) as [new Hnew].
      { apply mapM_is_Ok. eapply Forall_impl; [exact Hall|]. intros cfg. apply Hcfg. }
      eexists. apply mrep_init_loop. by exists new.
  - unfold transform. destruct (img_matrix_of E t X empty_value); simpl;
      [|eexists; reflexivity].
    rewrite !decide_False by set_solver. eexists; reflexivity.
  - unfold transform. destruct (img_matrix_of E t X empty_value); simpl; [|done].
    rewrite !decide_False by set_solver.
    eexists. split; [reflexivity|]. split; [reflexivity | apply names_quoted].
  - unfold prediction_reduction. rewrite !decide_False by set_solver.
    eexists. split; [reflexivity|]. split; [reflexivity|].
    apply (names_quoted_after "reduction method '").
Qed.

Lemma C8_unknown_options_raise_where_looked_up_witness :
  (is_Raise (__init__ reference (FeObj reference (MockProjector three_points 0))
               "foo" (PxInt 2))
   ∧ (is_Ok (_parse_feature_extractor reference
               (FeObj reference (MockProjector three_points 0))) →
      __init__ reference (FeObj reference (MockProjector three_points 0)) "foo"
        (PxInt 2) = Raise (KeyError "foo")
      ∧ exn_message (KeyError "foo") = Some (py_repr "foo")
      ∧ (plain "foo" → names "foo" (py_repr "foo"))))
  ∧ (is_Ok (MRepImageTransformer.__init__ reference
              [MRepImageTransformer.Extractor reference
                 (FeObj reference (MockProjector three_points 0))]
              "foo" (PxInt 2))
     ↔ Forall (brings_discretization (PxInt 2))
         [MRepImageTransformer.Extractor reference
            (FeObj reference (MockProjector three_points 0))])
  ∧ (is_Raise (transform reference fitted_bin_2x2 one_sample "bogus" 0%Qc)
     ∧ match img_matrix_of reference fitted_bin_2x2 one_sample 0%Qc with
       | Ok _ =>
           ∃ msg, transform reference fitted_bin_2x2 one_sample "bogus" 0%Qc
                  = Raise (ValueError msg)
                  ∧ exn_message (ValueError msg) = Some msg
                  ∧ names "bogus" msg
       | Raise e => transform reference fitted_bin_2x2 one_sample "bogus" 0%Qc = Raise e
       end)
  ∧ (∃ msg, prediction_reduction [qz 1; qz 2] [0; 0] "median" = Raise (ValueError msg)
            ∧ exn_message (ValueError msg) = Some msg
            ∧ names "median" msg).
Proof.
  apply (C8_unknown_options_raise_where_looked_up reference
           (FeObj reference (MockProjector three_points 0)) "foo" (PxInt 2)
           [MRepImageTransformer.Extractor reference
              (FeObj reference (MockProjector three_points 0))]
           fitted_bin_2x2 one_sample "bogus" 0%Qc [qz 1; qz 2] [0; 0] "median").
  - reflexivity.
  - apply (bool_decide_unpack _). reflexivity.
  - apply (bool_decide_unpack _). reflexivity.
Defined.

(** Claim C9: for scores and sample indices of equal length, the reduction
    returns one score per distinct index value, in ascending order of the
    index: with 'mean' the mean of the scores carrying that index, with
    'sum' their sum. The scenario of the specification:
    [prediction_reduction([1,2,3,4], index=[0,0,1,1], 'mean') = [1.5, 3.5]]. *)
Theorem C9_prediction_reduction_by_ascending_index
    (y_hat : list Qc) (index : list Z) :
  length y_hat = length index →
  ∃ ks : list Z,
    StronglySorted Z.lt ks
    ∧ (∀ k, k ∈ ks ↔ k ∈ index)
    ∧ prediction_reduction y_hat index "mean"
      = Ok ((λ k, mean_of (scores_with y_hat index k)) <$> ks)
    ∧ prediction_reduction y_hat index "sum"
      = Ok ((λ k, Qc_sum (scores_with y_hat index k)) <$> ks)
    ∧ prediction_reduction [qz 1; qz 2; qz 3; qz 4] [0; 0; 1; 1] "mean"
      = Ok [Q2Qc (3 # 2); Q2Qc (7 # 2)].
Proof.
  intros Hlen. exists (np_unique Z.ltb index). split_and!.
  - eapply StronglySorted_weaken; [|apply (np_unique_sorted Z.ltb)].
    + intros x y Hxy. by apply Z.ltb_lt.
    + exact Z_ltb_trans.
    + exact Z_ltb_total.
  - intros k. apply np_unique_elem.
  - unfold prediction_reduction. rewrite decide_True by done.
    by apply (prediction_reduction_spec np_mean).
  - unfold prediction_reduction. rewrite decide_False by done.
    rewrite decide_True by done. by apply (prediction_reduction_spec Qc_sum).
  - apply result_Qc_list_eq. vm_compute. reflexivity.
Qed.

Lemma C9_prediction_reduction_by_ascending_index_witness :
  ∃ ks : list Z,
    StronglySorted Z.lt ks
    ∧ (∀ k, k ∈ ks ↔ k ∈ [0; 0; 1; 1])
    ∧ prediction_reduction [qz 1; qz 2; qz 3; qz 4] [0; 0; 1; 1] "mean"
      = Ok ((λ k, mean_of (scores_with [qz 1; qz 2; qz 3; qz 4] [0; 0; 1; 1] k)) <$> ks)
    ∧ prediction_reduction [qz 1; qz 2; qz 3; qz 4] [0; 0; 1; 1] "sum"
      = Ok ((λ k, Qc_sum (scores_with [qz 1; qz 2; qz 3; qz 4] [0; 0; 1; 1] k)) <$> ks)
    ∧ prediction_reduction [qz 1; qz 2; qz 3; qz 4] [0; 0; 1; 1] "mean"
      = Ok [Q2Qc (3 # 2); Q2Qc (7 # 2)].
Proof.
  apply (C9_prediction_reduction_by_ascending_index
           [qz 1; qz 2; qz 3; qz 4] [0; 0; 1; 1]).
  reflexivity.
Defined.

(** Claim C10: on a transformer that the constructor returned and that was
    never fitted, assigning to [pixels] raises (the reduction over the empty
    cached position array has no identity) for every discretizer and every
    grid; the new grid is stored all the same, the mapping stays empty. An
    int [n] is expanded to [(n, n)] whether the transformer is fitted or
    not. *)
Theorem C10_set_pixels_before_fit_raises
    (E : externals) (fe : fe_arg E) (key : string) (px : pixels_arg)
    (t : ImageTransformer E) (p : pixels_arg) :
  __init__ E fe key px = Ok t →
  (set_pixels E t p).1
    = Raise (ValueError
        "zero-size array to reduction operation minimum which has no identity")
  ∧ _pixels E (set_pixels E t p).2 = _parse_pixels p
  ∧ _coords E (set_pixels E t p).2 = []
  ∧ (∀ (t0 : ImageTransformer E) (n : Z),
       _pixels E (set_pixels E t0 (PxInt n)).2 = (n, n)).
Proof.
  intros Hinit. apply __init___Ok_inv in Hinit as (Hxrot & Hcoords & _ & _).
  pose proof (set_pixels_coords E t p) as Hc.
  rewrite Hxrot, call_dm_empty in Hc. destruct Hc as [Hr Hc].
  split_and!.
  - exact Hr.
  - apply set_pixels_frame.
  - congruence.
  - intros t0 n. apply (set_pixels_frame E t0 (PxInt n)).
Qed.

Lemma C10_set_pixels_before_fit_raises_witness :
  unfitted_bin_2x2 = Ok bin_2x2
  ∧ (set_pixels reference bin_2x2 (PxTuple 4 6)).1
    = Raise (ValueError
        "zero-size array to reduction operation minimum which has no identity")
  ∧ _pixels reference (set_pixels reference bin_2x2 (PxTuple 4 6)).2 = (4, 6)
  ∧ _coords reference (set_pixels reference bin_2x2 (PxTuple 4 6)).2 = [].
Proof.
  assert (unfitted_bin_2x2 = Ok bin_2x2) as Hinit by reflexivity.
  split; [exact Hinit|].
  destruct (C10_set_pixels_before_fit_raises reference _ _ _ bin_2x2 (PxTuple 4 6) Hinit)
    as (Hr & Hpx & Hc & _).
  by split_and!.
Defined.

(** * Further properties *)

(** ** Binning *)

(** Property X1: binning keeps the order of the features on every axis with
    a range: a feature that is not to the right of another one (on the
    oriented positions) is not in a higher bin. *)
Theorem X1_coordinate_binning_preserves_order
    (E : externals) (position : list point) (px_size : pixel) (m : list pixel)
    (i j : nat) (p q : point) (c c' : pixel) :
  0 < px_size.1 → 0 < px_size.2 →
  coordinate_binning E position px_size = Ok m →
  position !! i = Some p → position !! j = Some q →
  m !! i = Some c → m !! j = Some c' →
  (¬ zero_range position.*1 → (p.1 ≤ q.1)%Qc → c.1 ≤ c'.1)
  ∧ (¬ zero_range position.*2 → (p.2 ≤ q.2)%Qc → c.2 ≤ c'.2).
Proof.
  intros Hh Hw Hm Hp Hq Hc Hc'.
  destruct position as [|p0 ps]; [done|].
  rewrite coordinate_binning_axes in Hm. apply Ok_inj in Hm. subst m.
  rewrite list_lookup_fmap, Hp in Hc. rewrite list_lookup_fmap, Hq in Hc'.
  injection Hc as <-. injection Hc' as <-. cbn [fst snd].
  assert (p ∈ p0 :: ps) as Hpin by (by eapply list_elem_of_lookup_2).
  assert (q ∈ p0 :: ps) as Hqin by (by eapply list_elem_of_lookup_2).
  split; intros Hr Hle.
  - pose proof (range_min_lt_max p0.1 ps.*1 Hr) as Hlt.
    destruct (scale1_mono _ _ px_size.1 p.1 q.1 Hlt ltac:(lia) Hle)
      as (vp & vq & -> & Hvq & Hv).
    destruct (scaled_axis_in_range fst p0 ps px_size.1 q Hr ltac:(lia) Hqin)
      as (w & Hw' & Hb).
    rewrite Hvq in Hw' |- *. injection Hw' as <-.
    apply clamp_bin_mono. split; [by apply floor_int_Fin_mono|].
    by apply (floor_int_in_range E vq).
  - pose proof (range_min_lt_max p0.2 ps.*2 Hr) as Hlt.
    destruct (scale1_mono _ _ px_size.2 p.2 q.2 Hlt ltac:(lia) Hle)
      as (vp & vq & -> & Hvq & Hv).
    destruct (scaled_axis_in_range snd p0 ps px_size.2 q Hr ltac:(lia) Hqin)
      as (w & Hw' & Hb).
    rewrite Hvq in Hw' |- *. injection Hw' as <-.
    apply clamp_bin_mono. split; [by apply floor_int_Fin_mono|].
    by apply (floor_int_in_range E vq).
Qed.

Lemma X1_coordinate_binning_preserves_order_witness :
  (¬ zero_range three_points.*1 → (qz 0 ≤ qz 1)%Qc → (0 : Z) ≤ 1)
  ∧ (¬ zero_range three_points.*2 → (qz 0 ≤ qz 3)%Qc → (0 : Z) ≤ 1).
Proof.
  apply (X1_coordinate_binning_preserves_order reference three_points (2, 2)
           [(0, 0); (1, 1); (1, 0)] 0 1 (qz 0, qz 0) (qz 1, qz 3) (0, 0) (1, 1)).
  - simpl. lia.
  - simpl. lia.
  - vm_compute. reflexivity.
  - reflexivity.
  - reflexivity.
  - reflexivity.
  - reflexivity.
Defined.

(** Property X2: on an axis with a range the bins of the features span the
    axis of the grid: every bin is within [0, d - 1], the features lowest on
    the axis are in bin 0 and the highest ones in bin [d - 1] (the value [d]
    that scaling gives them is moved into the bin below). *)
Theorem X2_coordinate_binning_spans_the_grid
    (E : externals) (position : list point) (px_size : pixel) (m : list pixel) :
  0 < px_size.1 → 0 < px_size.2 →
  coordinate_binning E position px_size = Ok m →
  (¬ zero_range position.*1 → bins_span position.*1 m.*1 px_size.1)
  ∧ (¬ zero_range position.*2 → bins_span position.*2 m.*2 px_size.2).
Proof.
  intros Hh Hw Hm.
  destruct position as [|p0 ps].
  { split; intros _ i x b Hx; done. }
  rewrite coordinate_binning_axes in Hm. apply Ok_inj in Hm. subst m.
  split; intros Hr i x b Hx Hb.
  - rewrite list_lookup_fmap in Hx. rewrite <- list_fmap_compose, list_lookup_fmap in Hb.
    destruct ((p0 :: ps) !! i) as [p|] eqn:Hp; [|done].
    injection Hx as <-. injection Hb as <-.
    change ((p0 :: ps).*1) with (p0.1 :: ps.*1).
    apply (bin_of_axis E p0.1 ps.*1 px_size.1 p.1 Hr Hh); [|done].
    change (p.1 ∈ (p0 :: ps).*1). apply list_elem_of_fmap_2.
    by eapply list_elem_of_lookup_2.
  - rewrite list_lookup_fmap in Hx. rewrite <- list_fmap_compose, list_lookup_fmap in Hb.
    destruct ((p0 :: ps) !! i) as [p|] eqn:Hp; [|done].
    injection Hx as <-. injection Hb as <-.
    change ((p0 :: ps).*2) with (p0.2 :: ps.*2).
    apply (bin_of_axis E p0.2 ps.*2 px_size.2 p.2 Hr Hw); [|done].
    change (p.2 ∈ (p0 :: ps).*2). apply list_elem_of_fmap_2.
    by eapply list_elem_of_lookup_2.
Qed.

Lemma X2_coordinate_binning_spans_the_grid_witness :
  (¬ zero_range three_points.*1
   → bins_span three_points.*1 [(0, 0); (1, 1); (1, 0)].*1 2)
  ∧ (¬ zero_range three_points.*2
     → bins_span three_points.*2 [(0, 0); (1, 1); (1, 0)].*2 2).
Proof.
  apply (X2_coordinate_binning_spans_the_grid reference three_points (2, 2)
           [(0, 0); (1, 1); (1, 0)]).
  - simpl. lia.
  - simpl. lia.
  - vm_compute. reflexivity.
Defined.

(** Property X3: binning does not raise on any non-empty point set and
    returns one pixel per feature. On an axis without a range (all features
    share the coordinate) the scaled value is NaN for every feature, and all
    features receive the same bin: what the conversion to [int] makes of
    NaN. *)
Theorem X3_coordinate_binning_without_range
    (E : externals) (position : list point) (px_size : pixel) :
  position ≠ [] →
  ∃ m, coordinate_binning E position px_size = Ok m
    ∧ length m = length position
    ∧ (zero_range position.*1 →
         ∀ c, c ∈ m → c.1 = clamp_bin px_size.1 (cast_invalid E))
    ∧ (zero_range position.*2 →
         ∀ c, c ∈ m → c.2 = clamp_bin px_size.2 (cast_invalid E)).
Proof.
  intros Hne. destruct position as [|p0 ps]; [done|].
  rewrite coordinate_binning_axes. eexists. split; [reflexivity|].
  split; [by rewrite length_fmap|].
  split; intros Hz c Hc; apply list_elem_of_fmap in Hc as (q & -> & Hq); cbn [fst snd].
  - rewrite <- (zero_range_min_max p0.1 ps.*1 Hz).
    destruct (scale1_zero_range (foldl Qc_min p0.1 ps.*1) px_size.1 q.1) as [-> | Hne'];
      [done|].
    exfalso. apply Hne'. apply Hz; [|by apply foldl_Qc_min_spec].
    change (q.1 ∈ (p0 :: ps).*1). by apply list_elem_of_fmap_2.
  - rewrite <- (zero_range_min_max p0.2 ps.*2 Hz).
    destruct (scale1_zero_range (foldl Qc_min p0.2 ps.*2) px_size.2 q.2) as [-> | Hne'];
      [done|].
    exfalso. apply Hne'. apply Hz; [|by apply foldl_Qc_min_spec].
    change (q.2 ∈ (p0 :: ps).*2). by apply list_elem_of_fmap_2.
Qed.

Lemma X3_coordinate_binning_without_range_witness :
  ∃ m, coordinate_binning reference two_points_on_a_line (2, 2) = Ok m
    ∧ length m = length two_points_on_a_line
    ∧ (zero_range two_points_on_a_line.*1 →
         ∀ c, c ∈ m → c.1 = clamp_bin 2 (cast_invalid reference))
    ∧ (zero_range two_points_on_a_line.*2 →
         ∀ c, c ∈ m → c.2 = clamp_bin 2 (cast_invalid reference)).
Proof.
  apply (X3_coordinate_binning_without_range reference two_points_on_a_line (2, 2)).
  discriminate.
Defined.

(** ** Images *)

(** Property X4: what [transform] puts in a pixel. For a transformer in
    state Fit and an input with at least as many columns as there are
    features, the scalar image of every sample has the shape of the grid;
    a pixel to which features are mapped holds the mean of the sample's
    values over these features, every other pixel holds [empty_value]. *)
Theorem X4_transform_pixel_values
    (E : externals) (t : ImageTransformer E) (X : matrix) (empty_value : Qc) :
  fitted t →
  (length (_coords E t) ≤ n_cols X)%nat →
  ∃ imgs,
    transform E t X "scalar" empty_value
    = Ok (Numpy (Arr3 (Z.to_nat (_pixels E t).1) (Z.to_nat (_pixels E t).2) imgs))
    ∧ length imgs = n_rows X
    ∧ ∀ (s : nat) (r : list Qc) (g : grid),
        rows X !! s = Some r → imgs !! s = Some g →
        grid_shape (_pixels E t) g
        ∧ ∀ c, in_grid (_pixels E t) c →
            at2 0%Qc g (cell_of c) = pixel_value (_coords E t) empty_value r c.
Proof.
  intros Hfit Hn. rewrite (transform_scalar_fitted E t Hfit) by done.
  eexists. split; [reflexivity|]. split; [by rewrite length_fmap|].
  intros s r g Hr Hg. rewrite list_lookup_fmap, Hr in Hg. injection Hg as <-.
  split.
  - apply grid_shape_foldl_paint, grid_shape_initial_grid.
  - intros c Hc. rewrite (painted_pixel E t Hfit) by (done || apply grid_shape_initial_grid).
    unfold pixel_value. destruct (features_at (_coords E t) c); [|done].
    by apply at2_initial_grid.
Qed.

Lemma X4_transform_pixel_values_witness :
  ∃ imgs,
    transform reference fitted_bin_2x2 two_samples "scalar" 0%Qc
    = Ok (Numpy (Arr3 2 2 imgs))
    ∧ length imgs = n_rows two_samples
    ∧ ∀ (s : nat) (r : list Qc) (g : grid),
        rows two_samples !! s = Some r → imgs !! s = Some g →
        grid_shape (2, 2) g
        ∧ ∀ c, in_grid (2, 2) c →
            at2 0%Qc g (cell_of c)
            = pixel_value (_coords reference fitted_bin_2x2) 0%Qc r c.
Proof.
  apply (X4_transform_pixel_values reference fitted_bin_2x2 two_samples 0%Qc).
  - apply fitted_bin_2x2_fitted.
  - vm_compute. lia.
Defined.

(** Property X5: the round trip through the scalar image in general. For a
    transformer in state Fit, [inverse_transform] of the scalar image of [X]
    returns, for every sample and every feature, the mean of the sample's
    values over the features that share the feature's pixel; features that
    share a pixel come back with the same value. *)
Theorem X5_scalar_round_trip_returns_group_means
    (E : externals) (t : ImageTransformer E) (X : matrix) (empty_value : Qc) :
  fitted t →
  (length (_coords E t) ≤ n_cols X)%nat →
  ∃ img, transform E t X "scalar" empty_value = Ok (Numpy img)
    ∧ inverse_transform E t img
      = Ok (Arr2 (Matrix (length (_coords E t))
                    ((λ r, group_mean (_coords E t) r <$> _coords E t) <$> rows X))).
Proof.
  intros Hfit Hn.
  destruct (fitted_grid_positive E t Hfit) as [Hh Hw].
  rewrite (transform_scalar_fitted E t Hfit) by done.
  eexists. split; [reflexivity|].
  unfold inverse_transform.
  rewrite bool_decide_eq_true_2.
  2: { rewrite !Z2Nat.id by lia. symmetry. apply surjective_pairing. }
  rewrite (coords_index_fitted E t Hfit). simpl.
  do 3 f_equal; [by rewrite length_fmap|].
  rewrite <- list_fmap_compose. apply list_fmap_ext. intros s r _. simpl.
  rewrite <- list_fmap_compose. apply list_fmap_ext. intros f c Hc. simpl.
  apply (painted_feature E t Hfit); [apply grid_shape_initial_grid|].
  by eapply list_elem_of_lookup_2.
Qed.

Lemma X5_scalar_round_trip_returns_group_means_witness :
  ∃ img, transform reference fitted_bin_2x2 two_samples_wide "scalar" 0%Qc = Ok (Numpy img)
    ∧ inverse_transform reference fitted_bin_2x2 img
      = Ok (Arr2 (Matrix (length (_coords reference fitted_bin_2x2))
                    ((λ r, group_mean (_coords reference fitted_bin_2x2) r
                           <$> _coords reference fitted_bin_2x2)
                     <$> rows two_samples_wide))).
Proof.
  apply (X5_scalar_round_trip_returns_group_means
           reference fitted_bin_2x2 two_samples_wide 0%Qc).
  - apply fitted_bin_2x2_fitted.
  - vm_compute. lia.
Defined.

(** Property X6: the round trip through the rgb image. For a transformer
    in state Fit, [inverse_transform] of the rgb image of [X] returns an
    array of shape (N, F, 3): for every sample and feature the mean of the
    feature's group, three times. *)
Theorem X6_rgb_round_trip_repeats_group_means
    (E : externals) (t : ImageTransformer E) (X : matrix) (empty_value : Qc) :
  fitted t →
  (length (_coords E t) ≤ n_cols X)%nat →
  ∃ img, transform E t X "rgb" empty_value = Ok (Numpy img)
    ∧ shape img = [n_rows X; Z.to_nat (_pixels E t).1; Z.to_nat (_pixels E t).2; 3%nat]
    ∧ inverse_transform E t img
      = Ok (Arr3 (length (_coords E t)) 3
              ((λ r, (λ c, replicate 3 (group_mean (_coords E t) r c)) <$> _coords E t)
               <$> rows X)).
Proof.
  intros Hfit Hn.
  destruct (fitted_grid_positive E t Hfit) as [Hh Hw].
  unfold transform. rewrite (img_matrix_of_fitted E t Hfit) by done. simpl.
  eexists. split; [reflexivity|]. split.
  { simpl. by rewrite !length_fmap. }
  unfold inverse_transform, _mat_to_rgb.
  rewrite bool_decide_eq_true_2.
  2: { rewrite !Z2Nat.id by lia. symmetry. apply surjective_pairing. }
  rewrite (coords_index_fitted E t Hfit). simpl.
  f_equal. f_equal; [by rewrite length_fmap|].
  rewrite <- !list_fmap_compose. apply list_fmap_ext. intros s r _. simpl.
  rewrite <- list_fmap_compose. apply list_fmap_ext. intros f c Hc. simpl.
  assert (c ∈ _coords E t) as Hcin by (by eapply list_elem_of_lookup_2).
  assert (in_grid (_pixels E t) c) as Hgrid.
  { destruct Hfit as [_ Hin]. rewrite Forall_forall in Hin. by apply Hin. }
  rewrite (at2_rgb (_pixels E t)); [|by apply grid_shape_foldl_paint, grid_shape_initial_grid|done].
  rewrite (painted_feature E t Hfit); [done|apply grid_shape_initial_grid|done].
Qed.

Lemma X6_rgb_round_trip_repeats_group_means_witness :
  ∃ img, transform reference fitted_bin_2x2 two_samples "rgb" 0%Qc = Ok (Numpy img)
    ∧ shape img = [n_rows two_samples; 2%nat; 2%nat; 3%nat]
    ∧ inverse_transform reference fitted_bin_2x2 img
      = Ok (Arr3 (length (_coords reference fitted_bin_2x2)) 3
              ((λ r, (λ c, replicate 3 (group_mean (_coords reference fitted_bin_2x2) r c))
                     <$> _coords reference fitted_bin_2x2)
               <$> rows two_samples)).
Proof.
  apply (X6_rgb_round_trip_repeats_group_means reference fitted_bin_2x2 two_samples 0%Qc).
  - apply fitted_bin_2x2_fitted.
  - vm_compute. lia.
Defined.

(** Property X7: [inverse_transform] does not read the layout of the
    pytorch encoding. Unless the grid is 3 x 3, the tensor of shape
    (N, 3, H, W) that [transform] returns for 'pytorch' is rejected with a
    [ValueError]. [inverse_transform] tests [img.ndim] and slices of
    [img.shape] against the grid, which a tensor answers as the array of
    its values does, so it is run on that array; the text of the message,
    in which a tensor prints its shape in its own way, is not stated. *)
Theorem X7_pytorch_layout_is_not_inverted
    (E : externals) (t : ImageTransformer E) (X : matrix) (empty_value : Qc)
    (img : ndarray) :
  transform E t X "pytorch" empty_value = Ok (Torch img) →
  _pixels E t ≠ (3, 3) →
  shape img = [n_rows X; 3%nat; Z.to_nat (_pixels E t).1; Z.to_nat (_pixels E t).2]
  ∧ ∃ msg, inverse_transform E t img = Raise (ValueError msg).
Proof.
  intros Htr Hpx. unfold transform in Htr.
  apply bind_Ok_inv in Htr as (mat & Hmat & Htr).
  repeat case_decide; try discriminate. injection Htr as <-.
  assert (length mat = n_rows X) as Hlen.
  { unfold img_matrix_of in Hmat. apply bind_Ok_inv in Hmat as (z & Hz & Hloop).
    unfold np_zeros3 in Hz. destruct (decide (_ ∨ _)); [discriminate|].
    injection Hz as <-.
    eapply (foldM_preserves _ (λ m : list grid, length m = n_rows X));
      [ | | exact Hloop].
    - intros img' ic img'' Hl Hstep. unfold img_matrix_step in Hstep.
      apply bind_Ok_inv in Hstep as (sel & Hsel & Hset).
      unfold set_pixel_all in Hset.
      apply bind_Ok_inv in Hset as (r & _ & Hset).
      apply bind_Ok_inv in Hset as (k & _ & Hset). injection Hset as <-.
      unfold take_columns in Hsel. apply bind_Ok_inv in Hsel as (? & _ & Hsel).
      injection Hsel as <-.
      rewrite length_zip_with, !length_fmap. unfold n_rows in *. lia.
    - case_decide; by rewrite ?length_fmap, length_replicate. }
  split; [simpl; by rewrite length_fmap, Hlen|].
  unfold inverse_transform, _mat_to_pytorch.
  rewrite bool_decide_eq_false_2.
  - eexists. reflexivity.
  - intros Heq. apply Hpx. destruct (_pixels E t) as [h w]. simpl in Heq.
    injection Heq as Hh Hw. f_equal; lia.
Qed.

Lemma X7_pytorch_layout_is_not_inverted_witness :
  ∃ img, transform reference fitted_bin_2x2 two_samples "pytorch" 0%Qc = Ok (Torch img)
    ∧ shape img = [n_rows two_samples; 3%nat; 2%nat; 2%nat]
    ∧ ∃ msg, inverse_transform reference fitted_bin_2x2 img = Raise (ValueError msg).
Proof.
  assert (length (_coords reference fitted_bin_2x2) ≤ n_cols two_samples)%nat as Hn
    by (vm_compute; lia).
  eexists. split.
  - exact (transform_pytorch_fitted reference fitted_bin_2x2
             (proj1 fitted_bin_2x2_fitted) two_samples 0%Qc Hn).
  - apply (X7_pytorch_layout_is_not_inverted reference fitted_bin_2x2 two_samples 0%Qc).
    + exact (transform_pytorch_fitted reference fitted_bin_2x2
               (proj1 fitted_bin_2x2_fitted) two_samples 0%Qc Hn).
    + discriminate.
Defined.

(** Property X8: a transformer that was never fitted. [transform] does not
    raise: whatever the input holds, it returns one image per sample with
    [empty_value] in every pixel. [inverse_transform] never returns: it
    raises numpy's [IndexError] for too many indices on an image of a layout
    it reads, and its own [ValueError] on any other. *)
Theorem X8_transformer_before_fit
    (E : externals) (fe : fe_arg E) (key : string) (px : pixels_arg)
    (t : ImageTransformer E) (X : matrix) (empty_value : Qc) :
  __init__ E fe key px = Ok t →
  0 ≤ (_pixels E t).1 → 0 ≤ (_pixels E t).2 →
  transform E t X "scalar" empty_value
  = Ok (Numpy (Arr3 (Z.to_nat (_pixels E t).1) (Z.to_nat (_pixels E t).2)
                 (replicate (n_rows X) (initial_grid (_pixels E t) empty_value))))
  ∧ ∀ img, inverse_transform E t img = Raise TooManyIndices
           ∨ ∃ msg, inverse_transform E t img = Raise (ValueError msg).
Proof.
  intros Hinit Hh Hw.
  apply __init___Ok_inv in Hinit as (_ & Hcs & _ & _). split.
  - unfold transform, img_matrix_of, np_zeros3. rewrite Hcs.
    rewrite decide_False by lia. simpl.
    do 3 f_equal. unfold initial_grid.
    case_decide; [by rewrite fmap_replicate | done].
  - intros img. unfold inverse_transform, coords_index. rewrite Hcs.
    destruct img as [v | M | d1 d2 v | d1 d2 d3 v];
      repeat case_bool_decide; simpl; eauto.
Qed.

Lemma X8_transformer_before_fit_witness :
  transform reference bin_2x2 two_samples "scalar" 0%Qc
  = Ok (Numpy (Arr3 (Z.to_nat (_pixels reference bin_2x2).1)
                 (Z.to_nat (_pixels reference bin_2x2).2)
                 (replicate (n_rows two_samples)
                    (initial_grid (_pixels reference bin_2x2) 0%Qc))))
  ∧ ∀ img, inverse_transform reference bin_2x2 img = Raise TooManyIndices
           ∨ ∃ msg, inverse_transform reference bin_2x2 img = Raise (ValueError msg).
Proof.
  apply (X8_transformer_before_fit reference
           (FeObj reference (MockProjector three_points 0)) "bin" (PxInt 2)
           bin_2x2 two_samples 0%Qc).
  - reflexivity.
  - simpl. lia.
  - simpl. lia.
Defined.

(** ** The feature density matrix *)

(** Property X9: for a transformer in state Fit, [feature_density_matrix]
    returns a matrix of the shape of the grid in which every pixel holds the
    number of features mapped to it. *)
Theorem X9_feature_density_counts_features
    (E : externals) (add_at_no_index : grid → result grid) (t : ImageTransformer E) :
  fitted t →
  ∃ g, feature_density_matrix E add_at_no_index t = Ok g
    ∧ grid_shape (_pixels E t) g
    ∧ ∀ c, in_grid (_pixels E t) c →
        at2 0%Qc g (cell_of c)
        = Qc_of_Z (Z.of_nat (length (features_at (_coords E t) c))).
Proof.
  intros Hfit. destruct (fitted_grid_positive E t Hfit) as [Hh Hw].
  pose proof (coords_index_fitted E t Hfit 0 1) as Hix.
  pose proof Hfit as [Hne Hin].
  unfold feature_density_matrix, np_zeros2. rewrite decide_False by lia. simpl.
  destruct (_coords E t) as [|c0 cs0] eqn:Hcs; [done|]. rewrite <- Hcs in *.
  rewrite Hix. simpl. eexists. split; [reflexivity|].
  assert (∀ ix g0, grid_shape (_pixels E t) g0 →
            grid_shape (_pixels E t) (foldl add_one_at g0 ix)) as Hshape.
  { induction ix as [|rk ix IH]; intros g0 Hg0; simpl; [done|].
    by apply IH, grid_shape_add_one_at. }
  split; [apply Hshape, grid_shape_zeros|].
  intros c [Hr Hk].
  rewrite (foldl_add_one_at_cell (_pixels E t)); cycle 1.
  { apply grid_shape_zeros. }
  { simpl. lia. }
  { simpl. lia. }
  rewrite at2_zeros, Qcplus_0_r. do 2 f_equal.
  rewrite length_features_at. apply count_of_fmap_inj.
  intros c' Hc' Heq. rewrite Forall_forall in Hin.
  by apply (cell_of_inj (_pixels E t)); [apply Hin| |].
Qed.

Lemma X9_feature_density_counts_features_witness :
  ∃ g, feature_density_matrix reference (λ g, Ok g) fitted_bin_2x2 = Ok g
    ∧ grid_shape (_pixels reference fitted_bin_2x2) g
    ∧ ∀ c, in_grid (_pixels reference fitted_bin_2x2) c →
        at2 0%Qc g (cell_of c)
        = Qc_of_Z (Z.of_nat (length (features_at (_coords reference fitted_bin_2x2) c))).
Proof.
  apply (X9_feature_density_counts_features reference (λ g, Ok g) fitted_bin_2x2).
  apply fitted_bin_2x2_fitted.
Defined.

(** Property X10: no feature is lost or counted twice: for a transformer in
    state Fit the cells of the feature density matrix add up to the number
    of features. *)
Theorem X10_feature_density_adds_up
    (E : externals) (add_at_no_index : grid → result grid) (t : ImageTransformer E) :
  fitted t →
  ∃ g, feature_density_matrix E add_at_no_index t = Ok g
    ∧ grid_total g = Qc_of_Z (Z.of_nat (length (_coords E t))).
Proof.
  intros Hfit. destruct (fitted_grid_positive E t Hfit) as [Hh Hw].
  pose proof (coords_index_fitted E t Hfit 0 1) as Hix.
  pose proof Hfit as [Hne Hin].
  unfold feature_density_matrix, np_zeros2. rewrite decide_False by lia. simpl.
  destruct (_coords E t) as [|c0 cs0] eqn:Hcs; [done|]. rewrite <- Hcs in *.
  rewrite Hix. simpl. eexists. split; [reflexivity|].
  rewrite (grid_total_foldl_add_one_at (_pixels E t)).
  - by rewrite grid_total_zeros, Qcplus_0_r, length_fmap.
  - apply grid_shape_zeros.
  - apply Forall_fmap. eapply Forall_impl; [exact Hin|].
    intros c [Hr Hk]. simpl. lia.
Qed.

Lemma X10_feature_density_adds_up_witness :
  ∃ g, feature_density_matrix reference (λ g, Ok g) fitted_bin_2x2 = Ok g
    ∧ grid_total g = Qc_of_Z (Z.of_nat (length (_coords reference fitted_bin_2x2))).
Proof.
  apply (X10_feature_density_adds_up reference (λ g, Ok g) fitted_bin_2x2).
  apply fitted_bin_2x2_fitted.
Defined.

(** ** The assignment discretizers *)

(** Property X11: [assignment_postprocessing] gives every feature the pixel
    decoded from the row of the solution that its label selects. It returns
    one pixel per feature; features with the same label receive the same
    pixel; and when the solution assigns distinct pixel indices, features
    with different (non-negative) labels receive different pixels. *)
Theorem X11_assignment_postprocessing_by_label
    (position : list point) (px_size : pixel) (solution labels : list Z)
    (m : list pixel) :
  assignment_postprocessing position px_size solution labels = Ok m →
  length m = length position
  ∧ (∀ i j l, (i < length position)%nat → (j < length position)%nat →
       labels !! i = Some l → labels !! j = Some l → m !! i = m !! j)
  ∧ (px_size.1 ≠ 0 → NoDup solution → Forall (λ l, 0 ≤ l) labels →
     ∀ i j li lj, (i < length position)%nat → (j < length position)%nat →
       labels !! i = Some li → labels !! j = Some lj → li ≠ lj →
       m !! i ≠ m !! j).
Proof.
  intros Hm.
  apply assignment_postprocessing_Ok_inv in Hm as (rs & Hlen & Hrs & -> & Hlab).
  split; [by rewrite length_fmap|]. split.
  - intros i j l Hi Hj Hli Hlj.
    destruct (lookup_lt_is_Some_2 rs i) as [ri Hri]; [lia|].
    destruct (lookup_lt_is_Some_2 rs j) as [rj Hrj]; [lia|].
    destruct (Hlab i ri Hri) as (l1 & Hl1 & Hr1).
    destruct (Hlab j rj Hrj) as (l2 & Hl2 & Hr2).
    rewrite !list_lookup_fmap, Hri, Hrj. simpl. do 3 f_equal. congruence.
  - intros Hh Hnd Hnonneg i j li lj Hi Hj Hli Hlj Hne.
    destruct (lookup_lt_is_Some_2 rs i) as [ri Hri]; [lia|].
    destruct (lookup_lt_is_Some_2 rs j) as [rj Hrj]; [lia|].
    destruct (Hlab i ri Hri) as (l1 & Hl1 & Hr1).
    destruct (Hlab j rj Hrj) as (l2 & Hl2 & Hr2).
    rewrite Hli in Hl1. injection Hl1 as <-. rewrite Hlj in Hl2. injection Hl2 as <-.
    rewrite Forall_forall in Hnonneg.
    apply np_index_nonneg in Hr1 as [-> Hb1];
      [|by apply Hnonneg; eapply list_elem_of_lookup_2].
    apply np_index_nonneg in Hr2 as [-> Hb2];
      [|by apply Hnonneg; eapply list_elem_of_lookup_2].
    destruct (lookup_lt_is_Some_2 solution (Z.to_nat li) Hb1) as [a Ha].
    destruct (lookup_lt_is_Some_2 solution (Z.to_nat lj) Hb2) as [b Hb].
    rewrite !list_lookup_fmap, Hri, Hrj. simpl. rewrite Ha, Hb. simpl.
    intros Heq. assert (a = b) as <-.
    { apply (decode_pixel_inj px_size); [done | congruence]. }
    pose proof (NoDup_lookup _ _ _ _ Hnd Ha Hb) as Hij.
    assert (0 ≤ li) by (by apply Hnonneg; eapply list_elem_of_lookup_2).
    assert (0 ≤ lj) by (by apply Hnonneg; eapply list_elem_of_lookup_2).
    lia.
Qed.

Lemma X11_assignment_postprocessing_by_label_witness :
  length [(0, 1); (0, 0); (0, 1)] = length three_points
  ∧ (∀ i j l, (i < length three_points)%nat → (j < length three_points)%nat →
       [0; 1; 0] !! i = Some l → [0; 1; 0] !! j = Some l →
       [(0, 1); (0, 0); (0, 1)] !! i = [(0, 1); (0, 0); (0, 1)] !! j)
  ∧ ((2, 2).1 ≠ 0 → NoDup [1; 0] → Forall (λ l, 0 ≤ l) [0; 1; 0] →
     ∀ i j li lj, (i < length three_points)%nat → (j < length three_points)%nat →
       [0; 1; 0] !! i = Some li → [0; 1; 0] !! j = Some lj → li ≠ lj →
       [(0, 1); (0, 0); (0, 1)] !! i ≠ [(0, 1); (0, 0); (0, 1)] !! j).
Proof.
  apply (X11_assignment_postprocessing_by_label three_points (2, 2) [1; 0] [0; 1; 0]).
  vm_compute. reflexivity.
Defined.

(** Property X12: the heuristic assignment ('ags') allows one assignment
    less than there are pixels. With a solver that returns valid assignments
    and a clustering that returns no more centres than asked for, the
    mapping it returns has one pixel per feature and is injective exactly
    when the number of features is at most H * W - 1: with as many features
    as pixels, two features share a pixel. *)
Theorem X12_heuristic_assignment_injective_iff
    (E : externals) (position : list point) (px_size : pixel) (m : list pixel) :
  valid_solver (asymmetric_greedy_search E) →
  bounded_clusterer (bisecting_kmeans E) →
  coordinate_heuristic_assignment E position px_size = Ok m →
  length m = length position
  ∧ (NoDup m ↔ Z.of_nat (length position) ≤ px_size.1 * px_size.2 - 1).
Proof.
  intros Hsolver Hcluster Hrun. unfold coordinate_heuristic_assignment in Hrun.
  cbv zeta in Hrun.
  apply assignment_pipeline_Ok_inv in Hrun
    as (scaled & pxc & dist & labels & sol & Hlen & Hne & Hpxc & Hcase & Hsol & Hpost).
  pose proof Hpost as Hpost'.
  apply assignment_postprocessing_Ok_inv in Hpost' as (rs & Hlrs & Hrs & Hm & _).
  split; [by rewrite Hm, length_fmap|].
  assert (0 < length position)%nat as Hpos by (destruct position; [done | simpl; lia]).
  destruct (decide (Z.of_nat (length position) > px_size.1 * px_size.2 - 1))
    as [Hgt|Hle].
  - (* clustered: fewer rows in the solution than features *)
    destruct Hcase as (centers & Hkm & ->).
    apply Hcluster in Hkm.
    destruct (Hsolver _ _ Hsol) as (Hl & _ & _).
    { rewrite length_cdist2. destruct centers as [|c centers]; [simpl; lia|].
      rewrite n_cost_cols_cdist2 by done. simpl in *. lia. }
    rewrite length_cdist2 in Hl.
    split; [|lia]. intros Hnd. exfalso.
    rewrite Hm in Hnd. apply NoDup_fmap_1 in Hnd.
    pose proof (NoDup_bounded_length rs (length sol) Hnd Hrs). lia.
  - (* one row of the solution per feature *)
    destruct Hcase as [-> ->].
    assert (scaled ≠ []) as Hne' by (destruct scaled, position; done).
    destruct (Hsolver _ _ Hsol) as (Hl & Hnd & _).
    { rewrite length_cdist2, n_cost_cols_cdist2 by done. lia. }
    rewrite length_cdist2 in Hl.
    rewrite assignment_postprocessing_identity in Hpost by congruence.
    injection Hpost as <-. split; [lia|]. intros _.
    apply NoDup_fmap_2_strong; [|done].
    intros k k' _ _. apply decode_pixel_inj. intros H0. rewrite H0 in Hle. lia.
Qed.

Lemma X12_heuristic_assignment_injective_iff_witness :
  length [(0, 0); (0, 1); (1, 0); (0, 0)] = length four_points
  ∧ (NoDup [(0, 0); (0, 1); (1, 0); (0, 0)]
     ↔ Z.of_nat (length four_points) ≤ (2, 2).1 * (2, 2).2 - 1).
Proof.
  apply (X12_heuristic_assignment_injective_iff reference four_points (2, 2)
           [(0, 0); (0, 1); (1, 0); (0, 0)]).
  - exact exhaustive_lsa_valid.
  - exact round_robin_clusters_bounded.
  - vm_compute. reflexivity.
Defined.

(** Property X13: on a grid that is higher than wide both assignment
    discretizers raise, for every non-empty set of positions: the
    enumeration of the pixel centroids writes behind the end of its array,
    and numpy's index error for the first axis of that array (of H * W rows)
    is what the discretizer raises. *)
Theorem X13_assignment_raises_on_tall_grids
    (E : externals) (position : list point) (H W : Z) :
  1 ≤ W < H → position ≠ [] →
  (∃ k, coordinate_optimal_assignment E position (H, W)
        = Raise (IndexError k 0 (Z.to_nat (H * W))))
  ∧ (∃ k, coordinate_heuristic_assignment E position (H, W)
          = Raise (IndexError k 0 (Z.to_nat (H * W)))).
Proof.
  intros HW Hne.
  destruct (calculate_pixel_centroids_tall (uninit E) H W HW) as [e He].
  destruct (calculate_pixel_centroids_Raise_inv (uninit E) (H, W) e) as [k ->];
    [simpl; nia | done |].
  destruct (scale_coordinates_spec position (H, W) Hne) as (scaled & Hscaled & _).
  unfold coordinate_optimal_assignment, coordinate_heuristic_assignment,
    assignment_preprocessing.
  rewrite Hscaled, He. simpl. eauto.
Qed.

Lemma X13_assignment_raises_on_tall_grids_witness :
  (∃ k, coordinate_optimal_assignment reference three_points (3, 2)
        = Raise (IndexError k 0 (Z.to_nat (3 * 2))))
  ∧ (∃ k, coordinate_heuristic_assignment reference three_points (3, 2)
          = Raise (IndexError k 0 (Z.to_nat (3 * 2)))).
Proof.
  apply (X13_assignment_raises_on_tall_grids reference three_points 3 2).
  - lia.
  - discriminate.
Defined.

(** Property X14: where the exact assignment puts the features on a grid of
    any shape. With a valid solver and no more features than pixels, every
    pixel [(row, column)] of the mapping has its row below the width and its
    column below the height of the grid: the mapping lies within the grid
    with height and width exchanged. *)
Theorem X14_exact_assignment_within_exchanged_grid
    (E : externals) (position : list point) (px_size : pixel) (m : list pixel) :
  solver_contract (linear_sum_assignment E) →
  0 < px_size.1 →
  Z.of_nat (length position) ≤ px_size.1 * px_size.2 →
  coordinate_optimal_assignment E position px_size = Ok m →
  Forall (in_grid (px_size.2, px_size.1)) m.
Proof.
  intros Hlsa Hh Hroom Hrun.
  apply (coordinate_optimal_assignment_Ok_inv E Hlsa) in Hrun
    as (sol & -> & _ & _ & Hrange & _); [|done].
  apply Forall_fmap. eapply Forall_impl; [exact Hrange|].
  intros c [Hc0 Hc]. unfold in_grid, decode_pixel, np_floordiv, np_mod. simpl.
  rewrite !decide_False by lia. split.
  - split; [by apply Z.div_pos | apply Z.div_lt_upper_bound; lia].
  - apply Z.mod_pos_bound. lia.
Qed.

Lemma X14_exact_assignment_within_exchanged_grid_witness :
  Forall (in_grid ((1, 3).2, (1, 3).1)) [(0, 0); (2, 0); (1, 0)].
Proof.
  apply (X14_exact_assignment_within_exchanged_grid reference three_points (1, 3)
           [(0, 0); (2, 0); (1, 0)] exhaustive_lsa_contract).
  - simpl. lia.
  - simpl. lia.
  - vm_compute. reflexivity.
Defined.

(** ** The prediction reduction *)

(** Property X15: scores and indices of different lengths. With an empty
    index array [prediction_reduction] returns an empty array, whatever the
    scores; with a non-empty index array whose length differs from that of
    the scores it raises numpy's index error for a boolean mask of the wrong
    length. *)
Theorem X15_prediction_reduction_length_mismatch
    (y_hat : list Qc) (index : list Z) (reduction : string) :
  reduction ∈ ["mean"; "sum"] →
  length index ≠ length y_hat →
  prediction_reduction y_hat index reduction
  = match index with
    | [] => Ok []
    | _ => Raise (BooleanIndexError 0 (length y_hat) (length index))
    end.
Proof.
  intros Hred Hlen. unfold prediction_reduction.
  destruct (np_unique Z.ltb index) as [|k ks] eqn:Hunq.
  - apply np_unique_nil_iff in Hunq. subst index.
    repeat case_decide; try done. exfalso. set_solver.
  - assert (index ≠ []) as Hne.
    { intros ->. discriminate. }
    assert (mask_eq y_hat index k
            = Raise (BooleanIndexError 0 (length y_hat) (length index))) as Hmask.
    { unfold mask_eq. by rewrite decide_False. }
    destruct index as [|i index]; [done|].
    repeat case_decide; simpl; rewrite ?Hmask; try done.
    exfalso. set_solver.
Qed.

Lemma X15_prediction_reduction_length_mismatch_witness :
  prediction_reduction [qz 1; qz 2; qz 3] [0; 1] "mean"
  = Raise (BooleanIndexError 0 (length [qz 1; qz 2; qz 3]) (length [0; 1])).
Proof.
  apply (X15_prediction_reduction_length_mismatch [qz 1; qz 2; qz 3] [0; 1] "mean").
  - apply (bool_decide_unpack _). reflexivity.
  - simpl. lia.
Defined.

(** Property X16: the reduction groups the scores by sample, whatever the
    order of the representations. When the scores and their sample indices
    are permuted together, [prediction_reduction] returns one score per
    distinct sample in the same ascending order as before, and the score of
    each sample reduces the same scores as before, up to their order. (The
    reduced values themselves are not compared: a sum of floating-point
    numbers can depend on the order of its terms.) *)
Theorem X16_prediction_reduction_groups_by_sample
    (y_hat y_hat' : list Qc) (index index' : list Z) :
  length y_hat = length index →
  length y_hat' = length index' →
  zip y_hat' index' ≡ₚ zip y_hat index →
  ∃ ks : list Z,
    np_unique Z.ltb index = ks
    ∧ np_unique Z.ltb index' = ks
    ∧ (∀ k, scores_with y_hat' index' k ≡ₚ scores_with y_hat index k)
    ∧ prediction_reduction y_hat index "mean"
      = Ok ((λ k, np_mean (scores_with y_hat index k)) <$> ks)
    ∧ prediction_reduction y_hat' index' "mean"
      = Ok ((λ k, np_mean (scores_with y_hat' index' k)) <$> ks)
    ∧ prediction_reduction y_hat index "sum"
      = Ok ((λ k, Qc_sum (scores_with y_hat index k)) <$> ks)
    ∧ prediction_reduction y_hat' index' "sum"
      = Ok ((λ k, Qc_sum (scores_with y_hat' index' k)) <$> ks).
Proof.
  intros Hlen Hlen' Hperm.
  assert (index' ≡ₚ index) as Hidx.
  { rewrite <- (snd_zip y_hat' index'), <- (snd_zip y_hat index) by lia.
    by apply fmap_Permutation. }
  assert (np_unique Z.ltb index' = np_unique Z.ltb index) as Hunq.
  { apply np_unique_Z_determined; [apply np_unique_Z_sorted|].
    intros k. rewrite np_unique_elem. by rewrite Hidx. }
  assert (∀ k, scores_with y_hat' index' k ≡ₚ scores_with y_hat index k) as Hsel.
  { intros k. rewrite !scores_with_filter by done.
    apply fmap_Permutation. by apply filter_Permutation. }
  exists (np_unique Z.ltb index). split_and!; [done | done | done | | | | ].
  - unfold prediction_reduction. rewrite decide_True by done.
    by apply (prediction_reduction_spec np_mean).
  - unfold prediction_reduction. rewrite decide_True by done.
    rewrite <- Hunq. by apply (prediction_reduction_spec np_mean).
  - unfold prediction_reduction. rewrite decide_False by done.
    rewrite decide_True by done. by apply (prediction_reduction_spec Qc_sum).
  - unfold prediction_reduction. rewrite decide_False by done.
    rewrite decide_True by done.
    rewrite <- Hunq. by apply (prediction_reduction_spec Qc_sum).
Qed.

Lemma X16_prediction_reduction_groups_by_sample_witness :
  ∃ ks : list Z,
    np_unique Z.ltb [0; 0; 1; 1] = ks
    ∧ np_unique Z.ltb [1; 0; 1; 0] = ks
    ∧ (∀ k, scores_with [qz 3; qz 1; qz 4; qz 2] [1; 0; 1; 0] k
            ≡ₚ scores_with [qz 1; qz 2; qz 3; qz 4] [0; 0; 1; 1] k)
    ∧ prediction_reduction [qz 1; qz 2; qz 3; qz 4] [0; 0; 1; 1] "mean"
      = Ok ((λ k, np_mean (scores_with [qz 1; qz 2; qz 3; qz 4] [0; 0; 1; 1] k)) <$> ks)
    ∧ prediction_reduction [qz 3; qz 1; qz 4; qz 2] [1; 0; 1; 0] "mean"
      = Ok ((λ k, np_mean (scores_with [qz 3; qz 1; qz 4; qz 2] [1; 0; 1; 0] k)) <$> ks)
    ∧ prediction_reduction [qz 1; qz 2; qz 3; qz 4] [0; 0; 1; 1] "sum"
      = Ok ((λ k, Qc_sum (scores_with [qz 1; qz 2; qz 3; qz 4] [0; 0; 1; 1] k)) <$> ks)
    ∧ prediction_reduction [qz 3; qz 1; qz 4; qz 2] [1; 0; 1; 0] "sum"
      = Ok ((λ k, Qc_sum (scores_with [qz 3; qz 1; qz 4; qz 2] [1; 0; 1; 0] k)) <$> ks).
Proof.
  apply (X16_prediction_reduction_groups_by_sample
           [qz 1; qz 2; qz 3; qz 4] [qz 3; qz 1; qz 4; qz 2] [0; 0; 1; 1] [1; 0; 1; 0]).
  - reflexivity.
  - reflexivity.
  - simpl.
    change ([(qz 3, 1); (qz 1, 0); (qz 4, 1); (qz 2, 0)]
            ≡ₚ [(qz 1, 0); (qz 2, 0); (qz 3, 1); (qz 4, 1)]).
    etrans; [apply perm_swap|]. apply perm_skip.
    etrans; [apply perm_skip, perm_swap|]. apply perm_swap.
Defined.

(** ** The multi-representation transformer *)

(** Property X17: collating by manifold. When
    [MRepImageTransformer.transform] returns images and index for
    [collate='manifold'], every transformer has transformed [X]; the output
    lists the images transformer by transformer, each with all the samples
    in the order of [X], and the index gives every image the row number of
    its sample: there are R * N images for R transformers and N samples. *)
Theorem X17_mrep_transform_collates_by_manifold
    (E : externals) (permutation : nat → list Z) (self : MRepImageTransformer.t E)
    (X : matrix) (img_format : string) (empty_value : Qc)
    (img : image) (x_index : list Z) :
  MRepImageTransformer.transform E permutation self X img_format empty_value
    "manifold" true = Returns (img, Some x_index) →
  ∃ translist,
    mapM (λ it, transform E it X img_format empty_value)
         (MRepImageTransformer._its E self) = Ok translist
    ∧ length x_index = (length (MRepImageTransformer._its E self) * n_rows X)%nat
    ∧ zip (items (to_array img)) x_index
      = translist ≫= (λ im, zip (items (to_array im)) (np_arange (n_rows X))).
Proof.
  intros Hrun.
  apply mrep_transform_Returns_inv in Hrun
    as (translist & a & idx & Htl & Hlen & Hdim & -> & [= <-] & Hcase).
  destruct Hcase as [(_ & Hcat & ->) | [(Hc & _) | (Hc & _)]]; try discriminate.
  exists translist. split; [done|]. split.
  { by rewrite length_np_tile, length_np_arange, Hlen. }
  apply np_concatenate_items in Hcat as [_ ->].
  rewrite list_fmap_bind.
  apply (zip_bind_tile (items ∘ to_array) (np_arange (n_rows X)) translist).
  eapply Forall_impl; [exact Hdim|]. intros im Him. simpl in *.
  by rewrite length_items, length_np_arange.
Qed.

Lemma X17_mrep_transform_collates_by_manifold_witness :
  ∃ img x_index translist,
    MRepImageTransformer.transform reference reversed_order fitted_mrep_2x2
      two_samples "scalar" 0%Qc "manifold" true
    = Returns (img, Some x_index)
    ∧ mapM (λ it, transform reference it two_samples "scalar" 0%Qc)
           (MRepImageTransformer._its reference fitted_mrep_2x2) = Ok translist
    ∧ length x_index
      = (length (MRepImageTransformer._its reference fitted_mrep_2x2)
         * n_rows two_samples)%nat
    ∧ zip (items (to_array img)) x_index
      = translist ≫= (λ im, zip (items (to_array im)) (np_arange (n_rows two_samples))).
Proof.
  destruct (MRepImageTransformer.transform reference reversed_order fitted_mrep_2x2
      two_samples "scalar" 0%Qc "manifold" true)
    as [[img [x_index|]]|e] eqn:Hrun.
  - destruct (X17_mrep_transform_collates_by_manifold reference reversed_order
                fitted_mrep_2x2 two_samples "scalar" 0%Qc img x_index Hrun)
      as (translist & H1 & H2 & H3).
    exists img, x_index, translist. exact (conj eq_refl (conj H1 (conj H2 H3))).
  - exfalso. vm_compute in Hrun. discriminate.
  - exfalso. vm_compute in Hrun. discriminate.
Defined.

(** Property X18: collating by sample. For [collate='sample'] the output
    lists the images sample by sample in the order of [X]: for every sample
    its image from every transformer, in the order of the transformers, each
    with the row number of the sample as its index. *)
Theorem X18_mrep_transform_collates_by_sample
    (E : externals) (permutation : nat → list Z) (self : MRepImageTransformer.t E)
    (X : matrix) (img_format : string) (empty_value : Qc)
    (img : image) (x_index : list Z) :
  MRepImageTransformer.transform E permutation self X img_format empty_value
    "sample" true = Returns (img, Some x_index) →
  ∃ translist,
    mapM (λ it, transform E it X img_format empty_value)
         (MRepImageTransformer._its E self) = Ok translist
    ∧ length x_index = (length (MRepImageTransformer._its E self) * n_rows X)%nat
    ∧ (∀ s, (s < n_rows X)%nat →
         length (representations translist s)
         = length (MRepImageTransformer._its E self))
    ∧ zip (items (to_array img)) x_index
      = seq 0 (n_rows X)
        ≫= (λ s, (λ x, (x, Z.of_nat s)) <$> representations translist s).
Proof.
  intros Hrun.
  apply mrep_transform_Returns_inv in Hrun
    as (translist & a & idx & Htl & Hlen & Hdim & -> & [= <-] & Hcase).
  destruct Hcase as [(Hc & _) | [(_ & Hcat & ->) | (Hc & _)]]; try discriminate.
  exists translist. split; [done|]. split.
  { by rewrite length_np_repeat, length_np_arange, Hlen. }
  assert (∀ s, (s < n_rows X)%nat →
            length (representations translist s) = length translist) as Hrep.
  { intros s Hs. by apply (length_representations translist (n_rows X)). }
  split; [intros s Hs; rewrite <- Hlen; by apply Hrep|].
  apply (np_stack_reshape_items translist (n_rows X)) in Hcat as [_ ->]; [|done].
  rewrite np_arange_seq.
  apply (zip_bind_repeat (representations translist) Z.of_nat).
  apply Forall_forall. intros s Hs. apply elem_of_seq in Hs. apply Hrep. lia.
Qed.

Lemma X18_mrep_transform_collates_by_sample_witness :
  ∃ img x_index translist,
    MRepImageTransformer.transform reference reversed_order fitted_mrep_2x2
      two_samples "scalar" 0%Qc "sample" true
    = Returns (img, Some x_index)
    ∧ mapM (λ it, transform reference it two_samples "scalar" 0%Qc)
           (MRepImageTransformer._its reference fitted_mrep_2x2) = Ok translist
    ∧ length x_index
      = (length (MRepImageTransformer._its reference fitted_mrep_2x2)
         * n_rows two_samples)%nat
    ∧ (∀ s, (s < n_rows two_samples)%nat →
         length (representations translist s)
         = length (MRepImageTransformer._its reference fitted_mrep_2x2))
    ∧ zip (items (to_array img)) x_index
      = seq 0 (n_rows two_samples)
        ≫= (λ s, (λ x, (x, Z.of_nat s)) <$> representations translist s).
Proof.
  destruct (MRepImageTransformer.transform reference reversed_order fitted_mrep_2x2
      two_samples "scalar" 0%Qc "sample" true)
    as [[img [x_index|]]|e] eqn:Hrun.
  - destruct (X18_mrep_transform_collates_by_sample reference reversed_order
                fitted_mrep_2x2 two_samples "scalar" 0%Qc img x_index Hrun)
      as (translist & H1 & H2 & H3 & H4).
    exists img, x_index, translist.
    exact (conj eq_refl (conj H1 (conj H2 (conj H3 H4)))).
  - exfalso. vm_compute in Hrun. discriminate.
  - exfalso. vm_compute in Hrun. discriminate.
Defined.

(** Property X19: collating at random. Given that [np.random.permutation]
    returns a permutation, whenever [transform] returns for
    [collate='manifold'] it also returns for [collate='random'], and the
    images with their indices are those of the manifold order in another
    order: every image keeps the index of its sample. *)
Theorem X19_mrep_transform_random_permutes_pairs
    (E : externals) (permutation : nat → list Z) (self : MRepImageTransformer.t E)
    (X : matrix) (img_format : string) (empty_value : Qc)
    (img0 : image) (x_index0 : list Z) :
  draws_permutations permutation →
  MRepImageTransformer.transform E permutation self X img_format empty_value
    "manifold" true = Returns (img0, Some x_index0) →
  ∃ img x_index,
    MRepImageTransformer.transform E permutation self X img_format empty_value
      "random" true = Returns (img, Some x_index)
    ∧ zip (items (to_array img)) x_index ≡ₚ zip (items (to_array img0)) x_index0.
Proof.
  intros Hperm Hrun.
  apply mrep_transform_Returns_inv in Hrun
    as (translist & a0 & idx & Htl & Hlen & Hdim & Ha0 & [= <-] & Hcase).
  destruct Hcase as [(_ & Hcat & ->) | [(Hc & _) | (Hc & _)]]; try discriminate.
  rewrite Ha0. clear Ha0 img0.
  set (tile := np_tile (np_arange (n_rows X)) (length translist)) in *.
  assert (length (items a0) = length tile) as Hsame.
  { pose proof Hcat as Hcat'. apply np_concatenate_items in Hcat' as [_ ->].
    rewrite list_fmap_bind.
    rewrite (length_bind_const _ (n_rows X)).
    - subst tile. rewrite length_np_tile, length_np_arange. lia.
    - eapply Forall_impl; [exact Hdim|]. intros im Him. simpl in *.
      by rewrite length_items. }
  set (p := permutation (length tile)).
  assert (Forall (λ i, 0 ≤ i < Z.of_nat (length tile)) p) as Hp.
  { subst p. rewrite (Hperm (length tile)). apply Forall_np_arange. }
  destruct (take_rows_in_range a0 p) as [a Ha].
  { by rewrite <- length_items, Hsame. }
  unfold MRepImageTransformer.transform.
  rewrite Htl. simpl. rewrite <- Hlen. fold tile.
  rewrite Hcat. simpl. fold p. rewrite Ha. simpl.
  rewrite mapM_getitem_in_range by done. simpl.
  eexists _, _. split; [reflexivity|].
  rewrite to_array_wrap.
  rewrite (items_take_rows a0 a p); [| by rewrite <- length_items, Hsame | done].
  rewrite zip_omap_lookup by (done || by rewrite Hsame).
  apply omap_lookup_Permutation.
  rewrite length_zip_with, Hsame, Nat.min_id. apply Hperm.
Qed.

Lemma X19_mrep_transform_random_permutes_pairs_witness :
  ∃ img0 x_index0 img x_index,
    MRepImageTransformer.transform reference reversed_order fitted_mrep_2x2
      two_samples "scalar" 0%Qc "manifold" true
    = Returns (img0, Some x_index0)
    ∧ MRepImageTransformer.transform reference reversed_order fitted_mrep_2x2
      two_samples "scalar" 0%Qc "random" true
      = Returns (img, Some x_index)
    ∧ zip (items (to_array img)) x_index ≡ₚ zip (items (to_array img0)) x_index0.
Proof.
  destruct (MRepImageTransformer.transform reference reversed_order fitted_mrep_2x2
      two_samples "scalar" 0%Qc "manifold" true)
    as [[img0 [x_index0|]]|e] eqn:Hrun.
  - destruct (X19_mrep_transform_random_permutes_pairs reference reversed_order
                fitted_mrep_2x2 two_samples "scalar" 0%Qc img0 x_index0
                reversed_order_permutes Hrun)
      as (img & x_index & H1 & H2).
    exists img0, x_index0, img, x_index. exact (conj eq_refl (conj H1 H2)).
  - exfalso. vm_compute in Hrun. discriminate.
  - exfalso. vm_compute in Hrun. discriminate.
Defined.

(** Property X20: reducing predictions with the index that [transform]
    returns. Whatever the collation, the index holds exactly the row numbers
    of [X], so that [prediction_reduction] over scores of that length
    returns one score per sample of [X], in the order of the samples: the
    mean (or sum) of the scores of the sample's representations. *)
Theorem X20_prediction_reduction_over_transform_index
    (E : externals) (permutation : nat → list Z) (self : MRepImageTransformer.t E)
    (X : matrix) (img_format : string) (empty_value : Qc) (collate : string)
    (img : image) (x_index : list Z) (y_hat : list Qc) :
  draws_permutations permutation →
  MRepImageTransformer.transform E permutation self X img_format empty_value
    collate true = Returns (img, Some x_index) →
  length y_hat = length x_index →
  prediction_reduction y_hat x_index "mean"
  = Ok ((λ s, mean_of (scores_with y_hat x_index s)) <$> np_arange (n_rows X))
  ∧ prediction_reduction y_hat x_index "sum"
    = Ok ((λ s, Qc_sum (scores_with y_hat x_index s)) <$> np_arange (n_rows X)).
Proof.
  intros Hperm Hrun Hy.
  apply mrep_transform_Returns_inv in Hrun
    as (translist & a & idx & Htl & Hlen & Hdim & _ & [= <-] & Hcase).
  assert (np_unique Z.ltb x_index = np_arange (n_rows X)) as Hunq.
  { apply np_unique_Z_determined; [apply StronglySorted_np_arange|].
    destruct Hcase as [(_ & Hcat & Hidx) | [(_ & Hcat & Hidx) | (_ & a0 & Hcat & _ & Hidx)]].
    - apply np_concatenate_items in Hcat as [Hne _].
      apply (mrep_index_elements translist (n_rows X) x_index []).
      + intros ->. by apply Hne.
      + by left.
    - apply (np_stack_reshape_items translist (n_rows X)) in Hcat as [Hne _]; [|done].
      apply (mrep_index_elements translist (n_rows X) x_index []); [done|].
      right. by left.
    - apply np_concatenate_items in Hcat as [Hne _].
      eapply (mrep_index_elements translist (n_rows X) x_index).
      + intros ->. by apply Hne.
      + right. right. split; [apply Hperm | exact Hidx]. }
  unfold prediction_reduction. split.
  - rewrite decide_True by done.
    rewrite (prediction_reduction_spec np_mean) by done. by rewrite Hunq.
  - rewrite decide_False, decide_True by done.
    rewrite (prediction_reduction_spec Qc_sum) by done. by rewrite Hunq.
Qed.

Lemma X20_prediction_reduction_over_transform_index_witness :
  ∃ img x_index,
    MRepImageTransformer.transform reference reversed_order fitted_mrep_2x2
      two_samples "scalar" 0%Qc "sample" true
    = Returns (img, Some x_index)
    ∧ prediction_reduction [qz 1; qz 2; qz 3; qz 4] x_index "mean"
      = Ok ((λ s, mean_of (scores_with [qz 1; qz 2; qz 3; qz 4] x_index s))
            <$> np_arange (n_rows two_samples))
    ∧ prediction_reduction [qz 1; qz 2; qz 3; qz 4] x_index "sum"
      = Ok ((λ s, Qc_sum (scores_with [qz 1; qz 2; qz 3; qz 4] x_index s))
            <$> np_arange (n_rows two_samples)).
Proof.
  destruct (MRepImageTransformer.transform reference reversed_order fitted_mrep_2x2
      two_samples "scalar" 0%Qc "sample" true)
    as [[img [x_index|]]|e] eqn:Hrun.
  - exists img, x_index. split; [exact eq_refl|].
    apply (X20_prediction_reduction_over_transform_index reference reversed_order
             fitted_mrep_2x2 two_samples "scalar" 0%Qc "sample" img x_index
             [qz 1; qz 2; qz 3; qz 4] reversed_order_permutes Hrun).
    vm_compute in Hrun. injection Hrun as _ <-. exact eq_refl.
  - exfalso. vm_compute in Hrun. discriminate.
  - exfalso. vm_compute in Hrun. discriminate.
Defined.

(** Property X21: what the constructor of [MRepImageTransformer] builds. It
    keeps the default discretization and the [pixels] argument as given, has
    no stored data, and holds one transformer per entry of
    [feature_extractor], each on the grid given by [pixels] and none of them
    fitted. *)
Theorem X21_mrep_init_builds_unfitted_transformers
    (E : externals) (feature_extractor : list (MRepImageTransformer.config E))
    (discretization : string) (pixels : pixels_arg) (self : MRepImageTransformer.t E) :
  MRepImageTransformer.__init__ E feature_extractor discretization pixels = Ok self →
  MRepImageTransformer.discretization E self = discretization
  ∧ MRepImageTransformer.pixels E self = pixels
  ∧ MRepImageTransformer._data E self = None
  ∧ length (MRepImageTransformer._its E self) = length feature_extractor
  ∧ Forall (unfitted_on pixels) (MRepImageTransformer._its E self).
Proof.
  unfold MRepImageTransformer.__init__. intros Hinit.
  apply mrep_init_loop in Hinit as (new & Hnew & ->). simpl.
  split_and!; try done.
  - by apply mapM_Ok_length in Hnew.
  - eapply mapM_Ok_Forall; [|exact Hnew]. intros cfg it Hit.
    by apply initialize_image_transformer_unfitted in Hit.
Qed.

Lemma X21_mrep_init_builds_unfitted_transformers_witness :
  ∃ self,
    mrep_2x2 = Ok self
    ∧ MRepImageTransformer.discretization reference self = "bin"
    ∧ MRepImageTransformer.pixels reference self = PxInt 2
    ∧ MRepImageTransformer._data reference self = None
    ∧ length (MRepImageTransformer._its reference self) = 2%nat
    ∧ Forall (unfitted_on (PxInt 2)) (MRepImageTransformer._its reference self).
Proof.
  eexists. split; [reflexivity|].
  apply (X21_mrep_init_builds_unfitted_transformers reference
           [MRepImageTransformer.Extractor reference
              (FeObj reference (MockProjector three_points 0));
            MRepImageTransformer.WithDiscretization reference
              (FeObj reference (MockProjector three_points 0)) "lsa"]
           "bin" (PxInt 2)).
  reflexivity.
Defined.

(** Property X22: the default discretization is looked up only for the
    entries that use it. With a default that is not a discretization
    option, the constructor returns exactly when every entry of
    [feature_extractor] is a pair that brings a discretization of its own
    (from which a transformer can be built); an entry without one makes it
    raise. *)
Theorem X22_mrep_init_default_discretization
    (E : externals) (feature_extractor : list (MRepImageTransformer.config E))
    (discretization : string) (pixels : pixels_arg) :
  DISCRETIZATION_OPTIONS !! discretization = None →
  is_Ok (MRepImageTransformer.__init__ E feature_extractor discretization pixels)
  ↔ Forall (brings_discretization pixels) feature_extractor.
Proof.
  intros Hkey. unfold MRepImageTransformer.__init__.
  set (self0 := MRepImageTransformer.mk E discretization [] pixels None).
  assert (∀ cfg,
            is_Ok (MRepImageTransformer.initialize_image_transformer E self0 cfg)
            ↔ brings_discretization pixels cfg) as Hcfg.
  { intros [fe | fe key]; simpl; [|done]. split; [|done].
    intros [it Hit]. apply __init___Ok_inv in Hit as (_ & _ & _ & Hdm).
    by rewrite Hkey in Hdm. }
  split.
  - intros [self Hself]. apply mrep_init_loop in Hself as (new & Hnew & _).
    assert (is_Ok (mapM (MRepImageTransformer.initialize_image_transformer E self0)
                     feature_extractor)) as Hok by (by exists new).
    apply mapM_is_Ok in Hok. eapply Forall_impl; [exact Hok|].
    intros cfg. apply Hcfg.
  - intros Hall.
    assert (is_Ok (mapM (MRepImageTransformer.initialize_image_transformer E self0)
                     feature_extractor)) as [new Hnew].
    { apply mapM_is_Ok. eapply Forall_impl; [exact Hall|]. intros cfg. apply Hcfg. }
    eexists. apply mrep_init_loop. by exists new.
Qed.

Lemma X22_mrep_init_default_discretization_witness :
  is_Ok (MRepImageTransformer.__init__ reference
           [MRepImageTransformer.WithDiscretization reference
              (FeObj reference (MockProjector three_points 0)) "lsa"]
           "nearest" (PxInt 2))
  ↔ Forall (brings_discretization (PxInt 2))
      [MRepImageTransformer.WithDiscretization reference
         (FeObj reference (MockProjector three_points 0)) "lsa"].
Proof.
  apply (X22_mrep_init_default_discretization reference
           [MRepImageTransformer.WithDiscretization reference
              (FeObj reference (MockProjector three_points 0)) "lsa"]
           "nearest" (PxInt 2)).
  reflexivity.
Defined.

(** Property X23: [extend_fit] before [fit]. On a transformer that the
    constructor returned, [extend_fit] with an empty list does nothing;
    with any entry it raises and leaves the transformer as it was: the
    exception of the entry if no transformer can be built from it, and
    otherwise the [AttributeError] of [None.T], since there is no stored
    data to fit on. *)
Theorem X23_mrep_extend_fit_before_fit
    (E : externals) (feature_extractor : list (MRepImageTransformer.config E))
    (discretization : string) (pixels : pixels_arg) (self : MRepImageTransformer.t E) :
  MRepImageTransformer.__init__ E feature_extractor discretization pixels = Ok self →
  MRepImageTransformer.extend_fit E self [] = (Returns (), self)
  ∧ ∀ cfg rest,
      MRepImageTransformer.extend_fit E self (cfg :: rest)
      = (match MRepImageTransformer.initialize_image_transformer E self cfg with
         | Ok _ => Raises (AttributeError "'NoneType' object has no attribute 'T'")
         | Raise e => Raises (Lib e)
         end, self).
Proof.
  unfold MRepImageTransformer.__init__. intros Hinit.
  apply mrep_init_loop in Hinit as (new & _ & ->).
  split; [done|]. intros cfg rest. simpl.
  rewrite initialize_image_transformer_with_its.
  by destruct (MRepImageTransformer.initialize_image_transformer E _ cfg).
Qed.

Lemma X23_mrep_extend_fit_before_fit_witness :
  ∃ self,
    mrep_2x2 = Ok self
    ∧ MRepImageTransformer.extend_fit reference self [] = (Returns (), self)
    ∧ ∀ cfg rest,
        MRepImageTransformer.extend_fit reference self (cfg :: rest)
        = (match MRepImageTransformer.initialize_image_transformer reference self cfg with
           | Ok _ => Raises (AttributeError "'NoneType' object has no attribute 'T'")
           | Raise e => Raises (Lib e)
           end, self).
Proof.
  eexists. split; [reflexivity|].
  apply (X23_mrep_extend_fit_before_fit reference
           [MRepImageTransformer.Extractor reference
              (FeObj reference (MockProjector three_points 0));
            MRepImageTransformer.WithDiscretization reference
              (FeObj reference (MockProjector three_points 0)) "lsa"]
           "bin" (PxInt 2)).
  reflexivity.
Defined.

(** Property X24: [extend_fit] only appends. Whether it returns or raises,
    it leaves the default discretization, [pixels], the stored data and the
    transformers already in the list as they are; what it appends are
    transformers built from the leading entries of its argument and fitted
    on the stored data, in the order of the entries, and when it returns
    there is one for every entry. *)
Theorem X24_mrep_extend_fit_appends_fitted_transformers
    (E : externals) (self self' : MRepImageTransformer.t E)
    (feature_extractor : list (MRepImageTransformer.config E)) (r : outcome unit) :
  MRepImageTransformer.extend_fit E self feature_extractor = (r, self') →
  MRepImageTransformer.discretization E self' = MRepImageTransformer.discretization E self
  ∧ MRepImageTransformer.pixels E self' = MRepImageTransformer.pixels E self
  ∧ MRepImageTransformer._data E self' = MRepImageTransformer._data E self
  ∧ ∃ new,
      MRepImageTransformer._its E self' = MRepImageTransformer._its E self ++ new
      ∧ Forall2 (fitted_from self) (take (length new) feature_extractor) new
      ∧ (r = Returns () → length new = length feature_extractor).
Proof.
  revert self. induction feature_extractor as [|cfg rest IH]; intros self Hrun.
  - injection Hrun as <- <-. split_and!; try done.
    exists []. rewrite app_nil_r. split_and!; [done | constructor | done].
  - simpl in Hrun.
    assert (∀ e, (Raises e, self) = (r, self') →
              MRepImageTransformer.discretization E self'
              = MRepImageTransformer.discretization E self
              ∧ MRepImageTransformer.pixels E self' = MRepImageTransformer.pixels E self
              ∧ MRepImageTransformer._data E self' = MRepImageTransformer._data E self
              ∧ ∃ new,
                  MRepImageTransformer._its E self'
                  = MRepImageTransformer._its E self ++ new
                  ∧ Forall2 (fitted_from self) (take (length new) (cfg :: rest)) new
                  ∧ (r = Returns () → length new = length (cfg :: rest))) as Hraise.
    { intros e [= <- <-]. split_and!; try done.
      exists []. rewrite app_nil_r. split_and!; [done | constructor | done]. }
    destruct (MRepImageTransformer.initialize_image_transformer E self cfg)
      as [it|e] eqn:Hit; [|by eapply Hraise].
    destruct (MRepImageTransformer._data E self) as [X|] eqn:Hdata;
      [|by eapply Hraise].
    destruct (fit E it X) as [[[]|e] it'] eqn:Hfit; [|by eapply Hraise].
    apply IH in Hrun as (Hd & Hp & Hx & new & Hits & Hnew & Hlen).
    simpl in Hd, Hp, Hx, Hits. split_and!; [done | done | congruence |].
    exists (it' :: new). split_and!.
    + by rewrite Hits, <- app_assoc.
    + simpl. constructor.
      * exists it, X. by split_and!.
      * eapply Forall2_impl; [exact Hnew|]. intros cfg' it0 (it1 & X' & H1 & H2 & H3).
        exists it1, X'. simpl in H2. rewrite initialize_image_transformer_with_its in H1.
        split_and!; [done | congruence | done].
    + intros Hr. simpl. f_equal. by apply Hlen.
Qed.

Lemma X24_mrep_extend_fit_appends_fitted_transformers_witness :
  extended_mrep_2x2.1 = Returns ()
  ∧ MRepImageTransformer.discretization reference extended_mrep_2x2.2
    = MRepImageTransformer.discretization reference fitted_mrep_2x2
  ∧ MRepImageTransformer.pixels reference extended_mrep_2x2.2
    = MRepImageTransformer.pixels reference fitted_mrep_2x2
  ∧ MRepImageTransformer._data reference extended_mrep_2x2.2
    = MRepImageTransformer._data reference fitted_mrep_2x2
  ∧ ∃ new,
      MRepImageTransformer._its reference extended_mrep_2x2.2
      = MRepImageTransformer._its reference fitted_mrep_2x2 ++ new
      ∧ Forall2 (fitted_from fitted_mrep_2x2)
          (take (length new)
             [MRepImageTransformer.WithDiscretization reference
                (FeObj reference (MockProjector three_points 0)) "ags"]) new
      ∧ (extended_mrep_2x2.1 = Returns () → length new = 1%nat).
Proof.
  split; [vm_compute; reflexivity|].
  apply (X24_mrep_extend_fit_appends_fitted_transformers reference fitted_mrep_2x2
           extended_mrep_2x2.2
           [MRepImageTransformer.WithDiscretization reference
              (FeObj reference (MockProjector three_points 0)) "ags"]
           extended_mrep_2x2.1).
  apply surjective_pairing.
Defined.

(** Property X25: [MRepImageTransformer.fit] stores the data first and then
    fits the transformers in turn. Whether it returns or raises, the stored
    data is [X] afterwards, and the default discretization, [pixels] and the
    number of transformers are as before. When it returns, every transformer
    has been fitted on [X]; when it raises, the exception is that of the
    first transformer whose fit raises: the transformers before it have been
    fitted on [X], those behind it are untouched. *)
Theorem X25_mrep_fit_stores_data_and_fits_in_turn
    (E : externals) (self self' : MRepImageTransformer.t E) (X : matrix)
    (r : result unit) :
  MRepImageTransformer.fit E self X = (r, self') →
  MRepImageTransformer._data E self' = Some X
  ∧ MRepImageTransformer.discretization E self' = MRepImageTransformer.discretization E self
  ∧ MRepImageTransformer.pixels E self' = MRepImageTransformer.pixels E self
  ∧ length (MRepImageTransformer._its E self') = length (MRepImageTransformer._its E self)
  ∧ ∃ k, fitted_up_to X r (MRepImageTransformer._its E self)
           (MRepImageTransformer._its E self') k.
Proof.
  assert (∀ its r its',
            MRepImageTransformer.fit_each E its X = (r, its') →
            length its' = length its ∧ ∃ k, fitted_up_to X r its its' k) as Heach.
  { induction its as [|it its IH]; intros r0 its' Hrun; simpl in Hrun.
    - injection Hrun as <- <-. split; [done|]. exists 0%nat. split; [constructor | done].
    - destruct (fit E it X) as [[[]|e] it'] eqn:Hfit.
      + destruct (MRepImageTransformer.fit_each E its X) as [r1 rest] eqn:Hrest.
        injection Hrun as <- <-.
        destruct (IH _ _ eq_refl) as (Hlen & k & Hk & Hr).
        split; [simpl; by rewrite Hlen|]. exists (S k). split.
        * simpl. by constructor.
        * destruct r1 as [[]|e]; [simpl; by rewrite Hr | done].
      + injection Hrun as <- <-. split; [done|]. exists 0%nat. split; [constructor|].
        exists it, it'. by split_and!. }
  unfold MRepImageTransformer.fit. simpl.
  destruct (MRepImageTransformer.fit_each E (MRepImageTransformer._its E self) X)
    as [r0 its'] eqn:Hrun.
  intros [= <- <-]. simpl. destruct (Heach _ _ _ Hrun) as [Hlen Hk].
  by split_and!.
Qed.

Lemma X25_mrep_fit_stores_data_and_fits_in_turn_witness :
  ∃ self,
    mrep_2x2 = Ok self
    ∧ (MRepImageTransformer.fit reference self two_samples).1 = Ok ()
    ∧ MRepImageTransformer._data reference
        (MRepImageTransformer.fit reference self two_samples).2 = Some two_samples
    ∧ MRepImageTransformer.discretization reference
        (MRepImageTransformer.fit reference self two_samples).2
      = MRepImageTransformer.discretization reference self
    ∧ MRepImageTransformer.pixels reference
        (MRepImageTransformer.fit reference self two_samples).2
      = MRepImageTransformer.pixels reference self
    ∧ length (MRepImageTransformer._its reference
                (MRepImageTransformer.fit reference self two_samples).2)
      = length (MRepImageTransformer._its reference self)
    ∧ ∃ k, fitted_up_to two_samples
             (MRepImageTransformer.fit reference self two_samples).1
             (MRepImageTransformer._its reference self)
             (MRepImageTransformer._its reference
                (MRepImageTransformer.fit reference self two_samples).2) k.
Proof.
  eexists. split; [reflexivity|]. split; [vm_compute; reflexivity|].
  apply (X25_mrep_fit_stores_data_and_fits_in_turn reference).
  apply surjective_pairing.
Defined.

(** ** Fitting and transforming in one call *)

(** Property X26: [fit_transform] with the exact assignment on a square
    grid. With a solver that honours its contract, positions that have a
    range on both axes, one position per column of [X] and a grid with room
    for them, a [fit_transform] whose fit succeeds returns the scalar images
    of [X] by the fitted transformer, and [inverse_transform] of the fitted
    transformer restores [X] from them. *)
Theorem X26_fit_transform_exact_assignment_round_trip
    (E : externals) (t t' : ImageTransformer E) (X : matrix) (n : Z)
    (empty_value : Qc) :
  solver_contract (linear_sum_assignment E) →
  _dm E t = m_coordinate_optimal_assignment →
  _pixels E t = (n, n) → 0 < n →
  fit E t X = (Ok (), t') →
  ¬ zero_range (_xrot E t').*1 → ¬ zero_range (_xrot E t').*2 →
  length (_xrot E t') = n_cols X →
  Z.of_nat (n_cols X) ≤ n * n →
  matrix_wf X →
  ∃ img,
    ImageTransformer_fit_transform E t X "scalar" empty_value = (Ok (Numpy img), t')
    ∧ inverse_transform E t' img = Ok (Arr2 X).
Proof.
  intros Hlsa Hdm Hpx Hn Hfit Hr1 Hr2 Hcols Hroom Hwf.
  (* the fit leaves an injective mapping within the grid, one pixel per column *)
  pose proof Hfit as Hfit'.
  apply fit_Ok_inv in Hfit' as (fe' & x_new & xrot & c & _ & _ & Hc & ->).
  simpl in Hr1, Hr2, Hcols. rewrite Hdm, Hpx in Hc. simpl in Hc.
  destruct (coordinate_optimal_assignment_square E Hlsa xrot n Hn ltac:(lia) Hr1 Hr2)
    as (m & Hm & Hgrid).
  rewrite Hm in Hc. injection Hc as <-.
  destruct (coordinate_optimal_assignment_NoDup E Hlsa xrot (n, n) m) as [Hlen Hnd];
    [simpl; lia | done |].
  set (t' := mkImageTransformer E fe' (_dm E t) (_pixels E t) xrot m) in *.
  assert (fitted t') as Hfitted.
  { split; simpl; [|by rewrite Hpx]. intros ->. simpl in Hlen.
    destruct xrot; [|done]. apply Hr1. intros a b Ha. by apply elem_of_nil in Ha. }
  destruct (fitted_grid_positive E t' Hfitted) as [Hh Hw].
  (* the images *)
  unfold ImageTransformer_fit_transform. rewrite Hfit.
  rewrite (transform_scalar_fitted E t' Hfitted) by (simpl; lia).
  eexists. split; [reflexivity|].
  (* reading them back *)
  unfold inverse_transform.
  rewrite bool_decide_eq_true_2.
  2: { rewrite !Z2Nat.id by lia. symmetry. apply surjective_pairing. }
  rewrite (coords_index_fitted E t' Hfitted). simpl.
  destruct X as [w rs]. unfold matrix_wf in Hwf. simpl in *. do 2 f_equal. f_equal.
  - rewrite length_fmap. congruence.
  - rewrite <- list_fmap_compose. rewrite <- (list_fmap_id rs) at 2.
    apply list_fmap_ext. intros i r Hr. simpl.
    apply (gather_painted E t' Hfitted); [apply grid_shape_initial_grid | done |].
    rewrite Forall_forall in Hwf. rewrite (Hwf r) by (by eapply list_elem_of_lookup_2).
    simpl. congruence.
Qed.

Lemma X26_fit_transform_exact_assignment_round_trip_witness :
  ∃ img,
    ImageTransformer_fit_transform reference lsa_2x2 two_samples "scalar" 0%Qc
    = (Ok (Numpy img), (fit reference lsa_2x2 two_samples).2)
    ∧ inverse_transform reference (fit reference lsa_2x2 two_samples).2 img
      = Ok (Arr2 two_samples).
Proof.
  assert (_xrot reference (fit reference lsa_2x2 two_samples).2 = three_points)
    as Hxrot by (vm_compute; reflexivity).
  apply (X26_fit_transform_exact_assignment_round_trip reference lsa_2x2
           (fit reference lsa_2x2 two_samples).2 two_samples 2 0%Qc
           exhaustive_lsa_contract).
  - reflexivity.
  - reflexivity.
  - lia.
  - vm_compute. reflexivity.
  - rewrite Hxrot. apply three_points_have_ranges.
  - rewrite Hxrot. apply three_points_have_ranges.
  - rewrite Hxrot. reflexivity.
  - vm_compute. discriminate.
  - repeat constructor.
Defined.
